(** * Parthenon: output layer and physical boundary conditions

    A shallow embedding of [src/outputs/parthenon_hdf5.cpp],
    [src/bvals/boundary_conditions.cpp] and [src/outputs/vtk.cpp] (with
    [StateDescriptor::AddField]), with the properties of the variable
    registry, the cross-rank reconciliation, the write-buffer packing, the
    file names and metadata buffers, the VTK cell data and the boundary
    kernels proved over it.

    Conventions of the embedding:
    - a C++ [int] is a [Z]; where the source does arithmetic whose range
      matters the 32-bit (or, for [hsize_t], 64-bit) wrap-around is
      written out;
    - [std::string] is [string], a [std::vector<char>] is a [list ascii];
    - [PARTHENON_FAIL] ends the computation: fallible code returns a
      [result], whose [Fatal] case carries the error that was raised;
    - [Real] (a C++ [double]) is the type [R]: the only arithmetic the
      modelled kernels do on cell values is a product with the literals
      [1.0] and [-1.0], which is exact in binary floating point. *)

From Stdlib Require Import ZArith List Bool Lia String Ascii Sorted OrdersEx.
From Stdlib Require Import Reals Lra.
From stdpp Require Import gmap strings list.
From Equations Require Import Equations.

Local Open Scope Z_scope.

(* ===================================================================== *)
(** * Part I: the embedding                                               *)
(* ===================================================================== *)

(** ** Machine integers *)

Module CInt.

(** Two's-complement value of a 32-bit [int]. *)
Definition wrap_int (x : Z) : Z := (x + 2 ^ 31) mod 2 ^ 32 - 2 ^ 31.

(** Value of a 64-bit unsigned [hsize_t]. *)
Definition wrap_hsize (x : Z) : Z := x mod 2 ^ 64.

(** The largest [int]. *)
Definition int_max : Z := 2 ^ 31 - 1.

(** [a + b] on [int]. *)
Definition add_int (a b : Z) : Z := wrap_int (a + b).

(** [a += b] on [hsize_t], the right operand converted from [int]. *)
Definition add_hsize (a b : Z) : Z := wrap_hsize (a + wrap_hsize b).

(** [a * b] on [int]. *)
Definition mul_int (a b : Z) : Z := wrap_int (a * b).

(** [a * b] on [hsize_t], the right operand converted from [int]. *)
Definition mul_hsize (a b : Z) : Z := wrap_hsize (a * wrap_hsize b).

End CInt.

(** ** Fatal errors *)

(** The failures the modelled code raises through [PARTHENON_FAIL], and the
    exception of [std::unordered_map::at]. *)
Inductive error : Type :=
| BadVlen (label : string) (vlen : Z)
    (* "Got variable <label> with length <vlen>" *)
| MultipleLengths (label : string)
    (* "Got variable <label> with multiple different lengths" *)
| NoTrailingTab
    (* "all_labels_buffer does not end with \t" *)
| EmptyLabel
    (* "Got an empty label" *)
| SizeMismatch (nlabels ncodes : nat)
    (* "all_labels and all_codes have different sizes" *)
| DenseMissing (var_name : string)
    (* "Unable to find dense variable <var_name>" *)
| OutOfRange (key : string)
    (* std::out_of_range from sparse_field_idx.at *).

Inductive result (A : Type) : Type :=
| Ok (a : A)
| Fatal (e : error).
Arguments Ok {A} a.
Arguments Fatal {A} e.

#[global] Instance result_ret : MRet result := fun _ a => Ok a.
#[global] Instance result_bind : MBind result := fun _ _ k m =>
  match m with
  | Ok a => k a
  | Fatal e => Fatal e
  end.

#[global] Instance result_fmap : FMap result := fun _ _ f m =>
  match m with
  | Ok a => Ok (f a)
  | Fatal e => Fatal e
  end.

(** ** struct VarInfo *)

Record VarInfo : Type := mkVarInfo {
  label : string;
  vlen : Z;
  is_sparse : bool;
  is_vector : bool
}.

(** [static constexpr int max_vlen = (1 << 16) - 1] and the two flags. *)
Definition max_vlen : Z := Z.shiftl 1 16 - 1.
Definition sparse_flag : Z := Z.shiftl 1 20.
Definition vector_flag : Z := Z.shiftl 1 21.

(** [static VarInfo Decode(const std::string &label, int info_code)] *)
Definition Decode (lbl : string) (info_code : Z) : VarInfo :=
  {| label := lbl;
     vlen := Z.land info_code max_vlen;
     is_sparse := Z.land info_code sparse_flag >? 0;
     is_vector := Z.land info_code vector_flag >? 0 |}.

(** What the constructor reads from a [CellVariable<Real>]: [label()],
    [GetDim(4)], [IsSparse()], [IsSet(Metadata::Vector)] and the host
    copy of the data, indexed [(l, k, j, i)]. *)
Record CellVariable : Type := mkCellVariable {
  cv_label : string;
  cv_dim4 : Z;
  cv_IsSparse : bool;
  cv_IsVector : bool;
  cv_data : Z -> Z -> Z -> Z -> R
}.

(** [explicit VarInfo(const std::shared_ptr<CellVariable<Real>> &var)] *)
Definition VarInfo_of (var : CellVariable) : result VarInfo :=
  let lbl := cv_label var in
  let n := cv_dim4 var in
  if (n <=? 0) || (n >? max_vlen) then Fatal (BadVlen lbl n)
  else Ok {| label := lbl; vlen := n;
             is_sparse := cv_IsSparse var; is_vector := cv_IsVector var |}.

(** [int get_info_code() const] *)
Definition get_info_code (v : VarInfo) : Z :=
  let code := vlen v in
  let code := if is_sparse v then CInt.add_int code sparse_flag else code in
  let code := if is_vector v then CInt.add_int code vector_flag else code in
  code.

(** [bool operator<(const VarInfo &other) const]: fails when the labels
    agree and the lengths differ, and otherwise compares the labels, which
    [std::string] does byte by byte, the bytes taken as unsigned. *)
Definition VarInfo_lt (a b : VarInfo) : result bool :=
  if (label a =? label b)%string && negb (vlen a =? vlen b)
  then Fatal (MultipleLengths (label a))
  else Ok (label a <? label b)%string.

(** ** std::set<VarInfo> *)

(** The set is modelled by the sequence of its elements in iteration order.
    [insert] makes the comparisons of a linear search; a red-black tree
    makes fewer, but every search for the place of [x] compares [x] with
    the element equivalent to it when there is one, and that comparison is
    the only one in which [operator<] can fail. An element equivalent to
    one of the set is not inserted. *)
Module VarSet.

Definition t : Type := list VarInfo.

Definition empty : t := [].

Fixpoint insert (x : VarInfo) (s : t) : result t :=
  match s with
  | [] => Ok [x]
  | y :: s' =>
      x_lt_y ← VarInfo_lt x y;
      if x_lt_y : bool then Ok (x :: y :: s')
      else
        y_lt_x ← VarInfo_lt y x;
        if y_lt_x : bool then s'' ← insert x s'; Ok (y :: s'')
        else Ok (y :: s')
  end.

Definition labels (s : t) : list string := map label s.

End VarSet.

(** ** Mesh blocks, as far as the writer reads them *)

(** [ci_vars] is [get_MeshBlockDataIterator(pmb).vars]: the variables of the
    block that the output selects, in the iterator's order. *)
Record MeshBlock : Type := mkMeshBlock {
  ci_vars : list CellVariable
}.

(** ** The local list of unique variables *)

(** [for (auto &v : ci.vars) { VarInfo vinfo(v); all_unique_vars.insert(vinfo); }] *)
Fixpoint insert_vars (vs : list CellVariable) (s : VarSet.t) : result VarSet.t :=
  match vs with
  | [] => Ok s
  | v :: vs' =>
      vinfo ← VarInfo_of v;
      s' ← VarSet.insert vinfo s;
      insert_vars vs' s'
  end.

(** [for (auto &pmb : pm->block_list) ...] *)
Fixpoint insert_blocks (block_list : list MeshBlock) (s : VarSet.t)
  : result VarSet.t :=
  match block_list with
  | [] => Ok s
  | pmb :: rest =>
      s' ← insert_vars (ci_vars pmb) s;
      insert_blocks rest s'
  end.

Definition local_unique_vars (block_list : list MeshBlock) : result VarSet.t :=
  insert_blocks block_list VarSet.empty.

(** ** Reconciliation across ranks (MPI_PARALLEL) *)

Definition tab : ascii := "009"%char.
Definition NUL : ascii := "000"%char.

(** [label_buffer += vi.label + "\t"] for every element of the set. *)
Fixpoint label_buffer (s : VarSet.t) : list ascii :=
  match s with
  | [] => []
  | vi :: s' => (list_ascii_of_string (label vi) ++ [tab]) ++ label_buffer s'
  end.

(** [code_buffer[idx++] = vi.get_info_code()] *)
Definition code_buffer (s : VarSet.t) : list Z := map get_info_code s.

(** The two [MPI_Allgatherv]: every rank's buffer lands at the offset that
    is the sum of the lengths of the lower ranks' buffers, so the gathered
    buffer is the concatenation of the ranks' buffers in rank order. *)
Definition all_labels_buffer (locals : list VarSet.t) : list ascii :=
  concat (map label_buffer locals).

Definition all_codes (locals : list VarSet.t) : list Z :=
  concat (map code_buffer locals).

(** [strchr(curr, c)] for [c] other than NUL, over the bytes that memory holds
    from [curr] on: the offset of the first [c], nothing when a NUL byte
    comes first. The end of the list stands for a NUL byte. *)
Fixpoint strchr (mem : list ascii) (c : ascii) : option nat :=
  match mem with
  | [] => None
  | x :: mem' =>
      if Ascii.eqb x c then Some 0%nat
      else if Ascii.eqb x NUL then None
      else option_map S (strchr mem' c)
  end.

(** The label unpacking loop. [buf] is what is left of [all_labels_buffer]
    from [curr] to [end]. The vector stores no terminating NUL, so [strchr]
    goes on into [slack], the bytes that follow the buffer in memory, when
    [buf] holds neither a tab nor a NUL. *)
Equations? unpack_labels (buf slack : list ascii) : result (list string)
  by wf (length buf) lt :=
  unpack_labels [] slack := Ok [];
  unpack_labels (c :: rest) slack with strchr (c :: rest ++ slack) tab := {
    | None := Fatal NoTrailingTab
    | Some 0%nat := Fatal EmptyLabel
    | Some (S n) :=
        all_labels ← unpack_labels (drop (S n) rest) slack;
        Ok (string_of_list_ascii (take (S n) (c :: rest ++ slack))
              :: all_labels) }.
Proof. rewrite length_drop. simpl. lia. Qed.

(** [all_unique_vars.insert(VarInfo::Decode(all_labels[i], all_codes[i]))] *)
Fixpoint insert_decoded (all_labels : list string) (codes : list Z)
  (s : VarSet.t) : result VarSet.t :=
  match all_labels, codes with
  | lbl :: ls, code :: cs =>
      s' ← VarSet.insert (Decode lbl code) s;
      insert_decoded ls cs s'
  | _, _ => Ok s
  end.

(** What one rank does with the gathered buffers and its own set [mine]. *)
Definition merge_gathered (labels_buf slack : list ascii) (codes : list Z)
  (mine : VarSet.t) : result VarSet.t :=
  all_labels ← unpack_labels labels_buf slack;
  if negb (length all_labels =? length codes)%nat
  then Fatal (SizeMismatch (length all_labels) (length codes))
  else insert_decoded all_labels codes mine.

(** The local sets of all ranks; a rank that fails ends the run. *)
Fixpoint local_sets (ranks : list (list MeshBlock)) : result (list VarSet.t) :=
  match ranks with
  | [] => Ok []
  | block_list :: rest =>
      s ← local_unique_vars block_list;
      ss ← local_sets rest;
      Ok (s :: ss)
  end.

(** [all_unique_vars] on rank [length lower], whose blocks are [mine], in a
    run whose lower ranks hold [lower] and whose higher ranks hold
    [higher]. *)
Definition reconcile (lower : list (list MeshBlock)) (mine : list MeshBlock)
  (higher : list (list MeshBlock)) (slack : list ascii) : result VarSet.t :=
  locals ← local_sets (lower ++ mine :: higher);
  my_set ← local_unique_vars mine;
  merge_gathered (all_labels_buffer locals) slack (all_codes locals) my_set.

(** ** The offset of a rank in the block dimension *)

(** [for (int i = 0; i < Globals::my_rank; i++) my_offset += nblist[i];]
    with [count] iterations left from index [i]. [nblist] is the
    [std::vector<int>] of [GetNbList()]; an index past its end has no
    defined value, which is the [None] here. *)
Fixpoint my_offset_loop (nblist : list Z) (i count : nat) (my_offset : Z)
  : option Z :=
  match count with
  | O => Some my_offset
  | S count' =>
      match nblist !! i with
      | Some n => my_offset_loop nblist (S i) count' (CInt.add_hsize my_offset n)
      | None => None
      end
  end.

(** [hsize_t my_offset = 0; for ...] *)
Definition my_offset (nblist : list Z) (my_rank : nat) : option Z :=
  my_offset_loop nblist 0 my_rank 0.

(** [const std::array<hsize_t, 5> local_offset({my_offset, 0, 0, 0, 0})] *)
Definition local_offset (nblist : list Z) (my_rank : nat) : option (list Z) :=
  match my_offset nblist my_rank with
  | Some o => Some [o; 0; 0; 0; 0]
  | None => None
  end.

(** ** Boundary conditions: the dispatch *)

(** Modelled from the spec: the enumerations [BoundaryFlag] and
    [BoundaryFace] of bvals_interfaces.hpp, which is not under src/. The
    flags are the six of the data model; the faces are the ones the
    source names, with [undef]. *)
Module BoundaryFlag.

Inductive t : Type := block | undef | periodic | reflect | outflow | user.

Definition eqb (a b : t) : bool :=
  match a, b with
  | block, block | undef, undef | periodic, periodic
  | reflect, reflect | outflow, outflow | user, user => true
  | _, _ => false
  end.

End BoundaryFlag.

Module BoundaryFace.

Inductive t : Type :=
| undef
| inner_x1 | outer_x1 | inner_x2 | outer_x2 | inner_x3 | outer_x3.

Definition eqb (a b : t) : bool :=
  match a, b with
  | undef, undef | inner_x1, inner_x1 | outer_x1, outer_x1
  | inner_x2, inner_x2 | outer_x2, outer_x2
  | inner_x3, inner_x3 | outer_x3, outer_x3 => true
  | _, _ => false
  end.

End BoundaryFace.

(** [bool DoPhysicalBoundary_(const BoundaryFlag flag, const BoundaryFace face,
                              const int ndim)] *)
Definition DoPhysicalBoundary_ (flag : BoundaryFlag.t) (face : BoundaryFace.t)
  (ndim : Z) : bool :=
  if BoundaryFlag.eqb flag BoundaryFlag.block then false
  else if BoundaryFlag.eqb flag BoundaryFlag.undef then false
  else if BoundaryFlag.eqb flag BoundaryFlag.periodic then false
  else if (ndim <? 3)
          && (BoundaryFace.eqb face BoundaryFace.inner_x3
              || BoundaryFace.eqb face BoundaryFace.outer_x3)
  then false
  else if (ndim <? 2)
          && (BoundaryFace.eqb face BoundaryFace.inner_x2
              || BoundaryFace.eqb face BoundaryFace.outer_x2)
  then false
  else true.

(** Modelled from the spec: [BOUNDARY_NFACES] of defs.hpp, which is not
    under src/: a block has six faces. *)
Definition BOUNDARY_NFACES : nat := 6.

Section Dispatch.

(** The block data the boundary functions work on. *)
Variable MeshBlockData : Type.

(** [static_cast<BoundaryFace>(i)]: the numbering of the faces is fixed in
    bvals_interfaces.hpp. *)
Variable face_of_int : nat -> BoundaryFace.t.

(** What the dispatcher reads: [pmb->boundary_flag], [pmesh->ndim] and
    [pmesh->MeshBndryFnctn], in which [None] is a null function. *)
Record Mesh : Type := mkMesh {
  boundary_flag : nat -> BoundaryFlag.t;
  ndim : Z;
  MeshBndryFnctn : nat -> option (MeshBlockData -> bool -> MeshBlockData)
}.

(** The [for] loop of [ApplyBoundaryConditionsOnCoarseOrFine] from face [i],
    with [count] faces left. The state is the block data with the list of
    the faces whose function has been called, latest first. Calling a null
    function is the failure of [PARTHENON_DEBUG_REQUIRE]. *)
Fixpoint apply_faces (pmesh : Mesh) (coarse : bool) (i count : nat)
  (st : MeshBlockData * list nat) : option (MeshBlockData * list nat) :=
  match count with
  | O => Some st
  | S count' =>
      if DoPhysicalBoundary_ (boundary_flag pmesh i) (face_of_int i) (ndim pmesh)
      then
        match MeshBndryFnctn pmesh i with
        | Some bndry => apply_faces pmesh coarse (S i) count'
                          (bndry (fst st) coarse, i :: snd st)
        | None => None
        end
      else apply_faces pmesh coarse (S i) count' st
  end.

(** [TaskStatus ApplyBoundaryConditionsOnCoarseOrFine(rc, coarse)]: the block
    data afterwards, and the faces whose function was called, in the order
    of the calls. *)
Definition ApplyBoundaryConditionsOnCoarseOrFine (pmesh : Mesh)
  (rc : MeshBlockData) (coarse : bool) : option (MeshBlockData * list nat) :=
  match apply_faces pmesh coarse 0 BOUNDARY_NFACES (rc, []) with
  | Some (rc', called) => Some (rc', rev called)
  | None => None
  end.

End Dispatch.

Arguments boundary_flag {MeshBlockData} _ _.
Arguments ndim {MeshBlockData} _.
Arguments MeshBndryFnctn {MeshBlockData} _ _.
Arguments mkMesh {MeshBlockData} _ _ _.

(** ** Boundary conditions: the fill kernels *)

(** The directions [GenericBC] accepts ([static_assert]). *)
Inductive CoordinateDirection : Type := X1DIR | X2DIR | X3DIR.

Inductive BCSide : Type := Inner | Outer.
Inductive BCType : Type := Outflow | Reflect.

(** The domains of an [IndexShape] that the kernels name. *)
Module IndexDomain.

Inductive t : Type :=
| interior
| inner_x1 | inner_x2 | inner_x3
| outer_x1 | outer_x2 | outer_x3.

End IndexDomain.

Record IndexRange : Type := mkIndexRange { s : Z; e : Z }.

(** What [GenericBC] asks of an [IndexShape]: the bounds of a domain in the
    three directions. *)
Record IndexShape : Type := mkIndexShape {
  GetBoundsI : IndexDomain.t -> IndexRange;
  GetBoundsJ : IndexDomain.t -> IndexRange;
  GetBoundsK : IndexDomain.t -> IndexRange
}.

(** The pack of the ghost-fill variables: the cell values, indexed
    [(l, k, j, i)], the vector component of each variable of the pack as the
    [int] that [VectorComponent] returns, and the indices of the allocated
    variables ([AllocatedIndices]). *)
Record VariablePack : Type := mkVariablePack {
  pack_data : Z -> Z -> Z -> Z -> R;
  VectorComponent : Z -> Z;
  alloc_idxs : list Z
}.

(** The block data as the kernels see them: the two index shapes of the
    block and the two packs [PackVariables] gives, for [coarse] false and
    true. *)
Record BlockData : Type := mkBlockData {
  cellbounds : IndexShape;
  c_cellbounds : IndexShape;
  fine_pack : VariablePack;
  coarse_pack : VariablePack
}.

(** [q(l, k, j, i) = v] *)
Definition pack_set (q : Z -> Z -> Z -> Z -> R) (l k j i : Z) (v : R)
  : Z -> Z -> Z -> Z -> R :=
  fun l' k' j' i' =>
    if (l' =? l) && (k' =? k) && (j' =? j) && (i' =? i) then v
    else q l' k' j' i'.

Definition in_range (r : IndexRange) (x : Z) : Prop := s r <= x <= e r.

Section GenericBC.

(** The [int] value of a direction (defs.hpp, not under src/). *)
Variable dir_int : CoordinateDirection -> Z.

(** [par_for_bndry] (meshblock.hpp, not under src/) runs the body once for
    every index [(a, k, j, i)] of the launch, [a] in [nb] and [(k, j, i)] in
    the bounds of the domain, in an order it chooses: the list gives the
    indices in the order of one run. *)
Variable launch_order :
  IndexRange -> IndexRange -> IndexRange -> IndexRange -> list (Z * Z * Z * Z).

Definition X1 (DIR : CoordinateDirection) : bool :=
  match DIR with X1DIR => true | _ => false end.
Definition X2 (DIR : CoordinateDirection) : bool :=
  match DIR with X2DIR => true | _ => false end.
Definition X3 (DIR : CoordinateDirection) : bool :=
  match DIR with X3DIR => true | _ => false end.
Definition INNER (SIDE : BCSide) : bool :=
  match SIDE with Inner => true | Outer => false end.

(** The interior range in the direction of the face. *)
Definition interior_range (DIR : CoordinateDirection) (bounds : IndexShape)
  : IndexRange :=
  if X1 DIR then GetBoundsI bounds IndexDomain.interior
  else if X2 DIR then GetBoundsJ bounds IndexDomain.interior
  else GetBoundsK bounds IndexDomain.interior.

(** [const int ref = INNER ? range.s : range.e] *)
Definition ref_index (SIDE : BCSide) (range : IndexRange) : Z :=
  if INNER SIDE then s range else e range.

(** [constexpr IndexDomain domain = ...] *)
Definition face_domain (DIR : CoordinateDirection) (SIDE : BCSide) : IndexDomain.t :=
  if INNER SIDE
  then (if X1 DIR then IndexDomain.inner_x1
        else if X2 DIR then IndexDomain.inner_x2 else IndexDomain.inner_x3)
  else (if X1 DIR then IndexDomain.outer_x1
        else if X2 DIR then IndexDomain.outer_x2 else IndexDomain.outer_x3).

(** [const int offset = 2 * ref + (INNER ? -1 : 1)] *)
Definition reflect_offset (SIDE : BCSide) (ref : Z) : Z :=
  2 * ref + (if INNER SIDE then -1 else 1).

(** The index a cell of the face reads from, in the three directions. *)
Definition source_index (DIR : CoordinateDirection) (TYPE : BCType)
  (ref offset : Z) (k j i : Z) : Z * Z * Z :=
  match TYPE with
  | Reflect =>
      (if X3 DIR then offset - k else k,
       if X2 DIR then offset - j else j,
       if X1 DIR then offset - i else i)
  | Outflow =>
      (if X3 DIR then ref else k,
       if X2 DIR then ref else j,
       if X1 DIR then ref else i)
  end.

(** The body of the [KOKKOS_LAMBDA], for the variable [l] of the pack. *)
Definition bc_kernel (DIR : CoordinateDirection) (TYPE : BCType)
  (ref offset : Z) (vector_component : Z -> Z)
  (q : Z -> Z -> Z -> Z -> R) (l k j i : Z) : Z -> Z -> Z -> Z -> R :=
  match TYPE with
  | Reflect =>
      let reflect := vector_component l =? dir_int DIR in
      pack_set q l k j i
        (Rmult (if reflect then (-1)%R else 1%R)
           (q l (if X3 DIR then offset - k else k)
                (if X2 DIR then offset - j else j)
                (if X1 DIR then offset - i else i)))
  | Outflow =>
      pack_set q l k j i
        (q l (if X3 DIR then ref else k)
             (if X2 DIR then ref else j)
             (if X1 DIR then ref else i))
  end.

(** [idxs.GetVarIdx(a)] *)
Definition GetVarIdx (idxs : list Z) (a : Z) : Z := nth (Z.to_nat a) idxs 0.

(** The launch: the body run over the indices in the order of the list. *)
Definition run_launch (DIR : CoordinateDirection) (TYPE : BCType)
  (ref offset : Z) (q : VariablePack) (order : list (Z * Z * Z * Z))
  : Z -> Z -> Z -> Z -> R :=
  fold_left
    (fun data '(a, k, j, i) =>
       bc_kernel DIR TYPE ref offset (VectorComponent q) data
         (GetVarIdx (alloc_idxs q) a) k j i)
    order (pack_data q).

(** [template <CoordinateDirection DIR, BCSide SIDE, BCType TYPE>
     void GenericBC(std::shared_ptr<MeshBlockData<Real>> &rc, bool coarse)] *)
Definition GenericBC (DIR : CoordinateDirection) (SIDE : BCSide) (TYPE : BCType)
  (rc : BlockData) (coarse : bool) : BlockData :=
  let bounds := if coarse then c_cellbounds rc else cellbounds rc in
  let range := interior_range DIR bounds in
  let ref := ref_index SIDE range in
  let q := if coarse then coarse_pack rc else fine_pack rc in
  let nb := {| s := 0; e := Z.of_nat (length (alloc_idxs q)) - 1 |} in
  let domain := face_domain DIR SIDE in
  let offset := reflect_offset SIDE ref in
  let data' :=
    run_launch DIR TYPE ref offset q
      (launch_order nb (GetBoundsK bounds domain) (GetBoundsJ bounds domain)
         (GetBoundsI bounds domain)) in
  let q' := {| pack_data := data'; VectorComponent := VectorComponent q;
               alloc_idxs := alloc_idxs q |} in
  if coarse
  then {| cellbounds := cellbounds rc; c_cellbounds := c_cellbounds rc;
          fine_pack := fine_pack rc; coarse_pack := q' |}
  else {| cellbounds := cellbounds rc; c_cellbounds := c_cellbounds rc;
          fine_pack := q'; coarse_pack := coarse_pack rc |}.

(** The named instances. *)
Definition OutflowInnerX1 := GenericBC X1DIR Inner Outflow.
Definition OutflowOuterX1 := GenericBC X1DIR Outer Outflow.
Definition OutflowInnerX2 := GenericBC X2DIR Inner Outflow.
Definition OutflowOuterX2 := GenericBC X2DIR Outer Outflow.
Definition OutflowInnerX3 := GenericBC X3DIR Inner Outflow.
Definition OutflowOuterX3 := GenericBC X3DIR Outer Outflow.
Definition ReflectInnerX1 := GenericBC X1DIR Inner Reflect.
Definition ReflectOuterX1 := GenericBC X1DIR Outer Reflect.
Definition ReflectInnerX2 := GenericBC X2DIR Inner Reflect.
Definition ReflectOuterX2 := GenericBC X2DIR Outer Reflect.
Definition ReflectInnerX3 := GenericBC X3DIR Inner Reflect.
Definition ReflectOuterX3 := GenericBC X3DIR Outer Reflect.

End GenericBC.

(** ** The writer: packing the variables into the staging buffer *)

(** The indices [r.s], ..., [r.e] of a [for] loop over a range. *)
Definition range_list (r : IndexRange) : list Z := seqZ (s r) (e r - s r + 1).

(** [out_ib], [out_jb], [out_kb]: the output bounds of the first block. *)
Record OutputBounds : Type := mkOutputBounds {
  out_ib : IndexRange;
  out_jb : IndexRange;
  out_kb : IndexRange
}.

(** [auto const nx1 = out_ib.e - out_ib.s + 1] and its likes. *)
Definition nx1 (ob : OutputBounds) : Z := e (out_ib ob) - s (out_ib ob) + 1.
Definition nx2 (ob : OutputBounds) : Z := e (out_jb ob) - s (out_jb ob) + 1.
Definition nx3 (ob : OutputBounds) : Z := e (out_kb ob) - s (out_kb ob) + 1.

(** [const hsize_t varSize = nx3 * nx2 * nx1]: the three factors are
    [int], so the product is taken on [int], and its value is converted to
    [hsize_t]. *)
Definition varSize (ob : OutputBounds) : Z :=
  CInt.wrap_hsize (CInt.mul_int (CInt.mul_int (nx3 ob) (nx2 ob)) (nx1 ob)).

(** [std::unordered_map::insert]: a key that is there keeps its value. *)
Definition umap_insert (key : string) (value : nat) (m : gmap string nat)
  : gmap string nat :=
  match m !! key with
  | Some _ => m
  | None => <[key := value]> m
  end.

(** The body of the loop that fills [sparse_names] and [sparse_field_idx]. *)
Definition sparse_field_step (st : list string * gmap string nat)
  (vinfo : VarInfo) : list string * gmap string nat :=
  let '(sparse_names, sparse_field_idx) := st in
  if is_sparse vinfo
  then (sparse_names ++ [label vinfo],
        umap_insert (label vinfo) (length sparse_names) sparse_field_idx)
  else st.

Definition sparse_fields (all_unique_vars : VarSet.t)
  : list string * gmap string nat :=
  foldl sparse_field_step ([], ∅) all_unique_vars.

(** [vlen_max = std::max(vlen_max, vinfo.vlen)] over the set. *)
Definition vlen_max (all_unique_vars : VarSet.t) : Z :=
  foldl (fun m vinfo => Z.max m (vlen vinfo)) 0 all_unique_vars.

(** [std::vector<OutT> tmpData(varSize * vlen_max * num_blocks_local)],
    with [const int num_blocks_local
            = static_cast<int>(pm->block_list.size())]: the number of places
    of the staging buffer. *)
Definition tmpData_size (ob : OutputBounds) (all_unique_vars : VarSet.t)
  (block_list : list MeshBlock) : nat :=
  let num_blocks_local := CInt.wrap_int (Z.of_nat (length block_list)) in
  Z.to_nat (CInt.mul_hsize
              (CInt.mul_hsize (varSize ob) (vlen_max all_unique_vars))
              num_blocks_local).

(** The search of a block's variables for the label, up to the [break]. *)
Fixpoint find_var (var_name : string) (vars : list CellVariable)
  : option CellVariable :=
  match vars with
  | [] => None
  | v :: vars' =>
      if (var_name =? cv_label v)%string then Some v
      else find_var var_name vars'
  end.

Section Writer.

(** [OutT] is [float] or [Real]; [zero] is its value of all-zero bytes and
    [cast] is [static_cast<OutT>]. *)
Variable OutT : Type.
Variable zero : OutT.
Variable cast : R -> OutT.

(** The state of the loop over the local blocks for one variable.
    An entry of [sparse_expanded], which is allocated uninitialised, is
    [None] until it is assigned. A store or a [memset] past the end of
    [tmpData] is undefined in the source; here it stores nothing. Up to
    there [index], an [hsize_t], is below the size of the vector and its
    arithmetic does not wrap: it is a [nat]. *)
Record PackState : Type := mkPackState {
  tmpData : list OutT;
  index : nat;
  found_any : bool;
  sparse_expanded : list (option bool)
}.

(** [for (int l = 0; l < vlen; ++l)
      tmpData[index++] = static_cast<OutT>(v_h(l, k, j, i));] *)
Definition copy_cell (v_h : Z -> Z -> Z -> Z -> R) (vlen k j i : Z)
  (st : list OutT * nat) : list OutT * nat :=
  foldl (fun '(buf, idx) l => (<[idx := cast (v_h l k j i)]> buf, S idx))
    st (seqZ 0 vlen).

(** The loops over [k], [j] and [i] around it. *)
Definition copy_block (ob : OutputBounds) (v_h : Z -> Z -> Z -> Z -> R)
  (vlen : Z) (st : list OutT * nat) : list OutT * nat :=
  foldl (fun st k =>
    foldl (fun st j =>
      foldl (fun st i => copy_cell v_h vlen k j i st)
        st (range_list (out_ib ob)))
      st (range_list (out_jb ob)))
    st (range_list (out_kb ob)).

(** The body of the loop over the local blocks, for the block [pmb] of
    index [b_idx]. *)
Definition pack_block (ob : OutputBounds) (sparse_field_idx : gmap string nat)
  (num_sparse : nat) (vinfo : VarInfo) (b_idx : nat) (pmb : MeshBlock)
  (st : PackState) : result PackState :=
  let var_name := label vinfo in
  let vlen := vlen vinfo in
  let '(buf, idx, found) :=
    match find_var var_name (ci_vars pmb) with
    | Some v =>
        let '(buf, idx) := copy_block ob (cv_data v) vlen (tmpData st, index st) in
        (buf, idx, true)
    | None => (tmpData st, index st, false)
    end in
  expanded ←
    (if is_sparse vinfo
     then match sparse_field_idx !! label vinfo with
          | Some sparse_idx =>
              Ok (<[(b_idx * num_sparse + sparse_idx)%nat := Some found]>
                    (sparse_expanded st))
          | None => Fatal (OutOfRange (label vinfo))
          end
     else Ok (sparse_expanded st));
  if negb found
  then
    if is_sparse vinfo
    then
      let N := Z.to_nat (CInt.mul_hsize (varSize ob) vlen) in
      Ok {| tmpData := list_inserts idx (replicate N zero) buf;
            index := (idx + N)%nat;
            found_any := found_any st;
            sparse_expanded := expanded |}
    else Fatal (DenseMissing var_name)
  else
    Ok {| tmpData := buf; index := idx; found_any := true;
          sparse_expanded := expanded |}.

(** [for (size_t b_idx = 0; b_idx < num_blocks_local; ++b_idx)], from the
    block of index [b_idx] on. *)
Fixpoint pack_blocks (ob : OutputBounds) (sparse_field_idx : gmap string nat)
  (num_sparse : nat) (vinfo : VarInfo) (b_idx : nat)
  (block_list : list MeshBlock) (st : PackState) : result PackState :=
  match block_list with
  | [] => Ok st
  | pmb :: rest =>
      st' ← pack_block ob sparse_field_idx num_sparse vinfo b_idx pmb st;
      pack_blocks ob sparse_field_idx num_sparse vinfo (S b_idx) rest st'
  end.

(** A call of [HDF5WriteND]: the name of the dataset and the buffer. *)
Record WriteCall : Type := mkWriteCall {
  write_name : string;
  write_data : list OutT
}.

(** What the writer holds between two variables: the staging buffer, the
    sparse map and the calls of [HDF5WriteND] made so far, latest first. *)
Record WriterState : Type := mkWriterState {
  ws_tmpData : list OutT;
  ws_sparse_expanded : list (option bool);
  ws_writes : list WriteCall
}.

(** The body of the loop [for (auto &vinfo : all_unique_vars)]. *)
Definition write_variable (ob : OutputBounds) (sparse_field_idx : gmap string nat)
  (num_sparse : nat) (block_list : list MeshBlock) (vinfo : VarInfo)
  (ws : WriterState) : result WriterState :=
  let cleared := replicate (length (ws_tmpData ws)) zero in
  st ← pack_blocks ob sparse_field_idx num_sparse vinfo 0 block_list
         {| tmpData := cleared; index := 0; found_any := false;
            sparse_expanded := ws_sparse_expanded ws |};
  Ok {| ws_tmpData := tmpData st;
        ws_sparse_expanded := sparse_expanded st;
        ws_writes :=
          if found_any st
          then {| write_name := label vinfo; write_data := tmpData st |}
                 :: ws_writes ws
          else ws_writes ws |}.

Fixpoint write_variables (ob : OutputBounds) (sparse_field_idx : gmap string nat)
  (num_sparse : nat) (block_list : list MeshBlock) (vars : list VarInfo)
  (ws : WriterState) : result WriterState :=
  match vars with
  | [] => Ok ws
  | vinfo :: vars' =>
      ws' ← write_variable ob sparse_field_idx num_sparse block_list vinfo ws;
      write_variables ob sparse_field_idx num_sparse block_list vars' ws'
  end.

(** The part of [WriteOutputFileImpl] that writes the variables: the calls of
    [HDF5WriteND] in the order they are made, and the sparse map. *)
Definition write_all_variables (ob : OutputBounds) (all_unique_vars : VarSet.t)
  (block_list : list MeshBlock)
  : result (list WriteCall * list (option bool)) :=
  let '(sparse_names, sparse_field_idx) := sparse_fields all_unique_vars in
  let num_sparse := length sparse_names in
  let num_blocks_local := CInt.wrap_int (Z.of_nat (length block_list)) in
  ws ← write_variables ob sparse_field_idx num_sparse block_list all_unique_vars
         {| ws_tmpData :=
              replicate (tmpData_size ob all_unique_vars block_list) zero;
            ws_sparse_expanded :=
              replicate
                (Z.to_nat (CInt.mul_hsize (Z.of_nat num_sparse) num_blocks_local))
                None;
            ws_writes := [] |};
  Ok (rev (ws_writes ws), ws_sparse_expanded ws).

(** The names of the datasets one rank writes, in a run of several ranks:
    reconciliation, then the packing of the rank's own blocks. *)
Definition datasets_written (ob : OutputBounds)
  (lower : list (list MeshBlock)) (mine : list MeshBlock)
  (higher : list (list MeshBlock)) (slack : list ascii) : result (list string) :=
  all_unique_vars ← reconcile lower mine higher slack;
  '(writes, _) ← write_all_variables ob all_unique_vars mine;
  Ok (map write_name writes).

End Writer.

Arguments tmpData {OutT} _.
Arguments index {OutT} _.
Arguments found_any {OutT} _.
Arguments sparse_expanded {OutT} _.
Arguments mkPackState {OutT} _ _ _ _.
Arguments write_name {OutT} _.
Arguments write_data {OutT} _.
Arguments ws_tmpData {OutT} _.
Arguments ws_sparse_expanded {OutT} _.
Arguments ws_writes {OutT} _.

(** ** Boundary conditions: the prolongation task *)

Section Prolongation.

Variable MeshBlockData : Type.
Variable face_of_int : nat -> BoundaryFace.t.

(** [rc->ProlongateBoundaries()] (meshblock_data.hpp, not under src/). *)
Variable prolongate : MeshBlockData -> MeshBlockData.

(** [TaskStatus ProlongateBoundaries(rc)]: the block data afterwards;
    [multilevel] is [pmy_mesh->multilevel]. *)
Definition ProlongateBoundaries (multilevel : bool) (pmesh : Mesh MeshBlockData)
  (rc : MeshBlockData) : option MeshBlockData :=
  if negb multilevel then Some rc
  else
    match ApplyBoundaryConditionsOnCoarseOrFine MeshBlockData face_of_int
            pmesh rc true with
    | Some (rc', _) => Some (prolongate rc')
    | None => None
    end.

End Prolongation.

(** ** The legacy VTK writer: byte order and cell data *)

(** [inline void Swap4Bytes(void *vdat)], on the bytes that memory holds from
    [vdat] on. A byte read past the end of the list has no defined value;
    it reads as NUL here. *)
Definition Swap4Bytes (dat : list ascii) : list ascii :=
  let tmp := nth 0 dat NUL in
  let dat := <[0%nat := nth 3 dat NUL]> dat in
  let dat := <[3%nat := tmp]> dat in
  let tmp := nth 1 dat NUL in
  let dat := <[1%nat := nth 2 dat NUL]> dat in
  let dat := <[2%nat := tmp]> dat in
  dat.

Section VTK.

(** The bytes of a [std::int32_t] in the memory of the host, lowest address
    first. *)
Variable int32_bytes : Z -> list ascii.

(** The bytes in memory of the [float] that a [Real] converts to. *)
Variable float_bytes : R -> list ascii.

(** [int IsBigEndian()] *)
Definition IsBigEndian : Z :=
  let n := 1 in
  let ep := int32_bytes n in
  if Ascii.eqb (nth 0 ep NUL) NUL then 1 else 0.

(** [for (int i = 0; i < n; ++i) Swap4Bytes(&data[i]);] on the array of
    [float]s, each its four bytes. *)
Definition swap_floats (n : Z) (data : list (list ascii)) : list (list ascii) :=
  foldl (fun data i => <[i := Swap4Bytes (nth i data [])]> data) data
    (seq 0 (Z.to_nat n)).

(** [for (int i = out_is; i <= out_ie; i++, index++)
      data[(i - out_is) + index] = v(k, j, i);] with [int index = 0], where
    [v(k, j, i)] is the value of the variable the iterator points to. *)
Definition fill_row (v : Z -> Z -> Z -> R) (out_is out_ie k j : Z)
  (data : list (list ascii)) : list (list ascii) :=
  fst (foldl (fun '(data, index) i =>
                (<[Z.to_nat ((i - out_is) + index) := float_bytes (v k j i)]> data,
                 index + 1))
         (data, 0) (seqZ out_is (out_ie - out_is + 1))).

(** The body of the loop over [j]: the row is filled, made big-endian, and
    its first [ncells1] values are written. The state is the array with
    the rows written so far, latest first. *)
Definition write_row (v : Z -> Z -> Z -> R) (big_end : Z)
  (out_is out_ie k j : Z) (st : list (list ascii) * list (list (list ascii)))
  : list (list ascii) * list (list (list ascii)) :=
  let ncells1 := out_ie - out_is + 1 in
  let data := fill_row v out_is out_ie k j (fst st) in
  let data := if big_end =? 0 then swap_floats ncells1 data else data in
  (data, take (Z.to_nat ncells1) data :: snd st).

(** The cell data of one variable of a block: the loops over [k] and [j] of
    [VTKOutput::WriteContainer]. The result is the array afterwards and the
    rows handed to [fwrite], in the order of the calls. *)
Definition write_cell_data (v : Z -> Z -> Z -> R) (big_end : Z)
  (out_is out_ie out_js out_je out_ks out_ke : Z) (data : list (list ascii))
  : list (list ascii) * list (list (list ascii)) :=
  let '(data, rows) :=
    foldl (fun st k =>
             foldl (fun st j => write_row v big_end out_is out_ie k j st)
               st (seqZ out_js (out_je - out_js + 1)))
      (data, []) (seqZ out_ks (out_ke - out_ks + 1)) in
  (data, rev rows).

End VTK.

(** ** The state descriptor: the registry of fields *)

(** The failures of the two [PARTHENON_REQUIRE] of [AddField]. *)
Inductive AddFieldError : Type :=
| UniqueExists (field_name : string)
    (* "Field <field_name> add with DerivedOwnership::unique already exists" *)
| DifferentMetadata (field_name : string)
    (* "Field <field_name> already exists with different metadata" *).

Section StateDescriptor.

(** [Metadata] and [DerivedOwnership] are declared outside src/: what
    [AddField] asks of them is [m.IsSet(Metadata::Sparse)],
    [m.getAssociated()], [m.Associate(name)], [mprev == m] and
    [owner == DerivedOwnership::unique]. *)
Variable Metadata : Type.
Variable IsSet_Sparse : Metadata -> bool.
Variable getAssociated : Metadata -> string.
Variable Associate : string -> Metadata -> Metadata.
Variable Metadata_eq : Metadata -> Metadata -> bool.
Variable DerivedOwnership : Type.
Variable is_unique : DerivedOwnership -> bool.

Record StateDescriptor : Type := mkStateDescriptor {
  sparseMetadataMap_ : gmap string (list Metadata);
  metadataMap_ : gmap string Metadata
}.

(** [bool StateDescriptor::AddField(const std::string &field_name,
    Metadata &m, DerivedOwnership owner)]: the value returned, the metadata
    [m] as the caller finds them afterwards, and the descriptor. *)
Definition AddField (field_name : string) (m : Metadata)
  (owner : DerivedOwnership) (sd : StateDescriptor)
  : AddFieldError + (bool * Metadata * StateDescriptor) :=
  if IsSet_Sparse m
  then
    let sparse' :=
      match sparseMetadataMap_ sd !! field_name with
      | Some ms => <[field_name := ms ++ [m]]> (sparseMetadataMap_ sd)
      | None => <[field_name := [m]]> (sparseMetadataMap_ sd)
      end in
    inr (true, m, {| sparseMetadataMap_ := sparse';
                     metadataMap_ := metadataMap_ sd |})
  else
    let assoc := getAssociated m in
    let m := if (String.length assoc =? 0)%nat then Associate field_name m else m in
    match metadataMap_ sd !! field_name with
    | Some mprev =>
        if is_unique owner then inl (UniqueExists field_name)
        else if negb (Metadata_eq mprev m) then inl (DifferentMetadata field_name)
        else inr (false, m, sd)
    | None =>
        inr (true, Associate "" m,
             {| sparseMetadataMap_ := sparseMetadataMap_ sd;
                metadataMap_ := <[field_name := m]> (metadataMap_ sd) |})
    end.

End StateDescriptor.

Arguments sparseMetadataMap_ {Metadata} _.
Arguments metadataMap_ {Metadata} _.
Arguments mkStateDescriptor {Metadata} _ _.

(** ** The writer: block metadata and coordinates *)

(** What the restart metadata and the coordinate datasets read of a block:
    [coords.GetXmin()], the face coordinates [coords.x1f(k, j, i)],
    [coords.x2f(k, j, i)] and [coords.x3f(k, j, i)], the logical location
    [loc] and the identifiers. *)
Record BlockInfo : Type := mkBlockInfo {
  coords_GetXmin : nat -> R;
  coords_x1f : Z -> Z -> Z -> R;
  coords_x2f : Z -> Z -> Z -> R;
  coords_x3f : Z -> Z -> Z -> R;
  loc_lx1 : Z;
  loc_lx2 : Z;
  loc_lx3 : Z;
  loc_level : Z;
  gid : Z;
  lid : Z;
  cnghost : Z;
  gflag : Z
}.

(** [tmp[i++] = x] *)
Definition push {A : Type} (x : A) (st : list A * nat) : list A * nat :=
  (<[snd st := x]> (fst st), S (snd st)).

(** The buffer of the dataset "xmin": [std::vector<Real>
    tmpData(num_blocks_local * 3)], filled block after block with the first
    [ndim] components of [xmin]; the rows of the dataset have [ndim]
    values ([local_count[1] = global_count[1] = pm->ndim]). *)
Definition xmin_data (ndim : Z) (block_list : list BlockInfo) : list R :=
  fst (foldl (fun st pmb =>
                let xmin := coords_GetXmin pmb in
                let st := push (xmin 0%nat) st in
                let st := if ndim >? 1 then push (xmin 1%nat) st else st in
                let st := if ndim >? 2 then push (xmin 2%nat) st else st in
                st)
         (replicate (length block_list * 3) 0%R, 0%nat) block_list).

(** The buffer of the dataset "loc.lx123", of rows of three values. *)
Definition loc_data (block_list : list BlockInfo) : list Z :=
  fst (foldl (fun st pmb =>
                let st := push (loc_lx1 pmb) st in
                let st := push (loc_lx2 pmb) st in
                let st := push (loc_lx3 pmb) st in
                st)
         (replicate (length block_list * 3) 0, 0%nat) block_list).

(** The buffer of the dataset "loc.level-gid-lid-cnghost-gflag", of rows of
    five values. *)
Definition id_data (block_list : list BlockInfo) : list Z :=
  fst (foldl (fun st pmb =>
                let st := push (loc_level pmb) st in
                let st := push (gid pmb) st in
                let st := push (lid pmb) st in
                let st := push (cnghost pmb) st in
                let st := push (gflag pmb) st in
                st)
         (replicate (length block_list * 5) 0, 0%nat) block_list).

(** The indices of the faces of a range: [for (int i = r.s; i <= r.e + 1; ++i)]. *)
Definition faces (r : IndexRange) : list Z := seqZ (s r) (e r + 1 - s r + 1).

(** The buffers [loc_x], [loc_y] and [loc_z] of the datasets "x", "y" and
    "z" of the group "/Locations", of rows of [nx1 + 1], [nx2 + 1] and
    [nx3 + 1] values. *)
Definition locations (ob : OutputBounds) (block_list : list BlockInfo)
  : list R * list R * list R :=
  let num_blocks_local := Z.of_nat (length block_list) in
  let '(x, y, z) :=
    foldl (fun '(x, y, z) pmb =>
             (foldl (fun st i => push (coords_x1f pmb 0 0 i) st) x
                (faces (out_ib ob)),
              foldl (fun st j => push (coords_x2f pmb 0 j 0) st) y
                (faces (out_jb ob)),
              foldl (fun st k => push (coords_x3f pmb k 0 0) st) z
                (faces (out_kb ob))))
      ((replicate (Z.to_nat ((nx1 ob + 1) * num_blocks_local)) 0%R, 0%nat),
       (replicate (Z.to_nat ((nx2 ob + 1) * num_blocks_local)) 0%R, 0%nat),
       (replicate (Z.to_nat ((nx3 ob + 1) * num_blocks_local)) 0%R, 0%nat))
      block_list in
  (fst x, fst y, fst z).

(** ** File names *)

(** The character of a decimal digit. *)
Definition digit (d : Z) : ascii := ascii_of_nat (48 + Z.to_nat d).

(** The decimal digits of a number that is not negative, the most
    significant first; [fuel] bounds the number of digits. *)
Fixpoint digits (fuel : nat) (n : Z) : list ascii :=
  match fuel with
  | O => []
  | S fuel' =>
      if n <? 10 then [digit n]
      else digits fuel' (n / 10) ++ [digit (n mod 10)]
  end.

(** The characters of an [int] as [operator<<] and the conversion [%d]
    write it. *)
Definition to_chars (n : Z) : list ascii :=
  if n <? 0 then "-"%char :: digits (S (Z.to_nat (- n))) (- n)
  else digits (S (Z.to_nat n)) n.

(** [std::setw(w) << std::setfill(fill)]: the output is filled on the left
    up to the width. *)
Definition setw_setfill (w : nat) (fill : ascii) (chars : list ascii)
  : list ascii :=
  replicate (w - length chars) fill ++ chars.

(** The conversion [%05d]: zeros between the sign and the digits up to the
    width 5. *)
Definition printf_05d (n : Z) : list ascii :=
  if n <? 0
  then "-"%char :: setw_setfill 4 "0" (digits (S (Z.to_nat (- n))) (- n))
  else setw_setfill 5 "0" (digits (S (Z.to_nat n)) n).

(** [std::snprintf(buf, size, ...)]: the buffer receives at most [size - 1]
    characters of the formatted text. *)
Definition snprintf (size : nat) (formatted : list ascii) : string :=
  string_of_list_ascii (take (size - 1) formatted).

(** The name of the HDF5 file:
    [file_basename.file_id.NNNNN.rhdf] or [.phdf]. *)
Definition hdf5_filename (file_basename file_id : string) (file_number : Z)
  (restart_ : bool) : string :=
  let filename := file_basename in
  let filename := (filename ++ ".")%string in
  let filename := (filename ++ file_id)%string in
  let filename := (filename ++ ".")%string in
  let file_number :=
    string_of_list_ascii (setw_setfill 5 "0" (to_chars file_number)) in
  let filename := (filename ++ file_number)%string in
  (filename ++ (if restart_ then ".rhdf" else ".phdf"))%string.

(** The name of the VTK file of a block:
    [file_basename.N.block<gid>.file_id.NNNNN.vtk], with [char number[6]]
    and [char blockid[12]]. *)
Definition vtk_filename (file_basename file_id : string) (file_number gid : Z)
  : string :=
  let number := snprintf 6 (printf_05d file_number) in
  let blockid := snprintf 12 (list_ascii_of_string "block" ++ to_chars gid) in
  let fname := file_basename in
  let fname := (fname ++ ".N.")%string in
  let fname := (fname ++ blockid)%string in
  let fname := (fname ++ ".")%string in
  let fname := (fname ++ file_id)%string in
  let fname := (fname ++ ".")%string in
  let fname := (fname ++ number)%string in
  (fname ++ ".vtk")%string.

(** ** Reconciliation across ranks: the layout of the gathered buffers *)

(** [buffer_lengths] after the [MPI_Allgather]: for every rank the length of
    its label buffer and of its code buffer, each cast to [int]. *)
Definition buffer_lengths (locals : list VarSet.t) : list Z :=
  s ← locals;
  [CInt.wrap_int (Z.of_nat (length (label_buffer s)));
   CInt.wrap_int (Z.of_nat (length (code_buffer s)))].

(** The state of the loop that computes the lengths and the offsets. *)
Record GatherLayout : Type := mkGatherLayout {
  label_lengths : list Z;
  label_offsets : list Z;
  code_lengths : list Z;
  code_offsets : list Z;
  label_offset : Z;
  code_offset : Z
}.

(** The body of [for (int n = 0; n < Globals::nranks; ++n)]. *)
Definition layout_step (lengths : list Z) (st : GatherLayout) (n : nat)
  : GatherLayout :=
  let label_offsets' := <[n := label_offset st]> (label_offsets st) in
  let code_offsets' := <[n := code_offset st]> (code_offsets st) in
  let label_lengths' := <[n := nth (n * 2 + 0) lengths 0]> (label_lengths st) in
  let code_lengths' := <[n := nth (n * 2 + 1) lengths 0]> (code_lengths st) in
  {| label_lengths := label_lengths';
     label_offsets := label_offsets';
     code_lengths := code_lengths';
     code_offsets := code_offsets';
     label_offset := CInt.add_int (label_offset st) (nth n label_lengths' 0);
     code_offset := CInt.add_int (code_offset st) (nth n code_lengths' 0) |}.

Definition gather_layout (nranks : nat) (lengths : list Z) : GatherLayout :=
  foldl (layout_step lengths)
    {| label_lengths := replicate nranks 0;
       label_offsets := replicate nranks 0;
       code_lengths := replicate nranks 0;
       code_offsets := replicate nranks 0;
       label_offset := 0;
       code_offset := 0 |}
    (seq 0 nranks).

(** [MPI_Allgatherv] in place: the receive buffer gets, for every rank, the
    [recvcounts] first elements of what the rank sends, at the displacement
    [displs] of the rank. The rank's own part, which the [memcpy] before
    the call has put there, is what it sends. *)
Definition Allgatherv {A : Type} (sendbufs : list (list A))
  (recvcounts displs : list Z) (recvbuf : list A) : list A :=
  foldl (fun buf r =>
           list_inserts (Z.to_nat (nth r displs 0))
             (take (Z.to_nat (nth r recvcounts 0)) (nth r sendbufs [])) buf)
    recvbuf (seq 0 (length sendbufs)).

(** [all_labels_buffer] and [all_codes] as the code builds them: allocated
    with the total lengths, and gathered. *)
Definition gathered_labels (locals : list VarSet.t) : list ascii :=
  let lay := gather_layout (length locals) (buffer_lengths locals) in
  Allgatherv (map label_buffer locals) (label_lengths lay) (label_offsets lay)
    (replicate (Z.to_nat (label_offset lay)) NUL).

Definition gathered_codes (locals : list VarSet.t) : list Z :=
  let lay := gather_layout (length locals) (buffer_lengths locals) in
  Allgatherv (map code_buffer locals) (code_lengths lay) (code_offsets lay)
    (replicate (Z.to_nat (code_offset lay)) 0).
(** ** The legacy VTK writer: bounds and sizes *)

(** The output bounds of a block, its numbers of cells and of coordinates
    along the three directions, and the number [ndata] from which the array
    [data] is sized. *)
Record VTKSizes : Type := mkVTKSizes {
  vtk_is : Z; vtk_ie : Z; vtk_js : Z; vtk_je : Z; vtk_ks : Z; vtk_ke : Z;
  ncells1 : Z; ncells2 : Z; ncells3 : Z;
  ncoord1 : Z; ncoord2 : Z; ncoord3 : Z;
  ndata : Z
}.

(** [int ncoord = ncells; if (ncells > 1) ncoord++;] *)
Definition ncoord_of (ncells : Z) : Z := if ncells >? 1 then ncells + 1 else ncells.

(** The start of the loop over the blocks of [VTKOutput::WriteContainer], for
    a block of bounds [pmb->is], ..., [pmb->ke]. *)
Definition vtk_sizes (include_ghost_zones : bool) (NGHOST : Z)
  (pmb_is pmb_ie pmb_js pmb_je pmb_ks pmb_ke : Z) : VTKSizes :=
  let out_is := pmb_is in
  let out_ie := pmb_ie in
  let out_js := pmb_js in
  let out_je := pmb_je in
  let out_ks := pmb_ks in
  let out_ke := pmb_ke in
  let '(out_is, out_ie, out_js, out_je, out_ks, out_ke) :=
    if include_ghost_zones
    then
      let out_is := out_is - NGHOST in
      let out_ie := out_ie + NGHOST in
      let '(out_js, out_je) :=
        if negb (out_js =? out_je) then (out_js - NGHOST, out_je + NGHOST)
        else (out_js, out_je) in
      let '(out_ks, out_ke) :=
        if negb (out_ks =? out_ke) then (out_ks - NGHOST, out_ke + NGHOST)
        else (out_ks, out_ke) in
      (out_is, out_ie, out_js, out_je, out_ks, out_ke)
    else (out_is, out_ie, out_js, out_je, out_ks, out_ke) in
  let ncells1 := out_ie - out_is + 1 in
  let ncells2 := out_je - out_js + 1 in
  let ncells3 := out_ke - out_ks + 1 in
  let ncoord1 := ncoord_of ncells1 in
  let ncoord2 := ncoord_of ncells2 in
  let ncoord3 := ncoord_of ncells3 in
  let ndata := Z.max ncoord1 ncoord2 in
  let ndata := Z.max ndata ncoord3 in
  {| vtk_is := out_is; vtk_ie := out_ie; vtk_js := out_js; vtk_je := out_je;
     vtk_ks := out_ks; vtk_ke := out_ke;
     ncells1 := ncells1; ncells2 := ncells2; ncells3 := ncells3;
     ncoord1 := ncoord1; ncoord2 := ncoord2; ncoord3 := ncoord3;
     ndata := ndata |}.

(** [data = new float[3 * ndata + 1]] *)
Definition vtk_data_size (sz : VTKSizes) : Z := 3 * ndata sz + 1.

(** ** Vocabulary of the statements about the set *)

(** The order [std::string::operator<] decides. *)
Definition lbl_lt (a b : string) : Prop := (a <? b)%string = true.

(** The sequence of a [std::set<VarInfo>] is strictly increasing in the
    labels. *)
Definition sorted (s : VarSet.t) : Prop := StronglySorted lbl_lt (VarSet.labels s).

(** No element of [s] with the label of [x] has another length. *)
Definition compat (x : VarInfo) (s : VarSet.t) : Prop :=
  forall e, In e s -> label e = label x -> vlen e = vlen x.

(** ** Vocabulary of the statements about the label buffer *)

(** A label the buffer can carry: not empty, and free of the separator and
    of the NUL byte. *)
Definition good_label (l : string) : Prop :=
  l <> EmptyString /\
  ~ In tab (list_ascii_of_string l) /\
  ~ In NUL (list_ascii_of_string l).

(** Labels laid out one after the other, each followed by a tab. *)
Fixpoint pack_labels (ls : list string) : list ascii :=
  match ls with
  | [] => []
  | l :: ls' => (list_ascii_of_string l ++ [tab]) ++ pack_labels ls'
  end.

(** The C string that starts at the head of [mem]: the bytes before the
    first NUL. This is the content [strchr] searches. *)
Fixpoint c_str (mem : list ascii) : list ascii :=
  match mem with
  | [] => []
  | x :: mem' => if Ascii.eqb x NUL then [] else x :: c_str mem'
  end.

(** The two buffers of the parsing examples. *)
Definition alpha_beta : list ascii :=
  list_ascii_of_string "alpha" ++ [tab] ++ list_ascii_of_string "beta" ++ [tab].

Definition alpha_empty_beta : list ascii :=
  list_ascii_of_string "alpha" ++ [tab] ++ [tab]
    ++ list_ascii_of_string "beta" ++ [tab].

(** ** Vocabulary of the statements about reconciliation *)

(** The variables the output selects on all blocks of all ranks. *)
Definition world_vars (ranks : list (list MeshBlock)) : list CellVariable :=
  flat_map ci_vars (concat ranks).

Definition world_labels (ranks : list (list MeshBlock)) : list string :=
  map cv_label (world_vars ranks).

(** The descriptor the constructor builds from a variable of valid length. *)
Definition info_of (v : CellVariable) : VarInfo :=
  {| label := cv_label v; vlen := cv_dim4 v;
     is_sparse := cv_IsSparse v; is_vector := cv_IsVector v |}.

(** Variables that reconciliation accepts: labels that the label buffer can
    carry, lengths in the range of the info code, and one length per
    label. *)
Definition well_formed_vars (vars : list CellVariable) : Prop :=
  (forall v, In v vars -> good_label (cv_label v) /\ 1 <= cv_dim4 v <= 65535)
  /\ (forall v w, In v vars -> In w vars ->
        cv_label v = cv_label w -> cv_dim4 v = cv_dim4 w).

Definition well_formed (ranks : list (list MeshBlock)) : Prop :=
  well_formed_vars (world_vars ranks).

(** A set built from the variables [vars]: increasing in the labels, every
    element the descriptor of one of the variables. *)
Definition set_of (vars : list CellVariable) (s : VarSet.t) : Prop :=
  sorted s /\ forall e, In e s -> exists v, In v vars /\ e = info_of v.

(** The ranks of the ordering example: "b" dense of length 2 and "a" sparse
    of length 1 on one rank, "c" dense of length 1 on the other. *)
Definition example_var (lbl : string) (n : Z) (sparse : bool) : CellVariable :=
  {| cv_label := lbl; cv_dim4 := n; cv_IsSparse := sparse;
     cv_IsVector := false; cv_data := fun _ _ _ _ => 0%R |}.

Definition rank_b_a : list MeshBlock :=
  [ {| ci_vars := [example_var "b" 2 false; example_var "a" 1 true] |} ].

Definition rank_c : list MeshBlock :=
  [ {| ci_vars := [example_var "c" 1 false] |} ].

(** ** Vocabulary of the statements about offsets and dispatch *)

(** The sum of block counts, in unbounded arithmetic. *)
Definition sum_counts (counts : list Z) : Z := fold_right Z.add 0 counts.

(** A flag that stands for a physical boundary. *)
Definition physical_flag (flag : BoundaryFlag.t) : Prop :=
  flag <> BoundaryFlag.block /\ flag <> BoundaryFlag.periodic
  /\ flag <> BoundaryFlag.undef.

(** A face that exists in a mesh of [ndim] dimensions. *)
Definition dimensionally_valid (face : BoundaryFace.t) (ndim : Z) : Prop :=
  (face = BoundaryFace.inner_x3 \/ face = BoundaryFace.outer_x3 -> 3 <= ndim)
  /\ (face = BoundaryFace.inner_x2 \/ face = BoundaryFace.outer_x2 -> 2 <= ndim).

(** ** Vocabulary of the statements about the fill kernels *)

(** The index of a cell in the direction of the face. *)
Definition dir_index (DIR : CoordinateDirection) (k j i : Z) : Z :=
  match DIR with X1DIR => i | X2DIR => j | X3DIR => k end.

(** The bounds of a domain in the direction of the face. *)
Definition dir_bounds (DIR : CoordinateDirection) (bounds : IndexShape)
  (domain : IndexDomain.t) : IndexRange :=
  match DIR with
  | X1DIR => GetBoundsI bounds domain
  | X2DIR => GetBoundsJ bounds domain
  | X3DIR => GetBoundsK bounds domain
  end.

(** The cell [(k, j, i)] with its index in the direction of the face
    replaced by [idx]. *)
Definition with_dir_index (DIR : CoordinateDirection) (idx : Z) (k j i : Z)
  : Z * Z * Z :=
  match DIR with
  | X1DIR => (k, j, idx)
  | X2DIR => (k, idx, i)
  | X3DIR => (idx, j, i)
  end.

(** An index outside the interior range, on the side of the face. *)
Definition ghost_index (SIDE : BCSide) (range : IndexRange) (idx : Z) : Prop :=
  match SIDE with
  | Inner => idx < s range
  | Outer => e range < idx
  end.

(** The ghost region of the face lies outside the interior range: its
    bounds in the direction of the face are below the interior range for an
    inner face and above it for an outer face. *)
Definition ghost_region (DIR : CoordinateDirection) (SIDE : BCSide)
  (bounds : IndexShape) : Prop :=
  let range := interior_range DIR bounds in
  let ghost := dir_bounds DIR bounds (face_domain DIR SIDE) in
  match SIDE with
  | Inner => e ghost < s range
  | Outer => e range < s ghost
  end.

(** The domain of the ghost cells of the face of direction [DIR] on the
    side [SIDE]. *)
Definition ghost_domain (DIR : CoordinateDirection) (SIDE : BCSide)
  : IndexDomain.t :=
  match DIR, SIDE with
  | X1DIR, Inner => IndexDomain.inner_x1
  | X1DIR, Outer => IndexDomain.outer_x1
  | X2DIR, Inner => IndexDomain.inner_x2
  | X2DIR, Outer => IndexDomain.outer_x2
  | X3DIR, Inner => IndexDomain.inner_x3
  | X3DIR, Outer => IndexDomain.outer_x3
  end.

(** The interior range of the block along a direction. *)
Definition interior_along (DIR : CoordinateDirection) (bounds : IndexShape)
  : IndexRange :=
  dir_bounds DIR bounds IndexDomain.interior.

(** The ghost cells of the face lie outside the interior range along the
    direction of the face: below it for the inner side, above it for the
    outer side. *)
Definition ghost_outside (DIR : CoordinateDirection) (SIDE : BCSide)
  (bounds : IndexShape) : Prop :=
  let range := interior_along DIR bounds in
  let ghost := dir_bounds DIR bounds (ghost_domain DIR SIDE) in
  match SIDE with
  | Inner => e ghost < s range
  | Outer => e range < s ghost
  end.

(** [par_for_bndry] visits the indices of the launch and no others. *)
Definition visits_launch
  (launch_order : IndexRange -> IndexRange -> IndexRange -> IndexRange
                  -> list (Z * Z * Z * Z)) : Prop :=
  forall nb kb jb ib a k j i,
    In (a, k, j, i) (launch_order nb kb jb ib)
    <-> in_range nb a /\ in_range kb k /\ in_range jb j /\ in_range ib i.

(** The pack [GenericBC] works on. *)
Definition pack_of (rc : BlockData) (coarse : bool) : VariablePack :=
  if coarse then coarse_pack rc else fine_pack rc.

Definition bounds_of (rc : BlockData) (coarse : bool) : IndexShape :=
  if coarse then c_cellbounds rc else cellbounds rc.

(** The launch order of a sequential run: the loops over [a], [k], [j] and
    [i] nested in this order. *)
Definition nested_order (nb kb jb ib : IndexRange) : list (Z * Z * Z * Z) :=
  a ← range_list nb; k ← range_list kb; j ← range_list jb;
  i ← range_list ib; [(a, k, j, i)].

(** The value the kernel gives the cell [(l, k, j, i)], read from [data]. *)
Definition fill_value (dir_int : CoordinateDirection -> Z)
  (DIR : CoordinateDirection) (TYPE : BCType)
  (ref offset : Z) (vector_component : Z -> Z)
  (data : Z -> Z -> Z -> Z -> R) (l k j i : Z) : R :=
  let '(k', j', i') := source_index DIR TYPE ref offset k j i in
  match TYPE with
  | Reflect => if vector_component l =? dir_int DIR
               then (- data l k' j' i')%R else data l k' j' i'
  | Outflow => data l k' j' i'
  end.

(** A numbering of the faces, and a two-dimensional mesh with a reflecting
    flag on all six faces. *)
Definition example_face_of_int (f : nat) : BoundaryFace.t :=
  nth f [BoundaryFace.inner_x1; BoundaryFace.outer_x1;
         BoundaryFace.inner_x2; BoundaryFace.outer_x2;
         BoundaryFace.inner_x3; BoundaryFace.outer_x3] BoundaryFace.undef.

Definition dispatch_example_mesh : Mesh unit :=
  mkMesh (fun _ => BoundaryFlag.reflect) 2 (fun _ => Some (fun rc _ => rc)).

(** The same mesh with boundary functions that record their call: the
    function of the face [f] appends [f] to the block data. *)
Definition recording_mesh : Mesh (list nat) :=
  mkMesh (fun _ => BoundaryFlag.reflect) 2
    (fun f => Some (fun rc _ => rc ++ [f])).

(** A block with one ghost-fill variable, the component of a vector along
    x1, interior cells 4 to 10 along x1 and ghost cells 0 to 3 below them;
    the cell of index [i] holds the value [i]. *)
Definition example_shape : IndexShape :=
  {| GetBoundsI := fun d =>
       match d with
       | IndexDomain.inner_x1 => {| s := 0; e := 3 |}
       | IndexDomain.outer_x1 => {| s := 11; e := 14 |}
       | _ => {| s := 4; e := 10 |}
       end;
     GetBoundsJ := fun _ => {| s := 0; e := 0 |};
     GetBoundsK := fun _ => {| s := 0; e := 0 |} |}.

Definition example_pack : VariablePack :=
  {| pack_data := fun _ _ _ i => IZR i;
     VectorComponent := fun _ => 1;
     alloc_idxs := [0] |}.

Definition example_block : BlockData :=
  {| cellbounds := example_shape; c_cellbounds := example_shape;
     fine_pack := example_pack; coarse_pack := example_pack |}.

Definition example_dir_int (DIR : CoordinateDirection) : Z :=
  match DIR with X1DIR => 1 | X2DIR => 2 | X3DIR => 3 end.

(** A block with ghost cells on its six faces: interior cells 4 to 10 along
    x1, 2 to 5 along x2 and 3 to 8 along x3, and one ghost-fill variable,
    the component of a vector along x2; the cell [(k, j, i)] holds the value
    [10000 * k + 100 * j + i]. *)
Definition example_shape3 : IndexShape :=
  {| GetBoundsI := fun d =>
       match d with
       | IndexDomain.inner_x1 => {| s := 0; e := 3 |}
       | IndexDomain.outer_x1 => {| s := 11; e := 14 |}
       | _ => {| s := 4; e := 10 |}
       end;
     GetBoundsJ := fun d =>
       match d with
       | IndexDomain.inner_x2 => {| s := 0; e := 1 |}
       | IndexDomain.outer_x2 => {| s := 6; e := 7 |}
       | _ => {| s := 2; e := 5 |}
       end;
     GetBoundsK := fun d =>
       match d with
       | IndexDomain.inner_x3 => {| s := 0; e := 2 |}
       | IndexDomain.outer_x3 => {| s := 9; e := 11 |}
       | _ => {| s := 3; e := 8 |}
       end |}.

Definition example_pack3 : VariablePack :=
  {| pack_data := fun _ k j i => IZR (10000 * k + 100 * j + i);
     VectorComponent := fun _ => 2;
     alloc_idxs := [0] |}.

Definition example_block3 : BlockData :=
  {| cellbounds := example_shape3; c_cellbounds := example_shape3;
     fine_pack := example_pack3; coarse_pack := example_pack3 |}.

(** ** Vocabulary of the statements about the packing *)

(** The search of the writer finds a variable of this label on the
    block. *)
Definition has_var (var_name : string) (pmb : MeshBlock) : bool :=
  match find_var var_name (ci_vars pmb) with
  | Some _ => true
  | None => false
  end.

(** The block holds a variable of this label: the label is that of one of
    the variables of the block. *)
Definition block_has (var_name : string) (pmb : MeshBlock) : bool :=
  existsb (fun v => (cv_label v =? var_name)%string) (ci_vars pmb).

(** [v] is the first variable of the block that has this label. *)
Definition first_var (var_name : string) (pmb : MeshBlock) (v : CellVariable)
  : Prop :=
  exists before after,
    ci_vars pmb = before ++ v :: after
    /\ cv_label v = var_name
    /\ forall w, In w before -> cv_label w <> var_name.

(** The number of cells of a block within the output bounds, and the number
    of values of one block for a variable of length [vlen], in unbounded
    arithmetic. *)
Definition ncells (ob : OutputBounds) : Z := nx3 ob * nx2 ob * nx1 ob.

Definition block_size (ob : OutputBounds) (vlen : Z) : nat :=
  Z.to_nat (ncells ob * vlen).

(** The values of a variable on a block in the order the copy loops store
    them: [k] outermost, then [j], then [i], the component innermost. *)
Definition block_values {OutT : Type} (cast : R -> OutT) (ob : OutputBounds)
  (v_h : Z -> Z -> Z -> Z -> R) (vlen : Z) : list OutT :=
  k ← range_list (out_kb ob); j ← range_list (out_jb ob);
  i ← range_list (out_ib ob); l ← seqZ 0 vlen; [cast (v_h l k j i)].

(** What the step of a block stores from the index on: the values of the
    variable the search finds, or the zeros of the [memset]. *)
Definition block_data {OutT : Type} (zero : OutT) (cast : R -> OutT)
  (ob : OutputBounds) (vinfo : VarInfo) (pmb : MeshBlock) : list OutT :=
  match find_var (label vinfo) (ci_vars pmb) with
  | Some v => block_values cast ob (cv_data v) (vlen vinfo)
  | None =>
      replicate (Z.to_nat (CInt.mul_hsize (varSize ob) (vlen vinfo))) zero
  end.

(** Output bounds that hold no negative extent. *)
Definition valid_bounds (ob : OutputBounds) : Prop :=
  0 <= nx1 ob /\ 0 <= nx2 ob /\ 0 <= nx3 ob.

(** The number of cells of a block fits an [int], so that [varSize] is the
    number of cells. *)
Definition cells_fit (ob : OutputBounds) : Prop := ncells ob <= CInt.int_max.

(** The lengths of the variables are those of non-negative [int]s. *)
Definition int_lengths (vars : list VarInfo) : Prop :=
  forall v, In v vars -> 0 <= vlen v <= CInt.int_max.

(** Storing values one after the other from an index on. *)
Definition store {OutT : Type} (vals : list OutT) (st : list OutT * nat)
  : list OutT * nat :=
  (list_inserts (snd st) vals (fst st), (length vals + snd st)%nat).

(** The sparse map after the packing of one variable over the blocks from
    [b_idx] on: the entry of every block in the column of the variable says
    whether the block holds the variable. *)
Fixpoint mark_blocks (num_sparse sparse_idx : nat) (var_name : string)
  (b_idx : nat) (block_list : list MeshBlock) (expanded : list (option bool))
  : list (option bool) :=
  match block_list with
  | [] => expanded
  | pmb :: rest =>
      mark_blocks num_sparse sparse_idx var_name (S b_idx) rest
        (<[(b_idx * num_sparse + sparse_idx)%nat := Some (has_var var_name pmb)]>
           expanded)
  end.

(** The variable is found on some block of the list. *)
Definition found_on (block_list : list MeshBlock) (vinfo : VarInfo) : bool :=
  existsb (has_var (label vinfo)) block_list.

(** Some block of the list holds a variable of the label of [vinfo]. *)
Definition held_on (block_list : list MeshBlock) (vinfo : VarInfo) : bool :=
  existsb (block_has (label vinfo)) block_list.

(** The variable is dense and some block of the list holds no variable of
    its label. *)
Definition lacks_dense (block_list : list MeshBlock) (vinfo : VarInfo) : Prop :=
  is_sparse vinfo = false
  /\ exists pmb, In pmb block_list /\ block_has (label vinfo) pmb = false.

(** The size of the staging buffer that holds, for every local block, the
    values of the longest variable of the set, in unbounded arithmetic. *)
Definition staging_size (ob : OutputBounds) (all_unique_vars : VarSet.t)
  (num_blocks_local : nat) : nat :=
  Z.to_nat (ncells ob * vlen_max all_unique_vars * Z.of_nat num_blocks_local).

(** The sizes the writer computes are exact: the number of cells of a block
    and the number of local blocks fit an [int], and the size of the
    staging buffer fits an [hsize_t]. *)
Definition sizes_fit (ob : OutputBounds) (all_unique_vars : VarSet.t)
  (num_blocks_local : nat) : Prop :=
  cells_fit ob
  /\ Z.of_nat num_blocks_local <= CInt.int_max
  /\ ncells ob * vlen_max all_unique_vars * Z.of_nat num_blocks_local < 2 ^ 64.

(** The blocks of the dense example: the first holds the dense variable "d"
    of length 1, the second holds no variable. *)
Definition block_with_d : MeshBlock :=
  {| ci_vars := [ {| cv_label := "d"; cv_dim4 := 1; cv_IsSparse := false;
                     cv_IsVector := false;
                     cv_data := fun _ _ _ i => IZR i |} ] |}.

Definition block_without_d : MeshBlock := {| ci_vars := [] |}.

(** The blocks of the packing example: the first holds the sparse variable
    "a" of length 2, with the value [l + i] in component [l] of cell [i],
    the second does not. *)
Definition example_cells : OutputBounds :=
  {| out_ib := {| s := 0; e := 1 |};
     out_jb := {| s := 0; e := 0 |};
     out_kb := {| s := 0; e := 0 |} |}.

Definition block_with_a : MeshBlock :=
  {| ci_vars := [ {| cv_label := "a"; cv_dim4 := 2; cv_IsSparse := true;
                     cv_IsVector := false;
                     cv_data := fun l _ _ i => IZR (l + i) |} ] |}.

Definition block_without_a : MeshBlock := {| ci_vars := [] |}.

(** ** Vocabulary of the statements about the writes of a rank *)

(** The ranks of the participation example: one block each; the sparse
    variable "a" is allocated on the block of the first rank only, the
    dense variable "d" is on both. *)
Definition rank_a_d : list MeshBlock :=
  [ {| ci_vars := [example_var "d" 1 false; example_var "a" 2 true] |} ].

Definition rank_d : list MeshBlock :=
  [ {| ci_vars := [example_var "d" 1 false] |} ].

(** The index is one to one and below the number of sparse fields. *)
Definition index_ok (st : list string * gmap string nat) : Prop :=
  (forall l c, snd st !! l = Some c -> (c < length (fst st))%nat)
  /\ (forall l l' c, snd st !! l = Some c -> snd st !! l' = Some c -> l = l').

(** The entry [q] of the sparse map lies in the column of no sparse variable
    of [vars]. *)
Definition off_columns (sparse_field_idx : gmap string nat)
  (num_sparse num_blocks : nat) (vars : list VarInfo) (q : nat) : Prop :=
  forall v c m,
    In v vars -> is_sparse v = true -> sparse_field_idx !! label v = Some c ->
    (m < num_blocks)%nat -> q <> (m * num_sparse + c)%nat.

(** The set holds an element under the label and the length of the
    variable. *)
Definition represented (v : CellVariable) (s : VarSet.t) : Prop :=
  exists e, In e s /\ label e = cv_label v /\ vlen e = cv_dim4 v.

(** What a set built without failure from the variables [vs] on top of the
    set [s0] is: increasing, made of elements of [s0] and of descriptors of
    variables of [vs], and holding [s0] and a representative of every
    variable of [vs], each of valid length. *)
Definition built_from (vs : list CellVariable) (s0 s : VarSet.t) : Prop :=
  sorted s
  /\ (forall v, In v vs -> 1 <= cv_dim4 v <= 65535)
  /\ (forall e, In e s -> In e s0 \/ exists v, In v vs /\ e = info_of v)
  /\ (forall e, In e s0 -> In e s)
  /\ (forall v, In v vs -> represented v s).

(** The computation raised no error. *)
Definition succeeds {A : Type} (m : result A) : Prop :=
  match m with Ok _ => True | Fatal _ => False end.

(** The number of tabs in a buffer. *)
Fixpoint ntabs (buf : list ascii) : nat :=
  match buf with
  | [] => 0
  | x :: buf' => if Ascii.eqb x tab then S (ntabs buf') else ntabs buf'
  end.

(** A dense variable that some block of the list lacks. *)
Definition dense_missing (block_list : list MeshBlock) (v : VarInfo) : bool :=
  negb (is_sparse v) && negb (forallb (has_var (label v)) block_list).

(** ** Vocabulary of the statements about the elements of the set *)

(** The insertions of a sequence of descriptors, one after the other: the
    shape the loops over the variables of the blocks and over the gathered
    labels share. *)
Fixpoint insert_all (es : list VarInfo) (s : VarSet.t) : result VarSet.t :=
  match es with
  | [] => Ok s
  | e :: es' => s' ← VarSet.insert e s; insert_all es' s'
  end.

(** [e] stands in [es] at a place before which no element has its label. *)
Definition first_with_label (es : list VarInfo) (e : VarInfo) : Prop :=
  exists pre post, es = pre ++ e :: post /\ ~ In (label e) (VarSet.labels pre).

(** The variables in the order in which the rank that holds the blocks
    [mine] meets them: its own, block after block, and then those of all
    ranks, rank after rank. *)
Definition met_by (lower : list (list MeshBlock)) (mine : list MeshBlock)
  (higher : list (list MeshBlock)) : list CellVariable :=
  flat_map ci_vars mine ++ world_vars (lower ++ mine :: higher).

(** ** Vocabulary of the statements about the written datasets *)

(** The position of component [l] of cell [(k, j, i)] of the block of local
    index [b] in a buffer laid out as the dataset of dimensions
    [(blocks, nx3, nx2, nx1, vlen)]. *)
Definition flat_index (ob : OutputBounds) (vlen : Z) (b : nat) (k j i l : Z)
  : nat :=
  Z.to_nat
    ((((Z.of_nat b * nx3 ob + (k - s (out_kb ob))) * nx2 ob
       + (j - s (out_jb ob))) * nx1 ob
      + (i - s (out_ib ob))) * vlen + l).

(** The value the dataset of a variable holds for a cell of a block: the
    value of the variable, or zero when the block lacks it. *)
Definition cell_value {OutT : Type} (zero : OutT) (cast : R -> OutT)
  (var_name : string) (pmb : MeshBlock) (l k j i : Z) : OutT :=
  match find_var var_name (ci_vars pmb) with
  | Some v => cast (cv_data v l k j i)
  | None => zero
  end.

(** ** Vocabulary of the statements about what the kernels leave alone *)

(** The cell [(l, k, j, i)] is one the launch visits: a cell of the domain
    of the face, of a variable the pack has allocated. *)
Definition launched (DIR : CoordinateDirection) (SIDE : BCSide)
  (bounds : IndexShape) (q : VariablePack) (l k j i : Z) : Prop :=
  in_range (GetBoundsK bounds (face_domain DIR SIDE)) k
  /\ in_range (GetBoundsJ bounds (face_domain DIR SIDE)) j
  /\ in_range (GetBoundsI bounds (face_domain DIR SIDE)) i
  /\ exists a, 0 <= a < Z.of_nat (length (alloc_idxs q))
               /\ GetVarIdx (alloc_idxs q) a = l.
(** ** Vocabulary of the statements about the order of the dispatch *)

(** The dispatcher lets the face [f] pass. *)
Definition gated {MeshBlockData : Type} (face_of_int : nat -> BoundaryFace.t)
  (pmesh : Mesh MeshBlockData) (f : nat) : bool :=
  DoPhysicalBoundary_ (boundary_flag pmesh f) (face_of_int f) (ndim pmesh).

(** The call of the boundary function of the face [f]. *)
Definition call_face {MeshBlockData : Type} (pmesh : Mesh MeshBlockData)
  (coarse : bool) (rc : MeshBlockData) (f : nat) : MeshBlockData :=
  match MeshBndryFnctn pmesh f with
  | Some bndry => bndry rc coarse
  | None => rc
  end.

(** The boundary functions of the mesh are instances of [GenericBC]. *)
Definition generic_functions (dir_int : CoordinateDirection -> Z)
  (launch_order : IndexRange -> IndexRange -> IndexRange -> IndexRange
                  -> list (Z * Z * Z * Z))
  (pmesh : Mesh BlockData) : Prop :=
  forall f, exists DIR SIDE TYPE,
    MeshBndryFnctn pmesh f
    = Some (GenericBC dir_int launch_order DIR SIDE TYPE).

(** A mesh of three dimensions that reflects on its six faces. *)
Definition reflecting_mesh : Mesh BlockData :=
  mkMesh (fun _ => BoundaryFlag.reflect) 3
    (fun f =>
       Some (GenericBC example_dir_int nested_order
               (nth f [X1DIR; X1DIR; X2DIR; X2DIR; X3DIR; X3DIR] X1DIR)
               (nth f [Inner; Outer; Inner; Outer; Inner; Outer] Inner)
               Reflect)).

(** ** Vocabulary of the statements about the VTK writer *)

(** The bytes of a value in the memory of the host, from its big-endian
    bytes: as they are on a big-endian host, reversed on a little-endian
    one. *)
Definition host_order (big : bool) (bytes : list ascii) : list ascii :=
  if big then bytes else rev bytes.

(** The big-endian bytes of the 32-bit integer 1. *)
Definition one_be : list ascii := [NUL; NUL; NUL; "001"%char].

(** The pairs [(k, j)] in the order of the loops. *)
Definition row_order (out_js out_je out_ks out_ke : Z) : list (Z * Z) :=
  k ← seqZ out_ks (out_ke - out_ks + 1);
  j ← seqZ out_js (out_je - out_js + 1); [(k, j)].

(** What the statements say of the row written for [(k, j)]: it has as many
    values as a line has cells, and the value of the cell of offset [m]
    stands at place [2 * m], in big-endian bytes. *)
Definition row_holds (be_float : R -> list ascii) (v : Z -> Z -> Z -> R)
  (out_is out_ie : Z) (row : list (list ascii)) (kj : Z * Z) : Prop :=
  length row = Z.to_nat (out_ie - out_is + 1)
  /\ forall m, 0 <= m -> 2 * m < out_ie - out_is + 1 ->
       row !! Z.to_nat (2 * m)
       = Some (be_float (v (fst kj) (snd kj) (out_is + m))).

(** ** Vocabulary of the statements about block metadata and coordinates *)

(** The row of a block in the dataset "xmin". *)
Definition xmin_row (ndim : Z) (pmb : BlockInfo) : list R :=
  [coords_GetXmin pmb 0%nat]
    ++ (if ndim >? 1 then [coords_GetXmin pmb 1%nat] else [])
    ++ (if ndim >? 2 then [coords_GetXmin pmb 2%nat] else []).

(** ** Vocabulary of the statements about file names *)

(** The number that a sequence of decimal digits writes. *)
Definition value_from (acc : Z) (chars : list ascii) : Z :=
  fold_left (fun acc c => 10 * acc + (Z.of_nat (nat_of_ascii c) - 48)) chars acc.

Definition value (chars : list ascii) : Z := value_from 0 chars.

(** ** Vocabulary of the statements about the gathered buffers *)

(** The sums of the lengths before each place of a list of lengths. *)
Definition offsets_of (lens : list Z) : list Z :=
  map (fun r => sum_counts (take r lens)) (seq 0 (length lens)).

(** The lengths of the buffers of the ranks. *)
Definition lengths_of {A : Type} (bufs : list (list A)) : list Z :=
  map (fun buf => Z.of_nat (length buf)) bufs.

(* ===================================================================== *)
(** * Part II: properties                                                 *)
(* ===================================================================== *)

(** ** Encode / Decode *)

Section InfoCode.

Lemma land_pow2 (a n : Z) :
  0 <= n -> Z.land a (2 ^ n) = if Z.testbit a n then 2 ^ n else 0.
Proof.
  intros Hn. apply Z.bits_inj'. intros m Hm.
  rewrite Z.land_spec, Z.pow2_bits_eqb by lia.
  destruct (Z.eqb_spec n m) as [->|Hne].
  - destruct (Z.testbit a m) eqn:E; simpl.
    + rewrite Z.pow2_bits_true; auto.
    + now rewrite Z.bits_0.
  - rewrite andb_false_r.
    destruct (Z.testbit a n).
    + rewrite Z.pow2_bits_false; auto.
    + now rewrite Z.bits_0.
Qed.

Lemma testbit_div (a n : Z) (b : bool) :
  0 <= n -> (a / 2 ^ n) mod 2 = Z.b2z b -> Z.testbit a n = b.
Proof.
  intros Hn H. rewrite <- Z.testbit_spec' in H by assumption.
  now apply Z.b2z_inj.
Qed.

(** The value [get_info_code] computes, without wrap-around. *)
Lemma get_info_code_value (v : VarInfo) :
  1 <= vlen v <= 65535 ->
  get_info_code v =
    vlen v + Z.b2z (is_sparse v) * 2 ^ 20 + Z.b2z (is_vector v) * 2 ^ 21.
Proof.
  intros Hv. unfold get_info_code, CInt.add_int, CInt.wrap_int.
  unfold sparse_flag, vector_flag.
  change (Z.shiftl 1 20) with 1048576. change (Z.shiftl 1 21) with 2097152.
  change (2 ^ 20) with 1048576. change (2 ^ 21) with 2097152.
  change (2 ^ 31) with 2147483648. change (2 ^ 32) with 4294967296.
  destruct (is_sparse v), (is_vector v); simpl Z.b2z;
    Z.div_mod_to_equations; lia.
Qed.

Lemma info_code_low_bits (v : VarInfo) :
  1 <= vlen v <= 65535 ->
  Z.land (get_info_code v) max_vlen = vlen v.
Proof.
  intros Hv. rewrite get_info_code_value by assumption.
  change max_vlen with (Z.ones 16). rewrite Z.land_ones by lia.
  change (2 ^ 20) with (16 * 2 ^ 16). change (2 ^ 21) with (32 * 2 ^ 16).
  rewrite !Z.mul_assoc, <- Z.add_assoc, <- Z.mul_add_distr_r.
  rewrite Z.mod_add by lia. apply Z.mod_small.
  change (2 ^ 16) with 65536. lia.
Qed.

Lemma info_code_bit20 (v : VarInfo) :
  1 <= vlen v <= 65535 ->
  Z.testbit (get_info_code v) 20 = is_sparse v.
Proof.
  intros Hv. rewrite get_info_code_value by assumption.
  apply testbit_div; [lia|].
  change (2 ^ 20) with 1048576. change (2 ^ 21) with 2097152.
  destruct (is_sparse v), (is_vector v); simpl Z.b2z;
    Z.div_mod_to_equations; lia.
Qed.

Lemma info_code_bit21 (v : VarInfo) :
  1 <= vlen v <= 65535 ->
  Z.testbit (get_info_code v) 21 = is_vector v.
Proof.
  intros Hv. rewrite get_info_code_value by assumption.
  apply testbit_div; [lia|].
  change (2 ^ 20) with 1048576. change (2 ^ 21) with 2097152.
  destruct (is_sparse v), (is_vector v); simpl Z.b2z;
    Z.div_mod_to_equations; lia.
Qed.

Lemma flag_test (a n : Z) :
  0 <= n -> (Z.land a (2 ^ n) >? 0) = Z.testbit a n.
Proof.
  intros Hn. rewrite land_pow2 by assumption.
  destruct (Z.testbit a n).
  - apply Z.gtb_lt. apply Z.pow_pos_nonneg; lia.
  - reflexivity.
Qed.

Lemma Decode_code (lbl : string) (v : VarInfo) :
1 <= vlen v <= 65535 ->
Decode lbl (get_info_code v)
  = {| label := lbl; vlen := vlen v;
       is_sparse := is_sparse v; is_vector := is_vector v |}.
Proof.
intros Hv. unfold Decode. rewrite (info_code_low_bits v Hv).
change sparse_flag with (2 ^ 20). change vector_flag with (2 ^ 21).
rewrite !flag_test by lia.
now rewrite (info_code_bit20 v Hv), (info_code_bit21 v Hv).
Qed.

End InfoCode.

(** C1. For every label and every descriptor whose component count lies in
    [1, 65535], whatever its sparse and vector flags, decoding the encoded
    descriptor gives back the component count and both flags (under the
    label passed to [Decode]); the code holds the component count in its
    low 16 bits, the sparse flag in bit 20 and the vector flag in bit 21. *)
Theorem Decode_get_info_code (lbl : string) (v : VarInfo) :
  1 <= vlen v <= 65535 ->
  Decode lbl (get_info_code v)
    = {| label := lbl; vlen := vlen v;
         is_sparse := is_sparse v; is_vector := is_vector v |}
  /\ Z.land (get_info_code v) (Z.ones 16) = vlen v
  /\ Z.testbit (get_info_code v) 20 = is_sparse v
  /\ Z.testbit (get_info_code v) 21 = is_vector v.
Proof.
  intros Hv.
  pose proof (info_code_low_bits v Hv) as Hlow.
  pose proof (info_code_bit20 v Hv) as H20.
  pose proof (info_code_bit21 v Hv) as H21.
  repeat split; try assumption.
  now apply Decode_code.
Qed.

Lemma Decode_get_info_code_witness :
  Decode "rho" (get_info_code (mkVarInfo "rho" 3 true false))
    = mkVarInfo "rho" 3 true false.
Proof.
  refine (proj1 (Decode_get_info_code "rho" (mkVarInfo "rho" 3 true false) _)).
  simpl; lia.
Defined.

(** ** The order on labels *)

Lemma compare_refl (a : string) : (a ?= a)%string = Eq.
Proof.
  pose proof (String.compare_antisym a a) as H.
  destruct (a ?= a)%string; simpl in H; congruence.
Qed.

Lemma lbl_lt_compare (a b : string) : lbl_lt a b <-> (a ?= b)%string = Lt.
Proof.
  unfold lbl_lt, String.ltb. destruct (a ?= b)%string; split; congruence.
Qed.

Lemma lbl_lt_irrefl (a : string) : ~ lbl_lt a a.
Proof. rewrite lbl_lt_compare, compare_refl. discriminate. Qed.

Lemma ltb_irrefl (a : string) : (a <? a)%string = false.
Proof. unfold String.ltb. now rewrite compare_refl. Qed.

Lemma lbl_lt_trans (a b c : string) : lbl_lt a b -> lbl_lt b c -> lbl_lt a c.
Proof.
  rewrite !lbl_lt_compare. intros Hab Hbc.
  exact (StrictOrder_Transitive (R := OrdersEx.String_as_OT.lt) a b c Hab Hbc).
Qed.

Lemma lbl_lt_asym (a b : string) : lbl_lt a b -> ~ lbl_lt b a.
Proof. intros Hab Hba. exact (lbl_lt_irrefl a (lbl_lt_trans a b a Hab Hba)). Qed.

Lemma lbl_lt_neq (a b : string) : lbl_lt a b -> a <> b.
Proof. intros H ->. exact (lbl_lt_irrefl b H). Qed.

Lemma lbl_total (a b : string) :
  (a <? b)%string = false -> (b <? a)%string = false -> a = b.
Proof.
  unfold String.ltb. intros Hab Hba.
  destruct (a ?= b)%string eqn:E.
  - now apply String.compare_eq_iff.
  - discriminate Hab.
  - rewrite String.compare_antisym, E in Hba. discriminate Hba.
Qed.

Lemma ltb_false_of_gt (a b : string) : lbl_lt b a -> (a <? b)%string = false.
Proof.
  intros H. destruct (a <? b)%string eqn:E; [|reflexivity].
  exfalso. exact (lbl_lt_asym b a H E).
Qed.

(** ** The set: order, membership, failure *)

Lemma sorted_nil : sorted [].
Proof. constructor. Qed.

Lemma sorted_cons_inv (y : VarInfo) (s : VarSet.t) :
  sorted (y :: s) ->
  sorted s /\ (forall e, In e s -> lbl_lt (label y) (label e)).
Proof.
  intros H. unfold sorted in H.
  change (VarSet.labels (y :: s)) with (label y :: VarSet.labels s) in H.
  apply StronglySorted_inv in H as [Hs Hall]. split; [exact Hs|].
  intros e He. rewrite List.Forall_forall in Hall. apply Hall.
  unfold VarSet.labels. now apply in_map.
Qed.

Lemma sorted_cons (y : VarInfo) (s : VarSet.t) :
  sorted s -> (forall e, In e s -> lbl_lt (label y) (label e)) -> sorted (y :: s).
Proof.
  intros Hs Hall. constructor; [exact Hs|].
  apply List.Forall_forall. intros l Hl.
  apply in_map_iff in Hl as (e & <- & He). now apply Hall.
Qed.

Lemma in_labels (l : string) (s : VarSet.t) :
  In l (VarSet.labels s) <-> exists e, In e s /\ label e = l.
Proof.
  unfold VarSet.labels. rewrite in_map_iff. split; intros (e & H1 & H2); eauto.
Qed.

Lemma VarInfo_lt_ok (a b : VarInfo) :
  (label a = label b -> vlen a = vlen b) ->
  VarInfo_lt a b = Ok (label a <? label b)%string.
Proof.
  intros H. unfold VarInfo_lt.
  destruct (String.eqb_spec (label a) (label b)) as [E|E]; simpl; [|reflexivity].
  rewrite (H E), Z.eqb_refl. reflexivity.
Qed.

Lemma VarInfo_lt_fatal (a b : VarInfo) :
  label a = label b -> vlen a <> vlen b ->
  VarInfo_lt a b = Fatal (MultipleLengths (label a)).
Proof.
  intros E N. unfold VarInfo_lt.
  rewrite (proj2 (String.eqb_eq _ _) E). simpl.
  now rewrite (proj2 (Z.eqb_neq _ _) N).
Qed.

(** Inserting [x] into a set that holds no other length under its label
    succeeds: [x] is added, in its place, unless its label is there already,
    and then the set is unchanged. *)
Lemma insert_compat (x : VarInfo) (s : VarSet.t) :
  sorted s -> compat x s ->
  exists s', VarSet.insert x s = Ok s' /\ sorted s' /\
    (forall e, In e s' <-> (e = x /\ ~ In (label x) (VarSet.labels s)) \/ In e s).
Proof.
  induction s as [|y s IH]; intros Hs Hc.
  - exists [x]. split; [reflexivity|]. split.
    + apply sorted_cons; [apply sorted_nil | intros e []].
    + intros e. simpl. intuition congruence.
  - apply sorted_cons_inv in Hs as [Hs Hy]. simpl.
    rewrite (VarInfo_lt_ok x y)
      by (intros E; symmetry; apply Hc; [now left | now symmetry]).
    destruct (label x <? label y)%string eqn:Exy.
    + exists (x :: y :: s). split; [reflexivity|]. split.
      * apply sorted_cons; [now apply sorted_cons|].
        intros e [<-|He]; [exact Exy|].
        apply lbl_lt_trans with (label y); [exact Exy | now apply Hy].
      * intros e. split.
        -- intros [<-|He]; [left; split; [reflexivity|] | now right].
           rewrite in_labels. intros [El|(e & He & El)].
           ++ rewrite El in Exy. exact (lbl_lt_irrefl _ Exy).
           ++ apply (lbl_lt_irrefl (label x)). rewrite <- El at 2.
              apply lbl_lt_trans with (label y); [exact Exy | now apply Hy].
        -- intros [[-> _]|He]; [now left | now right].
    + simpl. rewrite (VarInfo_lt_ok y x) by (intros E; apply Hc; [now left | exact E]).
      destruct (label y <? label x)%string eqn:Eyx.
      * destruct IH as (s' & Hins & Hs' & Hin); [exact Hs | |].
        { intros e He. apply Hc. now right. }
        rewrite Hins. simpl. exists (y :: s'). split; [reflexivity|]. split.
        -- apply sorted_cons; [exact Hs'|].
           intros e He. apply Hin in He as [[-> _]|He]; [exact Eyx | now apply Hy].
        -- intros e. simpl. rewrite Hin. split.
           ++ intros [<-|[[-> Hn]|He]]; [tauto| |tauto].
              left. split; [reflexivity|]. intros [E|Hl]; [|exact (Hn Hl)].
              rewrite E in Eyx. exact (lbl_lt_irrefl _ Eyx).
           ++ intros [[-> Hn]|[<-|He]]; tauto.
      * exists (y :: s). split; [reflexivity|]. split.
        -- now apply sorted_cons.
        -- intros e. split; [now right|].
           intros [[_ Hn]|He]; [|exact He]. exfalso. apply Hn. left.
           symmetry. now apply lbl_total.
Qed.

(** Inserting [x] into a set that holds another length under its label
    fails. *)
Lemma insert_clash (x : VarInfo) (s : VarSet.t) :
  sorted s ->
  (exists e, In e s /\ label e = label x /\ vlen e <> vlen x) ->
  VarSet.insert x s = Fatal (MultipleLengths (label x)).
Proof.
  induction s as [|y s IH]; intros Hs (e & He & El & Ev); [destruct He|].
  apply sorted_cons_inv in Hs as [Hs Hy]. simpl. destruct He as [<-|He].
  - rewrite (VarInfo_lt_fatal x y); [reflexivity | now symmetry | congruence].
  - assert (lbl_lt (label y) (label x)) as Hyx by (rewrite <- El; now apply Hy).
    rewrite (VarInfo_lt_ok x y)
      by (intros E; exfalso; apply (lbl_lt_neq _ _ Hyx); congruence).
    rewrite (ltb_false_of_gt _ _ Hyx). simpl.
    rewrite (VarInfo_lt_ok y x) by (intros E; exfalso; exact (lbl_lt_neq _ _ Hyx E)).
    rewrite Hyx. rewrite IH; [reflexivity | exact Hs | eauto].
Qed.

Lemma insert_labels (x : VarInfo) (s s' : VarSet.t) :
  sorted s -> compat x s -> VarSet.insert x s = Ok s' ->
  forall l, In l (VarSet.labels s') <-> l = label x \/ In l (VarSet.labels s).
Proof.
  intros Hs Hc Hins l.
  destruct (insert_compat x s Hs Hc) as (s0 & Hins0 & _ & Hin).
  rewrite Hins in Hins0. injection Hins0 as <-.
  split.
  - intros Hl. apply in_labels in Hl as (e & He & <-).
    apply Hin in He as [[-> _]|He]; [now left|].
    right. apply in_labels. eauto.
  - intros [->|Hl]; apply in_labels.
    + destruct (in_dec string_dec (label x) (VarSet.labels s)) as [Hi|Hn].
      * apply in_labels in Hi as (e & He & El). exists e. split; [|exact El].
        apply Hin. now right.
      * exists x. split; [|reflexivity]. apply Hin. now left.
    + apply in_labels in Hl as (e & He & El). exists e. split; [|exact El].
      apply Hin. now right.
Qed.

(** An element already in the set under the label and the length of [x]
    makes the insertion of [x] a no-op. *)
Lemma insert_present (x : VarInfo) (s : VarSet.t) :
  sorted s -> compat x s -> In (label x) (VarSet.labels s) ->
  VarSet.insert x s = Ok s.
Proof.
  induction s as [|y s IH]; intros Hs Hc Hl; [destruct Hl|].
  apply sorted_cons_inv in Hs as [Hs Hy]. simpl.
  rewrite (VarInfo_lt_ok x y)
    by (intros E; symmetry; apply Hc; [now left | now symmetry]).
  destruct Hl as [El|Hl].
  - rewrite El, ltb_irrefl. simpl.
    rewrite (VarInfo_lt_ok y x) by (intros E; apply Hc; [now left | exact E]).
    now rewrite El, ltb_irrefl.
  - assert (lbl_lt (label y) (label x)) as Hyx.
    { apply in_labels in Hl as (e & He & <-). now apply Hy. }
    rewrite (ltb_false_of_gt _ _ Hyx). simpl.
    rewrite (VarInfo_lt_ok y x) by (intros E; apply Hc; [now left | exact E]).
    rewrite Hyx. rewrite IH; [reflexivity | exact Hs | | exact Hl].
    intros e He. apply Hc. now right.
Qed.

(** ** Unpacking the label buffer *)

Lemma unpack_labels_cons (c : ascii) (rest slack : list ascii) :
  unpack_labels (c :: rest) slack =
    match strchr (c :: rest ++ slack) tab with
    | None => Fatal NoTrailingTab
    | Some 0%nat => Fatal EmptyLabel
    | Some (S n) =>
        all_labels ← unpack_labels (drop (S n) rest) slack;
        Ok (string_of_list_ascii (take (S n) (c :: rest ++ slack)) :: all_labels)
    end.
Proof.
  simp unpack_labels.
  destruct (strchr (c :: rest ++ slack) tab) as [[|n]|]; reflexivity.
Qed.

Lemma strchr_none (mem : list ascii) :
  strchr mem tab = None <-> ~ In tab (c_str mem).
Proof.
  induction mem as [|x mem IH]; simpl; [tauto|].
  destruct (Ascii.eqb_spec x tab) as [->|Hx].
  - simpl. split; [discriminate | intros H; exfalso; apply H; now left].
  - destruct (Ascii.eqb x NUL); [simpl; tauto|].
    destruct (strchr mem tab); simpl.
    + split; [discriminate|]. intros H. exfalso.
      assert (~ In tab (c_str mem)) as H' by tauto.
      apply IH in H'. discriminate.
    + split; [|reflexivity]. intros _ [E|H]; [now apply Hx|].
      now apply (proj1 IH).
Qed.

Lemma c_str_incl (mem : list ascii) (x : ascii) : In x (c_str mem) -> In x mem.
Proof.
  induction mem as [|y mem IH]; simpl; [tauto|].
  destruct (Ascii.eqb y NUL); simpl; [tauto|]. intros [H|H]; auto.
Qed.

Lemma strchr_label (cs rest : list ascii) :
  ~ In tab cs -> ~ In NUL cs ->
  strchr (cs ++ tab :: rest) tab = Some (length cs).
Proof.
  induction cs as [|x cs IH]; simpl; intros Ht Hn; [reflexivity|].
  destruct (Ascii.eqb_spec x tab) as [->|_]; [tauto|].
  destruct (Ascii.eqb_spec x NUL) as [->|_]; [tauto|].
  rewrite IH by tauto. reflexivity.
Qed.

Lemma unpack_labels_one (l : string) (rest slack : list ascii) :
  good_label l ->
  unpack_labels ((list_ascii_of_string l ++ [tab]) ++ rest) slack =
    all_labels ← unpack_labels rest slack; Ok (l :: all_labels).
Proof.
  intros (Hne & Ht & Hn). destruct l as [|c l]; [congruence|].
  change (list_ascii_of_string (String c l)) with (c :: list_ascii_of_string l) in *.
  set (cs := list_ascii_of_string l) in *.
  change (((c :: cs) ++ [tab]) ++ rest) with (c :: ((cs ++ [tab]) ++ rest)).
  rewrite unpack_labels_cons.
  replace (c :: ((cs ++ [tab]) ++ rest) ++ slack)
    with ((c :: cs) ++ tab :: (rest ++ slack))
    by (simpl; now rewrite <- !app_assoc).
  rewrite strchr_label by assumption.
  change (length (c :: cs)) with (S (length cs)). cbv iota.
  replace (take (S (length cs)) ((c :: cs) ++ tab :: rest ++ slack))
    with (c :: cs) by (symmetry; apply (take_app_length (c :: cs))).
  replace (S (length cs)) with (length (cs ++ [tab]))
    by (rewrite length_app; simpl; lia).
  rewrite drop_app_length.
  change (c :: cs) with (list_ascii_of_string (String c l)).
  now rewrite string_of_list_ascii_of_string.
Qed.

(** Well-formed labels followed by anything: the labels come out, and the
    outcome is the one of unpacking what follows them. *)
Lemma unpack_labels_app (ls : list string) (rest slack : list ascii) :
  Forall good_label ls ->
  unpack_labels (pack_labels ls ++ rest) slack =
    all_labels ← unpack_labels rest slack; Ok (ls ++ all_labels).
Proof.
  induction 1 as [|l ls Hl _ IH]; simpl.
  - destruct (unpack_labels rest slack); reflexivity.
  - rewrite <- app_assoc, unpack_labels_one, IH by assumption.
    destruct (unpack_labels rest slack); reflexivity.
Qed.

Lemma unpack_labels_pack (ls : list string) (slack : list ascii) :
  Forall good_label ls -> unpack_labels (pack_labels ls) slack = Ok ls.
Proof.
  intros H. rewrite <- (app_nil_r (pack_labels ls)), unpack_labels_app by assumption.
  simp unpack_labels. simpl. now rewrite app_nil_r.
Qed.

Lemma good_label_alpha : good_label "alpha".
Proof.
  split; [discriminate|]. split; simpl; intros H;
    repeat (destruct H as [H|H]; [discriminate H|]); exact H.
Qed.

Lemma good_label_beta : good_label "beta".
Proof.
  split; [discriminate|]. split; simpl; intros H;
    repeat (destruct H as [H|H]; [discriminate H|]); exact H.
Qed.

(** C6. The label buffer "alpha<tab>beta<tab>" unpacks to the labels
    alpha and beta, and in general a buffer of well-formed labels, each
    followed by a tab, unpacks to these labels; a tab where a label should
    start (an empty label, as in "alpha<tab><tab>beta<tab>") is the fatal
    error "Got an empty label"; and remaining content that holds no tab is
    the fatal error "all_labels_buffer does not end with \t". The content
    is what [strchr] searches, the bytes from the current position up to the
    first NUL: the vector stores no terminator of its own, so the bytes
    that follow it in memory count. When nothing but a NUL follows the
    buffer, the content is what is left of the buffer. *)
Theorem unpack_labels_spec :
  (forall slack, unpack_labels alpha_beta slack = Ok ["alpha"; "beta"]%string)
  /\ (forall slack, unpack_labels alpha_empty_beta slack = Fatal EmptyLabel)
  /\ (forall ls slack,
        Forall good_label ls -> unpack_labels (pack_labels ls) slack = Ok ls)
  /\ (forall ls rest slack,
        Forall good_label ls ->
        unpack_labels (pack_labels ls ++ tab :: rest) slack = Fatal EmptyLabel)
  /\ (forall ls rest slack,
        Forall good_label ls -> rest <> [] ->
        ~ In tab (c_str (rest ++ slack)) ->
        unpack_labels (pack_labels ls ++ rest) slack = Fatal NoTrailingTab)
  /\ (forall ls rest,
        Forall good_label ls -> rest <> [] -> ~ In tab rest ->
        unpack_labels (pack_labels ls ++ rest) [] = Fatal NoTrailingTab).
Proof.
  assert (forall ls rest slack,
             Forall good_label ls ->
             unpack_labels (pack_labels ls ++ tab :: rest) slack = Fatal EmptyLabel)
    as Hempty.
  { intros ls rest slack Hls. rewrite unpack_labels_app by assumption.
    now rewrite unpack_labels_cons. }
  assert (forall ls rest slack,
             Forall good_label ls -> rest <> [] ->
             ~ In tab (c_str (rest ++ slack)) ->
             unpack_labels (pack_labels ls ++ rest) slack = Fatal NoTrailingTab)
    as Hnotab.
  { intros ls rest slack Hls Hne Hnotab.
    rewrite unpack_labels_app by assumption.
    destruct rest as [|c rest]; [congruence|].
    rewrite unpack_labels_cons.
    change (c :: rest ++ slack) with ((c :: rest) ++ slack).
    now rewrite (proj2 (strchr_none _) Hnotab). }
  split; [|split; [|split; [|split; [|split]]]].
  - intros slack.
    apply (unpack_labels_pack ["alpha"; "beta"]%string).
    constructor; [apply good_label_alpha|].
    constructor; [apply good_label_beta | constructor].
  - intros slack.
    apply (Hempty ["alpha"%string] (list_ascii_of_string "beta" ++ [tab])).
    constructor; [apply good_label_alpha | constructor].
  - intros ls slack. apply unpack_labels_pack.
  - exact Hempty.
  - exact Hnotab.
  - intros ls rest Hls Hne Hrest. apply Hnotab; [exact Hls | exact Hne |].
    rewrite app_nil_r. intros Hin. apply Hrest. now apply c_str_incl.
Qed.

Lemma unpack_labels_spec_witness :
  unpack_labels (pack_labels ["rho"%string] ++ list_ascii_of_string "u") []
    = Fatal NoTrailingTab.
Proof.
  refine (proj1 (proj2 (proj2 (proj2 (proj2 unpack_labels_spec))))
            ["rho"%string] (list_ascii_of_string "u") [] _ _ _).
  - constructor; [|constructor].
    split; [discriminate|]. split; simpl; intros H;
      repeat (destruct H as [H|H]; [discriminate H|]); exact H.
  - discriminate.
  - simpl. intros H. repeat (destruct H as [H|H]; [discriminate H|]). exact H.
Defined.

(** ** Two descriptors under one label *)

(** C10. Two descriptors of one label and one component count, whatever
    their sparse and vector flags, inserted one after the other into a set
    that does not hold the label yet: neither insertion fails, the second
    leaves the set as the first made it, and the only element under the
    label is the descriptor inserted first. The comparison of the two
    raises nothing in either direction. *)
Theorem insert_same_label_keeps_first (s : VarSet.t) (v1 v2 : VarInfo) :
  sorted s -> ~ In (label v1) (VarSet.labels s) ->
  label v2 = label v1 -> vlen v2 = vlen v1 ->
  exists s1,
    VarSet.insert v1 s = Ok s1 /\ VarSet.insert v2 s1 = Ok s1
    /\ In v1 s1
    /\ (forall e, In e s1 -> label e = label v1 -> e = v1)
    /\ (v2 <> v1 -> ~ In v2 s1)
    /\ VarInfo_lt v1 v2 = Ok false /\ VarInfo_lt v2 v1 = Ok false.
Proof.
  intros Hs Hfresh El Ev.
  assert (compat v1 s) as Hc1.
  { intros e He E. exfalso. apply Hfresh. apply in_labels. eauto. }
  destruct (insert_compat v1 s Hs Hc1) as (s1 & Hins & Hs1 & Hin).
  assert (forall e, In e s1 -> label e = label v1 -> e = v1) as Huniq.
  { intros e He E. apply Hin in He as [[-> _]|He]; [reflexivity|].
    exfalso. apply Hfresh. apply in_labels. eauto. }
  exists s1. split; [exact Hins|]. split; [|split; [|split; [|split; [|split]]]].
  - apply insert_present; [exact Hs1 | |].
    + intros e He E. rewrite (Huniq e He) by congruence. now symmetry.
    + rewrite El. apply in_labels. exists v1. split; [|reflexivity].
      apply Hin. now left.
  - apply Hin. now left.
  - exact Huniq.
  - intros Hne Hin2. apply Hne. now apply Huniq.
  - rewrite VarInfo_lt_ok by (intros _; now symmetry).
    now rewrite El, ltb_irrefl.
  - rewrite VarInfo_lt_ok by (intros _; assumption).
    now rewrite El, ltb_irrefl.
Qed.

Lemma insert_same_label_keeps_first_witness :
  exists s1,
    VarSet.insert (mkVarInfo "rho" 3 true false) [] = Ok s1
    /\ VarSet.insert (mkVarInfo "rho" 3 false true) s1 = Ok s1
    /\ In (mkVarInfo "rho" 3 true false) s1.
Proof.
  destruct (insert_same_label_keeps_first []
              (mkVarInfo "rho" 3 true false) (mkVarInfo "rho" 3 false true))
    as (s1 & H1 & H2 & H3 & _).
  - apply sorted_nil.
  - simpl. tauto.
  - reflexivity.
  - reflexivity.
  - exists s1. auto.
Defined.

(** ** Reconciliation *)

Section Reconciliation.

(** The variables of the run, fixed and well formed. *)
Variable vars : list CellVariable.
Hypothesis vars_wf : well_formed_vars vars.

Lemma VarInfo_of_ok (v : CellVariable) :
  In v vars -> VarInfo_of v = Ok (info_of v).
Proof using vars_wf.
  intros Hv. destruct vars_wf as [Hgood _].
  destruct (Hgood v Hv) as [_ Hlen]. unfold VarInfo_of.
  change max_vlen with 65535.
  replace (cv_dim4 v <=? 0) with false by (symmetry; apply Z.leb_gt; lia).
  replace (cv_dim4 v >? 65535) with false
    by (symmetry; rewrite Z.gtb_ltb; apply Z.ltb_ge; lia).
  reflexivity.
Qed.

Lemma set_of_compat (v : CellVariable) (s : VarSet.t) :
  In v vars -> set_of vars s -> compat (info_of v) s.
Proof using vars_wf.
  intros Hv [_ Hs] e He E. destruct (Hs e He) as (w & Hw & ->).
  destruct vars_wf as [_ Hone]. simpl in *. now apply Hone.
Qed.

(** Inserting the descriptor of a variable of the run never fails. *)
Lemma insert_set_of (v : CellVariable) (s : VarSet.t) :
  In v vars -> set_of vars s ->
  exists s', VarSet.insert (info_of v) s = Ok s' /\ set_of vars s' /\
    forall l, In l (VarSet.labels s') <-> l = cv_label v \/ In l (VarSet.labels s).
Proof using vars_wf.
  intros Hv Hs. pose proof (set_of_compat v s Hv Hs) as Hc.
  destruct (insert_compat (info_of v) s (proj1 Hs) Hc) as (s' & Hins & Hs' & Hin).
  exists s'. split; [exact Hins|]. split.
  - split; [exact Hs'|]. intros e He.
    apply Hin in He as [[-> _]|He]; [eauto | now apply (proj2 Hs)].
  - exact (insert_labels (info_of v) s s' (proj1 Hs) Hc Hins).
Qed.

Lemma insert_vars_set_of (vs : list CellVariable) (s : VarSet.t) :
  (forall v, In v vs -> In v vars) -> set_of vars s ->
  exists s', insert_vars vs s = Ok s' /\ set_of vars s' /\
    forall l, In l (VarSet.labels s') <->
              In l (map cv_label vs) \/ In l (VarSet.labels s).
Proof using vars_wf.
  revert s. induction vs as [|v vs IH]; intros s Hsub Hs.
  - exists s. split; [reflexivity|]. split; [exact Hs|]. simpl. tauto.
  - simpl. rewrite VarInfo_of_ok by (apply Hsub; now left). simpl.
    destruct (insert_set_of v s) as (s1 & Hins & Hs1 & Hl1);
      [apply Hsub; now left | exact Hs |].
    rewrite Hins. simpl.
    destruct (IH s1) as (s' & Hrec & Hs' & Hl');
      [intros w Hw; apply Hsub; now right | exact Hs1 |].
    exists s'. split; [exact Hrec|]. split; [exact Hs'|].
    intros l. rewrite Hl', Hl1. intuition congruence.
Qed.

Lemma insert_blocks_set_of (block_list : list MeshBlock) (s : VarSet.t) :
  (forall v, In v (flat_map ci_vars block_list) -> In v vars) -> set_of vars s ->
  exists s', insert_blocks block_list s = Ok s' /\ set_of vars s' /\
    forall l, In l (VarSet.labels s') <->
              In l (map cv_label (flat_map ci_vars block_list))
              \/ In l (VarSet.labels s).
Proof using vars_wf.
  revert s. induction block_list as [|pmb rest IH]; intros s Hsub Hs.
  - exists s. split; [reflexivity|]. split; [exact Hs|]. simpl. tauto.
  - simpl in *.
    destruct (insert_vars_set_of (ci_vars pmb) s) as (s1 & Hins & Hs1 & Hl1);
      [intros v Hv; apply Hsub, in_or_app; now left | exact Hs |].
    rewrite Hins. simpl.
    destruct (IH s1) as (s' & Hrec & Hs' & Hl');
      [intros v Hv; apply Hsub, in_or_app; now right | exact Hs1 |].
    exists s'. split; [exact Hrec|]. split; [exact Hs'|].
    intros l. rewrite Hl', Hl1, map_app, in_app_iff. tauto.
Qed.

Lemma local_unique_vars_set_of (block_list : list MeshBlock) :
  (forall v, In v (flat_map ci_vars block_list) -> In v vars) ->
  exists s, local_unique_vars block_list = Ok s /\ set_of vars s /\
    forall l, In l (VarSet.labels s) <->
              In l (map cv_label (flat_map ci_vars block_list)).
Proof using vars_wf.
  intros Hsub.
  destruct (insert_blocks_set_of block_list VarSet.empty Hsub)
    as (s & Hins & Hs & Hl).
  - split; [apply sorted_nil | intros e []].
  - exists s. split; [exact Hins|]. split; [exact Hs|].
    intros l. rewrite Hl. simpl. tauto.
Qed.

Lemma local_sets_set_of (ranks : list (list MeshBlock)) :
  (forall v, In v (world_vars ranks) -> In v vars) ->
  exists locals, local_sets ranks = Ok locals /\
    Forall (set_of vars) locals /\
    forall l, In l (VarSet.labels (concat locals)) <-> In l (world_labels ranks).
Proof using vars_wf.
  unfold world_labels, world_vars.
  induction ranks as [|block_list ranks IH]; intros Hsub.
  - exists []. split; [reflexivity|]. split; [constructor|]. simpl. tauto.
  - simpl in *. rewrite flat_map_app in Hsub.
    destruct (local_unique_vars_set_of block_list) as (s & Hloc & Hs & Hl);
      [intros v Hv; apply Hsub, in_or_app; now left|].
    rewrite Hloc. simpl.
    destruct IH as (locals & Hrec & Hall & Hls);
      [intros v Hv; apply Hsub, in_or_app; now right|].
    rewrite Hrec. simpl. exists (s :: locals). split; [reflexivity|].
    split; [now constructor|].
    intros l. simpl. unfold VarSet.labels in *.
    rewrite flat_map_app, !map_app, !in_app_iff, Hl, Hls. tauto.
Qed.

End Reconciliation.

Lemma pack_labels_app (a b : list string) :
  pack_labels (a ++ b) = pack_labels a ++ pack_labels b.
Proof.
  induction a as [|l a IH]; simpl; [reflexivity|].
  now rewrite IH, <- !app_assoc.
Qed.

Lemma label_buffer_pack (s : VarSet.t) :
  label_buffer s = pack_labels (VarSet.labels s).
Proof. induction s as [|vi s IH]; simpl; [reflexivity | now rewrite IH]. Qed.

Lemma all_labels_buffer_pack (locals : list VarSet.t) :
  all_labels_buffer locals = pack_labels (VarSet.labels (concat locals)).
Proof.
  unfold all_labels_buffer, VarSet.labels.
  induction locals as [|s locals IH]; simpl; [reflexivity|].
  rewrite IH, map_app, pack_labels_app. now rewrite label_buffer_pack.
Qed.

Lemma all_codes_map (locals : list VarSet.t) :
  all_codes locals = map get_info_code (concat locals).
Proof.
  unfold all_codes, code_buffer.
  induction locals as [|s locals IH]; simpl; [reflexivity|].
  now rewrite IH, map_app.
Qed.

Lemma Decode_info_of (vars : list CellVariable) (v : CellVariable) :
  well_formed_vars vars -> In v vars ->
  Decode (label (info_of v)) (get_info_code (info_of v)) = info_of v.
Proof.
  intros [Hgood _] Hv. destruct (Hgood v Hv) as [_ Hlen].
  now rewrite Decode_code.
Qed.

(** Inserting the decoded pairs of descriptors of the run never fails. *)
Lemma insert_decoded_set_of (vars : list CellVariable) (es : list VarInfo)
  (s : VarSet.t) :
  well_formed_vars vars ->
  (forall e, In e es -> exists v, In v vars /\ e = info_of v) ->
  set_of vars s ->
  exists s', insert_decoded (map label es) (map get_info_code es) s = Ok s'
    /\ set_of vars s'
    /\ forall l, In l (VarSet.labels s') <->
                 In l (VarSet.labels es) \/ In l (VarSet.labels s).
Proof.
  intros Hwf. revert s. induction es as [|e es IH]; intros s Hes Hs.
  - exists s. split; [reflexivity|]. split; [exact Hs|]. simpl. tauto.
  - destruct (Hes e) as (v & Hv & ->); [now left|]. cbn [map insert_decoded].
    rewrite (Decode_info_of vars v Hwf Hv).
    destruct (insert_set_of vars Hwf v s Hv Hs) as (s1 & Hins & Hs1 & Hl1).
    rewrite Hins. simpl.
    destruct (IH s1) as (s' & Hrec & Hs' & Hl');
      [intros e He; apply Hes; now right | exact Hs1 |].
    exists s'. split; [exact Hrec|]. split; [exact Hs'|].
    intros l. rewrite Hl', Hl1. intuition congruence.
Qed.

Lemma set_of_concat (vars : list CellVariable) (locals : list VarSet.t) :
  Forall (set_of vars) locals ->
  forall e, In e (concat locals) -> exists v, In v vars /\ e = info_of v.
Proof.
  induction 1 as [|s locals Hs _ IH]; intros e He; [destruct He|].
  simpl in He. apply in_app_or in He as [He|He]; [now apply (proj2 Hs) | now apply IH].
Qed.

Lemma good_labels_of (vars : list CellVariable) (es : list VarInfo) :
  well_formed_vars vars ->
  (forall e, In e es -> exists v, In v vars /\ e = info_of v) ->
  Forall good_label (VarSet.labels es).
Proof.
  intros [Hgood _] Hes. apply List.Forall_forall. intros l Hl.
  apply in_labels in Hl as (e & He & <-).
  destruct (Hes e He) as (v & Hv & ->). now apply Hgood.
Qed.

(** Two strictly increasing sequences of labels with the same members are
    the same sequence. *)
Lemma sorted_labels_unique (l1 l2 : list string) :
  StronglySorted lbl_lt l1 -> StronglySorted lbl_lt l2 ->
  (forall x, In x l1 <-> In x l2) -> l1 = l2.
Proof.
  intros H1. revert l2. induction H1 as [|a l1 Hs1 IH Ha]; intros l2 H2 Hmem.
  - destruct l2 as [|b l2]; [reflexivity|].
    exfalso. apply (proj2 (Hmem b)). now left.
  - destruct H2 as [|b l2 Hs2 Hb].
    + exfalso. apply (proj1 (Hmem a)). now left.
    + rewrite List.Forall_forall in Ha, Hb.
      assert (a = b) as ->.
      { destruct (proj1 (Hmem a)) as [E|Hin]; [now left | now symmetry |].
        destruct (proj2 (Hmem b)) as [E|Hin']; [now left | exact E |].
        exfalso. exact (lbl_lt_asym a b (Ha b Hin') (Hb a Hin)). }
      f_equal. apply IH; [exact Hs2|]. intros x. split; intros Hx.
      * destruct (proj1 (Hmem x)) as [E|Hin]; [now right | | exact Hin].
        subst x. exfalso. exact (lbl_lt_irrefl b (Ha b Hx)).
      * destruct (proj2 (Hmem x)) as [E|Hin]; [now right | | exact Hin].
        subst x. exfalso. exact (lbl_lt_irrefl b (Hb b Hx)).
Qed.

(** Reconciliation of a well-formed run succeeds on every rank, and the set
    it builds holds the labels of the run, each once, in increasing order. *)
Lemma reconcile_ok (lower : list (list MeshBlock)) (mine : list MeshBlock)
  (higher : list (list MeshBlock)) (slack : list ascii) :
  well_formed (lower ++ mine :: higher) ->
  exists gvs, reconcile lower mine higher slack = Ok gvs
    /\ set_of (world_vars (lower ++ mine :: higher)) gvs
    /\ forall l, In l (VarSet.labels gvs) <->
                 In l (world_labels (lower ++ mine :: higher)).
Proof.
  intros Hwf. set (ranks := lower ++ mine :: higher) in *.
  destruct (local_sets_set_of (world_vars ranks) Hwf ranks)
    as (locals & Hlocals & Hall & Hlabels); [auto|].
  assert (forall v, In v (flat_map ci_vars mine) -> In v (world_vars ranks)) as Hmine.
  { intros v Hv. unfold world_vars, ranks.
    rewrite concat_app, flat_map_app. apply in_or_app. right.
    simpl. rewrite flat_map_app. apply in_or_app. now left. }
  destruct (local_unique_vars_set_of (world_vars ranks) Hwf mine Hmine)
    as (my_set & Hmy & Hmyset & Hmylabels).
  pose proof (set_of_concat _ _ Hall) as Hes.
  destruct (insert_decoded_set_of (world_vars ranks) (concat locals) my_set
              Hwf Hes Hmyset) as (gvs & Hins & Hgvs & Hgvsl).
  exists gvs. split; [|split; [exact Hgvs|]].
  - unfold reconcile. fold ranks. rewrite Hlocals. simpl. rewrite Hmy. simpl.
    unfold merge_gathered.
    rewrite all_labels_buffer_pack, all_codes_map.
    rewrite unpack_labels_pack by (eapply good_labels_of; eassumption).
    simpl. unfold VarSet.labels at 1 3.
    rewrite !length_map, Nat.eqb_refl. simpl. exact Hins.
  - intros l. rewrite Hgvsl, Hlabels, Hmylabels. split; [|tauto].
    intros [H|H]; [exact H|]. unfold world_labels.
    apply in_map_iff in H as (v & <- & Hv). apply in_map. now apply Hmine.
Qed.

(** ** Reconciliation that succeeds was given a well-formed run *)

Lemma VarInfo_of_inv (v : CellVariable) (e : VarInfo) :
  VarInfo_of v = Ok e -> e = info_of v /\ 1 <= cv_dim4 v <= 65535.
Proof.
  unfold VarInfo_of. change max_vlen with 65535.
  destruct (Z.leb_spec (cv_dim4 v) 0) as [Hle|Hgt]; simpl; [discriminate|].
  destruct (cv_dim4 v >? 65535) eqn:E; [discriminate|].
  intros Hok. injection Hok as <-. split; [reflexivity|].
  rewrite Z.gtb_ltb in E. apply Z.ltb_ge in E. lia.
Qed.

Lemma insert_Ok_compat (x : VarInfo) (s s' : VarSet.t) :
  sorted s -> VarSet.insert x s = Ok s' -> compat x s.
Proof.
  intros Hs Hins e He El.
  destruct (Z.eq_dec (vlen e) (vlen x)) as [E|N]; [exact E|].
  rewrite (insert_clash x s Hs) in Hins by eauto. discriminate.
Qed.

Lemma insert_Ok_inv (x : VarInfo) (s s' : VarSet.t) :
  sorted s -> VarSet.insert x s = Ok s' ->
  sorted s'
  /\ (forall e, In e s' -> e = x \/ In e s)
  /\ (forall e, In e s -> In e s')
  /\ (exists e, In e s' /\ label e = label x /\ vlen e = vlen x).
Proof.
  intros Hs Hins. pose proof (insert_Ok_compat x s s' Hs Hins) as Hc.
  destruct (insert_compat x s Hs Hc) as (s0 & Hins0 & Hs0 & Hin).
  rewrite Hins in Hins0. injection Hins0 as <-.
  split; [exact Hs0|]. split; [|split].
  - intros e He. apply Hin in He. tauto.
  - intros e He. apply Hin. now right.
  - destruct (in_dec string_dec (label x) (VarSet.labels s)) as [Hl|Hn].
    + apply in_labels in Hl as (e & He & El). exists e.
      split; [apply Hin; now right|]. split; [exact El | now apply Hc].
    + exists x. split; [apply Hin; now left | auto].
Qed.

Lemma built_from_nil (s : VarSet.t) : sorted s -> built_from [] s s.
Proof.
  intros Hs. split; [exact Hs|]. split; [intros v []|].
  split; [now left|]. split; [auto | intros v []].
Qed.

Lemma insert_vars_inv (vs : list CellVariable) (s s' : VarSet.t) :
  sorted s -> insert_vars vs s = Ok s' -> built_from vs s s'.
Proof.
  revert s. induction vs as [|v vs IH]; intros s Hs Hrun.
  - simpl in Hrun. injection Hrun as <-. now apply built_from_nil.
  - simpl in Hrun.
    destruct (VarInfo_of v) as [x|] eqn:Ex; [|discriminate].
    apply VarInfo_of_inv in Ex as [-> Hlen]. simpl in Hrun.
    destruct (VarSet.insert (info_of v) s) as [s1|] eqn:Eins; [|discriminate].
    simpl in Hrun.
    destruct (insert_Ok_inv _ _ _ Hs Eins) as (Hs1 & Hin1 & Hkeep1 & Hrep1).
    destruct (IH s1 Hs1 Hrun) as (Hs' & Hlens & Hin & Hkeep & Hrep).
    split; [exact Hs'|]. split; [|split; [|split]].
    + intros w [<-|Hw]; [exact Hlen | now apply Hlens].
    + intros e He. apply Hin in He as [He|(w & Hw & ->)].
      * apply Hin1 in He as [->|He]; [right; exists v; split; [now left|reflexivity]
                                      | now left].
      * right. exists w. split; [now right | reflexivity].
    + intros e He. now apply Hkeep, Hkeep1.
    + intros w [<-|Hw]; [|now apply Hrep].
      destruct Hrep1 as (e & He & El & Ev). exists e.
      split; [now apply Hkeep | auto].
Qed.

Lemma built_from_app (vs ws : list CellVariable) (s0 s1 s2 : VarSet.t) :
  built_from vs s0 s1 -> built_from ws s1 s2 -> built_from (vs ++ ws) s0 s2.
Proof.
  intros (_ & Hlen1 & Hin1 & Hkeep1 & Hrep1) (Hs2 & Hlen2 & Hin2 & Hkeep2 & Hrep2).
  split; [exact Hs2|]. split; [|split; [|split]].
  - intros v Hv. apply in_app_or in Hv as [Hv|Hv]; auto.
  - intros e He. apply Hin2 in He as [He|(w & Hw & ->)].
    + apply Hin1 in He as [He|(w & Hw & ->)]; [now left|].
      right. exists w. split; [apply in_or_app; now left | reflexivity].
    + right. exists w. split; [apply in_or_app; now right | reflexivity].
  - auto.
  - intros v Hv. apply in_app_or in Hv as [Hv|Hv]; [|now apply Hrep2].
    destruct (Hrep1 v Hv) as (e & He & El & Ev). exists e. auto.
Qed.

Lemma insert_blocks_inv (block_list : list MeshBlock) (s s' : VarSet.t) :
  sorted s -> insert_blocks block_list s = Ok s' ->
  built_from (flat_map ci_vars block_list) s s'.
Proof.
  revert s. induction block_list as [|pmb rest IH]; intros s Hs Hrun.
  - simpl in Hrun. injection Hrun as <-. now apply built_from_nil.
  - simpl in Hrun.
    destruct (insert_vars (ci_vars pmb) s) as [s1|] eqn:E1; [|discriminate].
    simpl in Hrun. pose proof (insert_vars_inv _ _ _ Hs E1) as H1.
    simpl. eapply built_from_app; [exact H1|].
    apply IH; [exact (proj1 H1) | exact Hrun].
Qed.

Lemma local_sets_inv (ranks : list (list MeshBlock)) (locals : list VarSet.t) :
  local_sets ranks = Ok locals ->
  Forall2 (fun block_list s => built_from (flat_map ci_vars block_list) [] s)
    ranks locals.
Proof.
  revert locals. induction ranks as [|block_list ranks IH]; intros locals Hrun.
  - simpl in Hrun. injection Hrun as <-. constructor.
  - simpl in Hrun.
    destruct (local_unique_vars block_list) as [s|] eqn:Es; [|discriminate].
    simpl in Hrun. destruct (local_sets ranks) as [ss|] eqn:Ess; [|discriminate].
    simpl in Hrun. injection Hrun as <-. constructor; [|now apply IH].
    apply insert_blocks_inv; [apply sorted_nil | exact Es].
Qed.

Lemma ntabs_app (a b : list ascii) : ntabs (a ++ b) = (ntabs a + ntabs b)%nat.
Proof.
  induction a as [|x a IH]; simpl; [reflexivity|].
  destruct (Ascii.eqb x tab); simpl; now rewrite IH.
Qed.

Lemma ntabs_0_iff (a : list ascii) : ntabs a = 0%nat <-> ~ In tab a.
Proof.
  induction a as [|x a IH]; simpl; [tauto|].
  destruct (Ascii.eqb_spec x tab) as [->|Hx].
  - split; [discriminate | intros H; exfalso; apply H; now left].
  - rewrite IH. split; [intros H [E|Hin]; [now apply Hx | now apply H] | tauto].
Qed.

Lemma strchr_prefix (mem : list ascii) (p : nat) :
  strchr mem tab = Some p -> ntabs (take p mem) = 0%nat.
Proof.
  revert p. induction mem as [|x mem IH]; intros p; simpl; [discriminate|].
  destruct (Ascii.eqb x tab) eqn:Ex.
  - intros H. injection H as <-. reflexivity.
  - destruct (Ascii.eqb x NUL); [discriminate|].
    destruct (strchr mem tab) as [q|]; [|discriminate].
    simpl. intros H. injection H as <-. simpl. rewrite Ex. now apply IH.
Qed.

Lemma ntabs_drop_S (buf : list ascii) (n : nat) :
  (ntabs (drop n buf) <= S (ntabs (drop (S n) buf)))%nat.
Proof.
  revert n. induction buf as [|x buf IH]; intros n.
  - rewrite !drop_nil. simpl. lia.
  - destruct n as [|n]; [|apply IH].
    simpl. rewrite drop_0. destruct (Ascii.eqb x tab); lia.
Qed.

(** Every label the loop unpacks, but an overrunning last one, uses up one
    tab of the buffer. *)
Lemma unpack_labels_ntabs (buf slack : list ascii) (ls : list string) :
  unpack_labels buf slack = Ok ls -> (ntabs buf <= length ls)%nat.
Proof.
  remember (length buf) as n eqn:Hn. revert buf ls Hn.
  induction n as [n IH] using lt_wf_ind. intros buf ls Hn Hrun.
  destruct buf as [|c rest]; [simpl; lia|].
  rewrite unpack_labels_cons in Hrun.
  destruct (strchr (c :: rest ++ slack) tab) as [[|p]|] eqn:Estr;
    [discriminate| |discriminate].
  destruct (unpack_labels (drop (S p) rest) slack) as [tail|] eqn:Etail;
    [|discriminate].
  simpl in Hrun. injection Hrun as <-.
  assert (ntabs (drop (S p) rest) <= length tail)%nat as Htail.
  { apply (IH (length (drop (S p) rest))); [|reflexivity | exact Etail].
    subst n. rewrite length_drop. simpl. lia. }
  apply strchr_prefix in Estr.
  change (c :: rest ++ slack) with ((c :: rest) ++ slack) in Estr.
  rewrite take_app, ntabs_app in Estr.
  rewrite <- (take_drop (S p) (c :: rest)), ntabs_app.
  change (drop (S p) (c :: rest)) with (drop p rest).
  pose proof (ntabs_drop_S rest p). simpl length. lia.
Qed.

Lemma ntabs_pack_labels (ls : list string) :
  ntabs (pack_labels ls)
  = (length ls + ntabs (concat (map list_ascii_of_string ls)))%nat.
Proof.
  induction ls as [|l ls IH]; simpl; [reflexivity|].
  rewrite !ntabs_app, IH. simpl. lia.
Qed.

Lemma strchr_nul (cs rest : list ascii) :
  ~ In tab cs -> In NUL cs -> strchr (cs ++ rest) tab = None.
Proof.
  induction cs as [|x cs IH]; simpl; intros Ht Hn; [destruct Hn|].
  destruct (Ascii.eqb_spec x tab) as [->|_]; [tauto|].
  destruct (Ascii.eqb_spec x NUL) as [->|Hx]; [reflexivity|].
  rewrite IH; [reflexivity | tauto | destruct Hn; [congruence | assumption]].
Qed.

(** Labels without tabs that unpack without error are well formed. *)
Lemma unpack_labels_good (ls : list string) (slack : list ascii) :
  (forall l, In l ls -> ~ In tab (list_ascii_of_string l)) ->
  succeeds (unpack_labels (pack_labels ls) slack) ->
  Forall good_label ls.
Proof.
  induction ls as [|l ls IH]; intros Htab Hrun; [constructor|].
  assert (good_label l) as Hl.
  { split; [|split].
    - intros ->. simpl in Hrun. rewrite unpack_labels_cons in Hrun.
      simpl in Hrun. exact Hrun.
    - apply Htab. now left.
    - intros Hnul. simpl in Hrun.
      destruct (list_ascii_of_string l) as [|c cs] eqn:El; [destruct Hnul|].
      assert (~ In tab (c :: cs)) as Hnt by (rewrite <- El; apply Htab; now left).
      simpl in Hrun. rewrite unpack_labels_cons in Hrun.
      replace (c :: ((cs ++ [tab]) ++ pack_labels ls) ++ slack)
        with ((c :: cs) ++ (tab :: pack_labels ls ++ slack)) in Hrun
        by (simpl; now rewrite <- !app_assoc).
      rewrite strchr_nul in Hrun; assumption. }
  constructor; [exact Hl|]. apply IH.
  - intros l' Hl'. apply Htab. now right.
  - simpl in Hrun. rewrite unpack_labels_one in Hrun by exact Hl.
    destruct (unpack_labels (pack_labels ls) slack); [exact I | exact Hrun].
Qed.

(** As many labels out as went in: the labels that went in are well
    formed. *)
Lemma unpack_labels_same_length (ls ls' : list string) (slack : list ascii) :
  unpack_labels (pack_labels ls) slack = Ok ls' ->
  length ls' = length ls ->
  Forall good_label ls.
Proof.
  intros Hrun Hlen.
  pose proof (unpack_labels_ntabs _ _ _ Hrun) as Hn.
  rewrite ntabs_pack_labels, Hlen in Hn.
  assert (ntabs (concat (map list_ascii_of_string ls)) = 0%nat) as H0 by lia.
  apply (unpack_labels_good ls slack); [|now rewrite Hrun].
  intros l Hl. apply ntabs_0_iff in H0. intros Hin. apply H0.
  apply in_concat. exists (list_ascii_of_string l). split; [|exact Hin].
  now apply in_map.
Qed.

Lemma sorted_unique_label (s : VarSet.t) (a b : VarInfo) :
  sorted s -> In a s -> In b s -> label a = label b -> a = b.
Proof.
  induction s as [|y s IH]; intros Hs Ha Hb El; [destruct Ha|].
  apply sorted_cons_inv in Hs as [Hs Hy].
  destruct Ha as [<-|Ha], Hb as [<-|Hb].
  - reflexivity.
  - exfalso. apply (lbl_lt_irrefl (label y)). rewrite El at 2. now apply Hy.
  - exfalso. apply (lbl_lt_irrefl (label y)). rewrite <- El at 2. now apply Hy.
  - now apply IH.
Qed.

Lemma insert_decoded_inv (es : list VarInfo) (s s' : VarSet.t) :
  sorted s ->
  (forall e, In e es -> 1 <= vlen e <= 65535) ->
  insert_decoded (map label es) (map get_info_code es) s = Ok s' ->
  sorted s'
  /\ (forall e, In e s -> In e s')
  /\ (forall e, In e es ->
        exists e', In e' s' /\ label e' = label e /\ vlen e' = vlen e).
Proof.
  revert s. induction es as [|x es IH]; intros s Hs Hlen Hrun.
  - simpl in Hrun. injection Hrun as <-. split; [exact Hs|].
    split; [auto | intros e []].
  - cbn [map insert_decoded] in Hrun.
    rewrite Decode_code in Hrun by (apply Hlen; now left).
    replace {| label := label x; vlen := vlen x; is_sparse := is_sparse x;
               is_vector := is_vector x |} with x in Hrun by now destruct x.
    destruct (VarSet.insert x s) as [s1|] eqn:Eins; [|discriminate].
    simpl in Hrun.
    destruct (insert_Ok_inv _ _ _ Hs Eins) as (Hs1 & _ & Hkeep1 & Hrep1).
    destruct (IH s1 Hs1) as (Hs' & Hkeep & Hrep);
      [intros e He; apply Hlen; now right | exact Hrun |].
    split; [exact Hs'|]. split; [auto|].
    intros e [<-|He]; [|now apply Hrep].
    destruct Hrep1 as (e' & He' & El & Ev). exists e'. auto.
Qed.

Lemma local_sets_world (ranks : list (list MeshBlock)) (locals : list VarSet.t) :
  Forall2 (fun block_list s => built_from (flat_map ci_vars block_list) [] s)
    ranks locals ->
  (forall v, In v (world_vars ranks) ->
     1 <= cv_dim4 v <= 65535 /\ represented v (concat locals))
  /\ (forall e, In e (concat locals) ->
        exists v, In v (world_vars ranks) /\ e = info_of v).
Proof.
  unfold world_vars.
  induction 1 as [|block_list s ranks locals Hb _ IH]; simpl.
  - split; [intros v [] | intros e []].
  - destruct Hb as (_ & Hlen & Hin & _ & Hrep). destruct IH as [IHv IHe].
    rewrite flat_map_app. split.
    + intros v Hv. apply in_app_or in Hv as [Hv|Hv].
      * split; [now apply Hlen|].
        destruct (Hrep v Hv) as (e & He & El & Ev). exists e.
        split; [apply in_or_app; now left | auto].
      * destruct (IHv v Hv) as [Hl (e & He & El & Ev)]. split; [exact Hl|].
        exists e. split; [apply in_or_app; now right | auto].
    + intros e He. apply in_app_or in He as [He|He].
      * destruct (Hin e He) as [[]|(v & Hv & ->)]. exists v.
        split; [apply in_or_app; now left | reflexivity].
      * destruct (IHe e He) as (v & Hv & ->). exists v.
        split; [apply in_or_app; now right | reflexivity].
Qed.

(** Reconciliation that builds a set was given a well-formed run. *)
Lemma reconcile_Ok_well_formed (lower : list (list MeshBlock))
  (mine : list MeshBlock) (higher : list (list MeshBlock)) (slack : list ascii)
  (gvs : VarSet.t) :
  reconcile lower mine higher slack = Ok gvs ->
  well_formed (lower ++ mine :: higher).
Proof.
  unfold reconcile, merge_gathered. set (ranks := lower ++ mine :: higher).
  destruct (local_sets ranks) as [locals|] eqn:Elocals; [|discriminate].
  simpl. destruct (local_unique_vars mine) as [my_set|] eqn:Emy; [|discriminate].
  simpl. rewrite all_labels_buffer_pack, all_codes_map.
  destruct (unpack_labels (pack_labels (VarSet.labels (concat locals))) slack)
    as [all_labels|] eqn:Eunpack; [|discriminate].
  simpl. rewrite length_map.
  destruct (Nat.eqb_spec (length all_labels) (length (concat locals)))
    as [Elen|]; [|discriminate].
  simpl. intros Hrun.
  destruct (local_sets_world ranks locals (local_sets_inv _ _ Elocals))
    as [Hvars Hes].
  assert (Forall good_label (VarSet.labels (concat locals))) as Hgood.
  { apply (unpack_labels_same_length _ all_labels slack Eunpack).
    unfold VarSet.labels. now rewrite length_map. }
  rewrite unpack_labels_pack in Eunpack by exact Hgood.
  injection Eunpack as <-.
  assert (sorted my_set) as Hmy
    by (exact (proj1 (insert_blocks_inv mine [] my_set sorted_nil Emy))).
  destruct (insert_decoded_inv (concat locals) my_set gvs Hmy) as (Hgvs & _ & Hrep).
  { intros e He. destruct (Hes e He) as (v & Hv & ->). now apply Hvars. }
  { exact Hrun. }
  split.
  - intros v Hv. destruct (Hvars v Hv) as [Hlen (e & He & El & _)].
    split; [|exact Hlen]. rewrite <- El.
    rewrite List.Forall_forall in Hgood. apply Hgood.
    unfold VarSet.labels. now apply in_map.
  - intros v w Hv Hw Elbl.
    destruct (Hvars v Hv) as [_ (ev & Hev & Elv & Evv)].
    destruct (Hvars w Hw) as [_ (ew & Hew & Elw & Evw)].
    destruct (Hrep ev Hev) as (ev' & Hev' & Elv' & Evv').
    destruct (Hrep ew Hew) as (ew' & Hew' & Elw' & Evw').
    assert (ev' = ew') as E
      by (apply (sorted_unique_label gvs); [assumption..|congruence]).
    subst ew'. congruence.
Qed.

Lemma example_ranks_well_formed : well_formed [rank_b_a; rank_c].
Proof.
  split.
  - intros v Hv. simpl in Hv.
    destruct Hv as [<-|[<-|[<-|[]]]]; (split; [|simpl; lia]);
      (split; [discriminate|]); split; simpl; intros H;
      repeat (destruct H as [H|H]; [discriminate H|]); exact H.
  - intros v w Hv Hw. simpl in Hv, Hw.
    destruct Hv as [<-|[<-|[<-|[]]]]; destruct Hw as [<-|[<-|[<-|[]]]];
      simpl; intros E; first [reflexivity | discriminate E].
Qed.



(** ** The offset of a rank *)

Lemma add_hsize_small (a n : Z) :
  0 <= a -> 0 <= n -> a + n < 2 ^ 64 -> CInt.add_hsize a n = a + n.
Proof.
  intros Ha Hn Hlt. unfold CInt.add_hsize, CInt.wrap_hsize.
  rewrite (Z.mod_small n) by lia. apply Z.mod_small. lia.
Qed.

Lemma my_offset_loop_sum (nblist : list Z) (count i : nat) (acc : Z) :
  (i + count <= length nblist)%nat ->
  Forall (fun n => 0 <= n <= CInt.int_max) nblist ->
  0 <= acc ->
  acc + Z.of_nat count * CInt.int_max < 2 ^ 64 ->
  my_offset_loop nblist i count acc
    = Some (acc + sum_counts (take count (drop i nblist))).
Proof.
  revert i acc. induction count as [|count IH]; intros i acc Hlen Hall Hacc Hlt.
  - simpl. f_equal. lia.
  - simpl. destruct (nblist !! i) as [n|] eqn:En.
    + assert (0 <= n <= CInt.int_max) as Hn.
      { rewrite List.Forall_forall in Hall. apply Hall.
        apply list_elem_of_In. eapply list_elem_of_lookup_2. exact En. }
      unfold CInt.int_max in *. change (2 ^ 31) with 2147483648 in *.
      change (2 ^ 64) with 18446744073709551616 in *.
      rewrite add_hsize_small
        by (try change (2 ^ 64) with 18446744073709551616; lia).
      rewrite IH; [|lia | exact Hall | lia | lia].
      rewrite (drop_S _ _ _ En). simpl. f_equal. lia.
    + apply lookup_ge_None in En. lia.
Qed.

(** C9. The offset of rank [my_rank] in the block dimension is the sum of
    the block counts of the ranks below it, with no wrap-around, and the
    offsets in the four other dimensions are 0; the offset of rank 0 is 0.
    The block counts and the rank are non-negative [int] values. *)
Theorem local_offset_prefix_sum (nblist : list Z) (my_rank : nat) :
  (my_rank <= length nblist)%nat ->
  Z.of_nat my_rank <= CInt.int_max ->
  Forall (fun n => 0 <= n <= CInt.int_max) nblist ->
  local_offset nblist my_rank
    = Some [sum_counts (take my_rank nblist); 0; 0; 0; 0]
  /\ local_offset nblist 0 = Some [0; 0; 0; 0; 0].
Proof.
  intros Hlen Hrank Hall. split; [|reflexivity].
  unfold local_offset, my_offset.
  rewrite my_offset_loop_sum; [now rewrite drop_0 | lia | exact Hall | lia |].
  unfold CInt.int_max in *.
  change (2 ^ 64) with 18446744073709551616. change (2 ^ 31) with 2147483648 in *.
  nia.
Qed.

Lemma local_offset_prefix_sum_witness :
  local_offset [3; 5; 2; 7] 2 = Some [8; 0; 0; 0; 0].
Proof.
  refine (proj1 (local_offset_prefix_sum [3; 5; 2; 7] 2 _ _ _)).
  - simpl. lia.
  - vm_compute. discriminate.
  - repeat constructor; vm_compute; discriminate.
Defined.

(** ** The dispatch of the boundary functions *)

Lemma DoPhysicalBoundary_iff (flag : BoundaryFlag.t) (face : BoundaryFace.t) (n : Z) :
  DoPhysicalBoundary_ flag face n = true
  <-> physical_flag flag /\ dimensionally_valid face n.
Proof.
  unfold DoPhysicalBoundary_, physical_flag, dimensionally_valid.
  destruct (Z.ltb_spec n 3), (Z.ltb_spec n 2); destruct flag, face; simpl;
    (split;
     [ first [ discriminate
             | intros _; repeat split;
               first [ discriminate | intros [E|E]; first [discriminate E | lia] ] ]
     | intros [(H1 & H2 & H3) [H4 H5]];
       first [ reflexivity | congruence
             | exfalso; assert (3 <= n) by (apply H4; auto); lia
             | exfalso; assert (2 <= n) by (apply H5; auto); lia ] ]).
Qed.

Section DispatchOrder.

Variable MeshBlockData : Type.
Variable face_of_int : nat -> BoundaryFace.t.
Variable pmesh : Mesh MeshBlockData.
Variable coarse : bool.

(** The loop over the faces: the faces whose function it calls, and the
    block data these calls leave. *)
Lemma apply_faces_spec (count i : nat) (st : MeshBlockData * list nat) :
  let faces := List.filter (gated face_of_int pmesh) (seq i count) in
  match apply_faces MeshBlockData face_of_int pmesh coarse i count st with
  | Some (rc', called) =>
      called = rev faces ++ snd st
      /\ rc' = foldl (call_face pmesh coarse) (fst st) faces
      /\ forall f, In f faces -> MeshBndryFnctn pmesh f <> None
  | None =>
      exists f, (i <= f < i + count)%nat
                /\ gated face_of_int pmesh f = true
                /\ MeshBndryFnctn pmesh f = None
  end.
Proof.
  revert i st. induction count as [|count IH]; intros i st; simpl.
  - destruct st as [rc called]. split; [reflexivity|]. split; [reflexivity|].
    intros f [].
  - change (DoPhysicalBoundary_ (boundary_flag pmesh i) (face_of_int i)
              (ndim pmesh)) with (gated face_of_int pmesh i).
    destruct (gated face_of_int pmesh i) eqn:Eg.
    + destruct (MeshBndryFnctn pmesh i) as [bndry|] eqn:Ef.
      * specialize (IH (S i) (bndry (fst st) coarse, i :: snd st)).
        destruct (apply_faces MeshBlockData face_of_int pmesh coarse (S i) count
                    (bndry (fst st) coarse, i :: snd st)) as [[rc' called]|].
        -- destruct IH as (Hc & Hrc & Hfn). simpl in Hc, Hrc. split; [|split].
           ++ rewrite Hc. simpl. now rewrite <- app_assoc.
           ++ rewrite Hrc. simpl.
              replace (call_face pmesh coarse (fst st) i)
                with (bndry (fst st) coarse)
                by (unfold call_face; now rewrite Ef).
              reflexivity.
           ++ intros f [<-|Hf]; [congruence | now apply Hfn].
        -- destruct IH as (f & Hf & Hg & Hn). exists f. split; [lia | auto].
      * exists i. split; [lia|]. split; [exact Eg | exact Ef].
    + specialize (IH (S i) st).
      destruct (apply_faces MeshBlockData face_of_int pmesh coarse (S i) count st)
        as [[rc' called]|].
      * exact IH.
      * destruct IH as (f & Hf & Hg & Hn). exists f. split; [lia | auto].
Qed.

End DispatchOrder.

Lemma gated_iff (MeshBlockData : Type) (face_of_int : nat -> BoundaryFace.t)
  (pmesh : Mesh MeshBlockData) (f : nat) :
  gated face_of_int pmesh f = true
  <-> physical_flag (boundary_flag pmesh f)
      /\ dimensionally_valid (face_of_int f) (ndim pmesh).
Proof. apply DoPhysicalBoundary_iff. Qed.

Lemma filter_seq_sorted (p : nat -> bool) (n i : nat) :
  StronglySorted lt (List.filter p (seq i n)).
Proof.
  revert i. induction n as [|n IH]; intros i; simpl; [constructor|].
  destruct (p i); [|apply IH]. constructor; [apply IH|].
  apply List.Forall_forall. intros f Hf.
  apply filter_In in Hf as [Hf _]. apply in_seq in Hf. lia.
Qed.

(** C8. The dispatcher calls the boundary function of a face if and only
    if the flag of the face is none of block, periodic and undefined and the
    face exists in the dimension of the mesh: when the functions of these
    faces are not null, the faces whose function is called are exactly
    these, each once and in increasing order, and the block data the
    dispatcher leaves are what the calls of these functions, one on the
    result of the other, leave. No x3 face function is called when
    [ndim < 3] and no x2 face function when [ndim < 2], whatever the
    flag. *)
Theorem dispatch_physical_and_dimensional :
  (forall flag face n,
     DoPhysicalBoundary_ flag face n = true
     <-> physical_flag flag /\ dimensionally_valid face n)
  /\ (forall (MeshBlockData : Type) (face_of_int : nat -> BoundaryFace.t)
        (pmesh : Mesh MeshBlockData) (rc : MeshBlockData) (coarse : bool),
        (forall f, (f < BOUNDARY_NFACES)%nat ->
           physical_flag (boundary_flag pmesh f) ->
           dimensionally_valid (face_of_int f) (ndim pmesh) ->
           MeshBndryFnctn pmesh f <> None) ->
        exists rc' called,
          ApplyBoundaryConditionsOnCoarseOrFine MeshBlockData face_of_int
            pmesh rc coarse = Some (rc', called)
          /\ (forall f, In f called <->
                (f < BOUNDARY_NFACES)%nat
                /\ physical_flag (boundary_flag pmesh f)
                /\ dimensionally_valid (face_of_int f) (ndim pmesh))
          /\ StronglySorted lt called
          /\ rc' = foldl (call_face pmesh coarse) rc called)
  /\ (forall flag n, n < 3 ->
        DoPhysicalBoundary_ flag BoundaryFace.inner_x3 n = false
        /\ DoPhysicalBoundary_ flag BoundaryFace.outer_x3 n = false)
  /\ (forall flag n, n < 2 ->
        DoPhysicalBoundary_ flag BoundaryFace.inner_x2 n = false
        /\ DoPhysicalBoundary_ flag BoundaryFace.outer_x2 n = false).
Proof.
  split; [exact DoPhysicalBoundary_iff|]. split; [|split].
  - intros MeshBlockData face_of_int pmesh rc coarse Hfn.
    unfold ApplyBoundaryConditionsOnCoarseOrFine.
    pose proof (apply_faces_spec MeshBlockData face_of_int pmesh coarse
                  BOUNDARY_NFACES 0 (rc, [])) as H.
    assert (forall f,
              In f (List.filter (gated face_of_int pmesh) (seq 0 BOUNDARY_NFACES))
              <-> (f < BOUNDARY_NFACES)%nat
                  /\ physical_flag (boundary_flag pmesh f)
                  /\ dimensionally_valid (face_of_int f) (ndim pmesh)) as Hin.
    { intros f. rewrite filter_In, in_seq, gated_iff. intuition lia. }
    destruct (apply_faces MeshBlockData face_of_int pmesh coarse 0
                BOUNDARY_NFACES (rc, [])) as [[rc' called]|].
    + destruct H as (Hc & Hrc & _). cbn [fst snd] in Hc, Hrc.
      rewrite app_nil_r in Hc. subst called. rewrite rev_involutive.
      eexists _, _. split; [reflexivity|]. split; [exact Hin|].
      split; [apply filter_seq_sorted | exact Hrc].
    + exfalso. destruct H as (f & Hf & Hg & Hn).
      apply gated_iff in Hg as [Hp Hd]. apply (Hfn f); [lia | auto..].
  - intros flag n Hn. unfold DoPhysicalBoundary_.
    rewrite (proj2 (Z.ltb_lt n 3) Hn). destruct flag; simpl; auto.
  - intros flag n Hn. unfold DoPhysicalBoundary_.
    rewrite (proj2 (Z.ltb_lt n 2) Hn).
    rewrite (proj2 (Z.ltb_lt n 3)) by lia. destruct flag; simpl; auto.
Qed.

Lemma dispatch_physical_and_dimensional_witness :
  exists rc' called,
    ApplyBoundaryConditionsOnCoarseOrFine (list nat) example_face_of_int
      recording_mesh [] true = Some (rc', called)
    /\ rc' = [0; 1; 2; 3]%nat
    /\ ~ In 4%nat called /\ ~ In 5%nat called.
Proof.
  destruct (proj1 (proj2 dispatch_physical_and_dimensional) (list nat)
              example_face_of_int recording_mesh [] true)
    as (rc' & called & Hrun & Hin & Hsorted & Hrc).
  - intros f _ _ _. discriminate.
  - exists rc', called. split; [exact Hrun|]. split.
    + assert (called = [0; 1; 2; 3]%nat) as Hcalled
        by (vm_compute in Hrun; now injection Hrun as _ <-).
      rewrite Hrc, Hcalled. reflexivity.
    + split; intros H; apply Hin in H as (_ & _ & [H3 _]); simpl in H3;
        assert (3 <= 2) by (apply H3; auto); lia.
Defined.

(** ** The fill kernels *)

Section Kernels.

Variable dir_int : CoordinateDirection -> Z.

Lemma pack_set_same (q : Z -> Z -> Z -> Z -> R) (l k j i : Z) (v : R) :
  pack_set q l k j i v l k j i = v.
Proof. unfold pack_set. now rewrite !Z.eqb_refl. Qed.

Lemma pack_set_other (q : Z -> Z -> Z -> Z -> R) (l k j i l' k' j' i' : Z) (v : R) :
  (l', k', j', i') <> (l, k, j, i) ->
  pack_set q l k j i v l' k' j' i' = q l' k' j' i'.
Proof.
  intros Hne. unfold pack_set.
  destruct (Z.eqb_spec l' l), (Z.eqb_spec k' k), (Z.eqb_spec j' j),
    (Z.eqb_spec i' i); simpl; try reflexivity.
  exfalso. apply Hne. congruence.
Qed.

Lemma bc_kernel_value (DIR : CoordinateDirection) (TYPE : BCType)
  (ref offset : Z) (vc : Z -> Z) (q : Z -> Z -> Z -> Z -> R) (l k j i : Z) :
  bc_kernel dir_int DIR TYPE ref offset vc q l k j i
  = pack_set q l k j i (fill_value dir_int DIR TYPE ref offset vc q l k j i).
Proof.
  unfold bc_kernel, fill_value, source_index. destruct TYPE; [reflexivity|].
  f_equal. destruct (vc l =? dir_int DIR); lra.
Qed.

(** The source of a ghost cell is no ghost cell. *)
Lemma source_not_ghost (DIR : CoordinateDirection) (SIDE : BCSide) (TYPE : BCType)
  (range : IndexRange) (k j i : Z) :
  ghost_index SIDE range (dir_index DIR k j i) ->
  let '(k', j', i') :=
    source_index DIR TYPE (ref_index SIDE range)
      (reflect_offset SIDE (ref_index SIDE range)) k j i in
  ~ ghost_index SIDE range (dir_index DIR k' j' i').
Proof.
  unfold source_index, ghost_index, ref_index, reflect_offset, dir_index.
  destruct DIR, SIDE, TYPE; simpl; lia.
Qed.

(** The launch, run over ghost cells in any order: every cell visited holds
    the fill value read from the data before the launch, every other cell
    holds what it held. *)
Lemma run_launch_spec (DIR : CoordinateDirection) (SIDE : BCSide) (TYPE : BCType)
  (range : IndexRange) (q : VariablePack) (order : list (Z * Z * Z * Z)) :
  let ref := ref_index SIDE range in
  let offset := reflect_offset SIDE ref in
  let data' := run_launch dir_int DIR TYPE ref offset q order in
  (forall a k j i, In (a, k, j, i) order ->
     ghost_index SIDE range (dir_index DIR k j i)) ->
  (forall a k j i, In (a, k, j, i) order ->
     data' (GetVarIdx (alloc_idxs q) a) k j i
     = fill_value dir_int DIR TYPE ref offset (VectorComponent q) (pack_data q)
         (GetVarIdx (alloc_idxs q) a) k j i)
  /\ (forall l k j i,
        (forall a, In (a, k, j, i) order -> GetVarIdx (alloc_idxs q) a <> l) ->
        data' l k j i = pack_data q l k j i).
Proof.
  intros ref offset. unfold run_launch. simpl.
  induction order as [|[[[a0 k0] j0] i0] order IH] using rev_ind; intros Hghost.
  - split; [intros a k j i []|]. reflexivity.
  - destruct IH as [IHin IHout].
    { intros a k j i H. apply (Hghost a). apply in_or_app. now left. }
    rewrite fold_left_app. simpl.
    set (data1 := fold_left _ order (pack_data q)) in *.
    rewrite bc_kernel_value.
    assert (fill_value dir_int DIR TYPE ref offset (VectorComponent q) data1
              (GetVarIdx (alloc_idxs q) a0) k0 j0 i0
            = fill_value dir_int DIR TYPE ref offset (VectorComponent q) (pack_data q)
                (GetVarIdx (alloc_idxs q) a0) k0 j0 i0) as Hsrc.
    { assert (ghost_index SIDE range (dir_index DIR k0 j0 i0)) as Hg0
        by (apply (Hghost a0); apply in_or_app; right; now left).
      pose proof (source_not_ghost DIR SIDE TYPE range k0 j0 i0 Hg0) as Hng.
      fold ref offset in Hng. unfold fill_value.
      destruct (source_index DIR TYPE ref offset k0 j0 i0) as [[k' j'] i'].
      rewrite (IHout (GetVarIdx (alloc_idxs q) a0) k' j' i'); [reflexivity|].
      intros a Hin _. apply Hng. now apply (Hghost a), in_or_app; left. }
    rewrite Hsrc. split.
    + intros a k j i Hin.
      destruct (decide ((GetVarIdx (alloc_idxs q) a, k, j, i)
                        = (GetVarIdx (alloc_idxs q) a0, k0, j0, i0))) as [E|E].
      * injection E as -> -> -> ->. now rewrite pack_set_same.
      * rewrite pack_set_other by exact E.
        apply in_app_or in Hin as [Hin|[Hin|[]]]; [now apply IHin|].
        exfalso. apply E. congruence.
    + intros l k j i Hnot.
      rewrite pack_set_other.
      * apply IHout. intros a Hin. apply Hnot, in_or_app. now left.
      * intros E. injection E as -> -> -> ->.
        apply (Hnot a0); [|reflexivity]. apply in_or_app. right. now left.
Qed.

End Kernels.

Lemma in_range_list (r : IndexRange) (x : Z) :
  In x (range_list r) <-> in_range r x.
Proof.
  unfold range_list, in_range. rewrite <- list_elem_of_In, elem_of_seqZ. lia.
Qed.

Lemma nested_order_visits : visits_launch nested_order.
Proof.
  intros nb kb jb ib a k j i. unfold nested_order.
  rewrite <- !in_range_list, <- !list_elem_of_In.
  rewrite list_elem_of_bind. split.
  - intros (a' & H & Ha). apply list_elem_of_bind in H as (k' & H & Hk).
    apply list_elem_of_bind in H as (j' & H & Hj).
    apply list_elem_of_bind in H as (i' & H & Hi).
    apply list_elem_of_singleton in H. injection H as -> -> -> ->. auto.
  - intros (Ha & Hk & Hj & Hi). exists a. split; [|exact Ha].
    apply list_elem_of_bind. exists k. split; [|exact Hk].
    apply list_elem_of_bind. exists j. split; [|exact Hj].
    apply list_elem_of_bind. exists i. split; [|exact Hi].
    now apply list_elem_of_singleton.
Qed.

Lemma launch_ghost (DIR : CoordinateDirection) (SIDE : BCSide)
  (bounds : IndexShape) (k j i : Z) :
  ghost_region DIR SIDE bounds ->
  in_range (GetBoundsK bounds (face_domain DIR SIDE)) k ->
  in_range (GetBoundsJ bounds (face_domain DIR SIDE)) j ->
  in_range (GetBoundsI bounds (face_domain DIR SIDE)) i ->
  ghost_index SIDE (interior_range DIR bounds) (dir_index DIR k j i).
Proof.
  unfold ghost_region, ghost_index, in_range, dir_bounds, dir_index.
  destruct DIR, SIDE; simpl; lia.
Qed.

Lemma pack_of_GenericBC (dir_int : CoordinateDirection -> Z)
  (launch_order : IndexRange -> IndexRange -> IndexRange -> IndexRange
                  -> list (Z * Z * Z * Z))
  (DIR : CoordinateDirection) (SIDE : BCSide) (TYPE : BCType)
  (rc : BlockData) (coarse : bool) :
  let bounds := bounds_of rc coarse in
  let q := pack_of rc coarse in
  let ref := ref_index SIDE (interior_range DIR bounds) in
  pack_data (pack_of (GenericBC dir_int launch_order DIR SIDE TYPE rc coarse) coarse)
  = run_launch dir_int DIR TYPE ref (reflect_offset SIDE ref) q
      (launch_order {| s := 0; e := Z.of_nat (length (alloc_idxs q)) - 1 |}
         (GetBoundsK bounds (face_domain DIR SIDE))
         (GetBoundsJ bounds (face_domain DIR SIDE))
         (GetBoundsI bounds (face_domain DIR SIDE))).
Proof. unfold GenericBC, pack_of, bounds_of. destruct coarse; reflexivity. Qed.

(** What [GenericBC] leaves in a cell of the launch. *)
Lemma GenericBC_fill (dir_int : CoordinateDirection -> Z)
  (launch_order : IndexRange -> IndexRange -> IndexRange -> IndexRange
                  -> list (Z * Z * Z * Z))
  (DIR : CoordinateDirection) (SIDE : BCSide) (TYPE : BCType)
  (rc : BlockData) (coarse : bool) (a k j i : Z) :
  let bounds := bounds_of rc coarse in
  let q := pack_of rc coarse in
  let ref := ref_index SIDE (interior_range DIR bounds) in
  visits_launch launch_order ->
  ghost_region DIR SIDE bounds ->
  0 <= a < Z.of_nat (length (alloc_idxs q)) ->
  in_range (GetBoundsK bounds (face_domain DIR SIDE)) k ->
  in_range (GetBoundsJ bounds (face_domain DIR SIDE)) j ->
  in_range (GetBoundsI bounds (face_domain DIR SIDE)) i ->
  pack_data (pack_of (GenericBC dir_int launch_order DIR SIDE TYPE rc coarse) coarse)
    (GetVarIdx (alloc_idxs q) a) k j i
  = fill_value dir_int DIR TYPE ref (reflect_offset SIDE ref)
      (VectorComponent q) (pack_data q) (GetVarIdx (alloc_idxs q) a) k j i.
Proof.
  intros bounds q ref Hvisit Hghost Ha Hk Hj Hi.
  rewrite pack_of_GenericBC. fold bounds q ref.
  apply (run_launch_spec dir_int DIR SIDE TYPE (interior_range DIR bounds) q).
  - intros a' k' j' i' Hin. apply Hvisit in Hin as (_ & Hk' & Hj' & Hi').
    now apply launch_ghost.
  - apply Hvisit. split; [unfold in_range; simpl; lia | auto].
Qed.

Lemma interior_range_along (DIR : CoordinateDirection) (bounds : IndexShape) :
  interior_range DIR bounds = interior_along DIR bounds.
Proof. destruct DIR; reflexivity. Qed.

Lemma face_domain_ghost (DIR : CoordinateDirection) (SIDE : BCSide) :
  face_domain DIR SIDE = ghost_domain DIR SIDE.
Proof. destruct DIR, SIDE; reflexivity. Qed.

Lemma ghost_outside_region (DIR : CoordinateDirection) (SIDE : BCSide)
  (bounds : IndexShape) :
  ghost_outside DIR SIDE bounds -> ghost_region DIR SIDE bounds.
Proof.
  unfold ghost_outside, ghost_region.
  now rewrite face_domain_ghost, interior_range_along.
Qed.

(** C3. The Reflect fill on the face of direction [DIR] and side [SIDE],
    on a block whose ghost cells of that face lie outside the interior
    range [s] to [e] along [DIR]: every ghost cell of the face, at index
    [idx] along [DIR], receives, for every variable of the pack, the value
    the cell of index [offset - idx] along [DIR] held before the fill, the
    indices in the two other directions being the same, where [offset] is
    [2 * s - 1] for the inner side and [2 * e + 1] for the outer side; the
    value is negated if the vector component of the variable is the
    direction of the face and taken as it is otherwise. With the interior
    range 4 to 10 and the inner side, the ghost cell 3 reads the cell 4. *)
Theorem Reflect_fills_mirror (dir_int : CoordinateDirection -> Z)
  (launch_order : IndexRange -> IndexRange -> IndexRange -> IndexRange
                  -> list (Z * Z * Z * Z))
  (DIR : CoordinateDirection) (SIDE : BCSide) (rc : BlockData) (coarse : bool) :
  let bounds := bounds_of rc coarse in
  let range := interior_along DIR bounds in
  let domain := ghost_domain DIR SIDE in
  let q := pack_of rc coarse in
  let q' := pack_of (GenericBC dir_int launch_order DIR SIDE Reflect rc coarse)
              coarse in
  let offset := match SIDE with
                | Inner => 2 * s range - 1
                | Outer => 2 * e range + 1
                end in
  visits_launch launch_order ->
  ghost_outside DIR SIDE bounds ->
  (forall a k j i,
     0 <= a < Z.of_nat (length (alloc_idxs q)) ->
     in_range (GetBoundsK bounds domain) k ->
     in_range (GetBoundsJ bounds domain) j ->
     in_range (GetBoundsI bounds domain) i ->
     let l := GetVarIdx (alloc_idxs q) a in
     let idx := dir_index DIR k j i in
     let '(k', j', i') := with_dir_index DIR (offset - idx) k j i in
     ghost_index SIDE range idx
     /\ pack_data q' l k j i
        = (if VectorComponent q l =? dir_int DIR
           then - pack_data q l k' j' i' else pack_data q l k' j' i')%R)
  /\ reflect_offset SIDE (ref_index SIDE range) = offset
  /\ reflect_offset Inner (ref_index Inner {| s := 4; e := 10 |}) - 3 = 4.
Proof.
  intros bounds range domain q q' offset Hvisit Hghost.
  apply ghost_outside_region in Hghost.
  assert (reflect_offset SIDE (ref_index SIDE range) = offset) as Hoff
    by (unfold reflect_offset, ref_index, offset; destruct SIDE; simpl; lia).
  split; [|split; [exact Hoff | reflexivity]].
  intros a k j i Ha Hk Hj Hi l idx.
  unfold domain in Hk, Hj, Hi. rewrite <- face_domain_ghost in Hk, Hj, Hi.
  pose proof (GenericBC_fill dir_int launch_order DIR SIDE Reflect rc coarse
                a k j i Hvisit Hghost Ha Hk Hj Hi) as Hfill.
  fold bounds q in Hfill. rewrite interior_range_along in Hfill.
  fold range in Hfill. rewrite Hoff in Hfill.
  fold q' l in Hfill.
  pose proof (launch_ghost DIR SIDE bounds k j i Hghost Hk Hj Hi) as Hg.
  rewrite interior_range_along in Hg. fold range idx in Hg.
  unfold fill_value, source_index in Hfill. unfold with_dir_index, idx, dir_index.
  destruct DIR; simpl in Hfill |- *; (split; [exact Hg | exact Hfill]).
Qed.

Lemma Reflect_fills_mirror_witness :
  pack_data
    (pack_of (GenericBC example_dir_int nested_order X1DIR Inner Reflect
                example_block3 false) false) 0 3 2 3
  = pack_data example_pack3 0 3 2 4
  /\ pack_data
       (pack_of (GenericBC example_dir_int nested_order X2DIR Outer Reflect
                   example_block3 false) false) 0 3 7 4
     = (- pack_data example_pack3 0 3 4 4)%R
  /\ pack_data
       (pack_of (GenericBC example_dir_int nested_order X3DIR Inner Reflect
                   example_block3 false) false) 0 1 2 4
     = pack_data example_pack3 0 4 2 4.
Proof.
  split; [|split].
  - refine (proj2 (proj1 (Reflect_fills_mirror example_dir_int nested_order
                            X1DIR Inner example_block3 false
                            nested_order_visits _)
                     0 3 2 3 _ _ _ _)).
    + simpl. lia.
    + simpl. lia.
    + unfold in_range. simpl. lia.
    + unfold in_range. simpl. lia.
    + unfold in_range. simpl. lia.
  - refine (proj2 (proj1 (Reflect_fills_mirror example_dir_int nested_order
                            X2DIR Outer example_block3 false
                            nested_order_visits _)
                     0 3 7 4 _ _ _ _)).
    + simpl. lia.
    + simpl. lia.
    + unfold in_range. simpl. lia.
    + unfold in_range. simpl. lia.
    + unfold in_range. simpl. lia.
  - refine (proj2 (proj1 (Reflect_fills_mirror example_dir_int nested_order
                            X3DIR Inner example_block3 false
                            nested_order_visits _)
                     0 1 2 4 _ _ _ _)).
    + simpl. lia.
    + simpl. lia.
    + unfold in_range. simpl. lia.
    + unfold in_range. simpl. lia.
    + unfold in_range. simpl. lia.
Defined.

(** C7. The Outflow fill on the face of direction [DIR] and side [SIDE],
    on a block whose ghost cells of that face lie outside the interior
    range along [DIR]: every ghost cell of the face receives, for every
    variable of the pack, exactly the value held before the fill by the
    cell with the same indices in the two other directions and the
    reference index along [DIR], the start of the interior range for the
    inner side and its end for the outer side. *)
Theorem Outflow_fills_reference (dir_int : CoordinateDirection -> Z)
  (launch_order : IndexRange -> IndexRange -> IndexRange -> IndexRange
                  -> list (Z * Z * Z * Z))
  (DIR : CoordinateDirection) (SIDE : BCSide) (rc : BlockData) (coarse : bool) :
  let bounds := bounds_of rc coarse in
  let range := interior_along DIR bounds in
  let domain := ghost_domain DIR SIDE in
  let q := pack_of rc coarse in
  let q' := pack_of (GenericBC dir_int launch_order DIR SIDE Outflow rc coarse)
              coarse in
  let ref := match SIDE with Inner => s range | Outer => e range end in
  visits_launch launch_order ->
  ghost_outside DIR SIDE bounds ->
  forall a k j i,
    0 <= a < Z.of_nat (length (alloc_idxs q)) ->
    in_range (GetBoundsK bounds domain) k ->
    in_range (GetBoundsJ bounds domain) j ->
    in_range (GetBoundsI bounds domain) i ->
    let l := GetVarIdx (alloc_idxs q) a in
    let '(k', j', i') := with_dir_index DIR ref k j i in
    ghost_index SIDE range (dir_index DIR k j i)
    /\ pack_data q' l k j i = pack_data q l k' j' i'.
Proof.
  intros bounds range domain q q' ref Hvisit Hghost a k j i Ha Hk Hj Hi l.
  apply ghost_outside_region in Hghost.
  unfold domain in Hk, Hj, Hi. rewrite <- face_domain_ghost in Hk, Hj, Hi.
  pose proof (GenericBC_fill dir_int launch_order DIR SIDE Outflow rc coarse
                a k j i Hvisit Hghost Ha Hk Hj Hi) as Hfill.
  fold bounds q in Hfill. rewrite interior_range_along in Hfill.
  fold range in Hfill. fold q' l in Hfill.
  pose proof (launch_ghost DIR SIDE bounds k j i Hghost Hk Hj Hi) as Hg.
  rewrite interior_range_along in Hg. fold range in Hg.
  unfold fill_value, source_index, ref_index in Hfill.
  unfold with_dir_index, ref.
  destruct DIR, SIDE; simpl in Hfill |- *; (split; [exact Hg | exact Hfill]).
Qed.

Lemma Outflow_fills_reference_witness :
  pack_data
    (pack_of (GenericBC example_dir_int nested_order X1DIR Outer Outflow
                example_block3 true) true) 0 3 2 13
  = pack_data example_pack3 0 3 2 10
  /\ pack_data
       (pack_of (GenericBC example_dir_int nested_order X2DIR Inner Outflow
                   example_block3 true) true) 0 3 0 4
     = pack_data example_pack3 0 3 2 4
  /\ pack_data
       (pack_of (GenericBC example_dir_int nested_order X3DIR Outer Outflow
                   example_block3 true) true) 0 11 2 4
     = pack_data example_pack3 0 8 2 4.
Proof.
  split; [|split].
  - refine (proj2 (Outflow_fills_reference example_dir_int nested_order
                     X1DIR Outer example_block3 true nested_order_visits _
                     0 3 2 13 _ _ _ _)).
    + simpl. lia.
    + simpl. lia.
    + unfold in_range. simpl. lia.
    + unfold in_range. simpl. lia.
    + unfold in_range. simpl. lia.
  - refine (proj2 (Outflow_fills_reference example_dir_int nested_order
                     X2DIR Inner example_block3 true nested_order_visits _
                     0 3 0 4 _ _ _ _)).
    + simpl. lia.
    + simpl. lia.
    + unfold in_range. simpl. lia.
    + unfold in_range. simpl. lia.
    + unfold in_range. simpl. lia.
  - refine (proj2 (Outflow_fills_reference example_dir_int nested_order
                     X3DIR Outer example_block3 true nested_order_visits _
                     0 11 2 4 _ _ _ _)).
    + simpl. lia.
    + simpl. lia.
    + unfold in_range. simpl. lia.
    + unfold in_range. simpl. lia.
    + unfold in_range. simpl. lia.
Defined.

(** ** Machine arithmetic of the sizes *)

Lemma wrap_int_small (x : Z) :
  0 <= x <= CInt.int_max -> CInt.wrap_int x = x.
Proof.
  unfold CInt.wrap_int, CInt.int_max. intros H.
  change (2 ^ 31) with 2147483648 in *. change (2 ^ 32) with 4294967296.
  rewrite Z.mod_small by lia. lia.
Qed.

Lemma wrap_hsize_small (x : Z) :
  0 <= x < 2 ^ 64 -> CInt.wrap_hsize x = x.
Proof. intros H. unfold CInt.wrap_hsize. now apply Z.mod_small. Qed.

(** The product of three [int]s wraps once. *)
Lemma wrap_int_mul_l (a b : Z) :
  CInt.wrap_int (CInt.wrap_int a * b) = CInt.wrap_int (a * b).
Proof.
  unfold CInt.wrap_int. f_equal.
  pose proof (Z.div_mod (a + 2 ^ 31) (2 ^ 32) ltac:(lia)) as H.
  set (d := (a + 2 ^ 31) / 2 ^ 32) in *.
  set (r := (a + 2 ^ 31) mod 2 ^ 32) in *.
  assert (a = 2 ^ 32 * d + r - 2 ^ 31) as Ha by lia.
  clearbody d r. clear H. subst a.
  replace ((2 ^ 32 * d + r - 2 ^ 31) * b + 2 ^ 31)
    with ((r - 2 ^ 31) * b + 2 ^ 31 + d * b * 2 ^ 32) by ring.
  now rewrite Z_mod_plus_full.
Qed.

Lemma ncells_nonneg (ob : OutputBounds) : valid_bounds ob -> 0 <= ncells ob.
Proof. intros (H1 & H2 & H3). unfold ncells. nia. Qed.

(** When the number of cells of a block fits an [int], [varSize] is this
    number. *)
Lemma varSize_exact (ob : OutputBounds) :
  valid_bounds ob -> cells_fit ob -> varSize ob = ncells ob.
Proof.
  intros Hob Hfit. pose proof (ncells_nonneg ob Hob) as Hn.
  unfold cells_fit in Hfit. unfold varSize, CInt.mul_int.
  rewrite wrap_int_mul_l. fold (ncells ob).
  rewrite wrap_int_small by lia. apply wrap_hsize_small.
  unfold CInt.int_max in Hfit. lia.
Qed.

(** The count of the [memset] is then the number of values of a block. *)
Lemma memset_count (ob : OutputBounds) (vlen : Z) :
  valid_bounds ob -> cells_fit ob -> 0 <= vlen <= CInt.int_max ->
  Z.to_nat (CInt.mul_hsize (varSize ob) vlen) = block_size ob vlen.
Proof.
  intros Hob Hfit Hv. pose proof (ncells_nonneg ob Hob) as Hn.
  unfold CInt.mul_hsize, block_size. rewrite varSize_exact by assumption.
  unfold cells_fit, CInt.int_max in *.
  rewrite (wrap_hsize_small vlen) by lia.
  rewrite wrap_hsize_small; [reflexivity|].
  change (2 ^ 64) with (2 ^ 32 * 2 ^ 32). split; [nia|].
  assert (ncells ob * vlen <= (2 ^ 31 - 1) * (2 ^ 31 - 1)) by nia. lia.
Qed.

Lemma vlen_max_acc (vars : list VarInfo) (acc : Z) :
  acc <= foldl (fun m vinfo => Z.max m (vlen vinfo)) acc vars
  /\ (forall v, In v vars ->
        vlen v <= foldl (fun m vinfo => Z.max m (vlen vinfo)) acc vars)
  /\ forall M, acc <= M -> (forall v, In v vars -> vlen v <= M) ->
       foldl (fun m vinfo => Z.max m (vlen vinfo)) acc vars <= M.
Proof.
  revert acc. induction vars as [|w vars IH]; intros acc; simpl.
  - split; [lia|]. split; [intros v [] | auto].
  - destruct (IH (Z.max acc (vlen w))) as (Hacc & Hin & Hle).
    split; [lia|]. split.
    + intros v [<-|Hv]; [lia | now apply Hin].
    + intros M HM Hall. apply Hle; [|auto].
      specialize (Hall w (or_introl eq_refl)). lia.
Qed.

Lemma vlen_max_bounds (vars : list VarInfo) :
  int_lengths vars -> 0 <= vlen_max vars <= CInt.int_max.
Proof.
  intros Hlen. destruct (vlen_max_acc vars 0) as (H0 & _ & Hle).
  split; [exact H0|]. apply Hle; [unfold CInt.int_max; lia|].
  intros v Hv. apply Hlen, Hv.
Qed.

(** When the sizes fit, the staging buffer has the size it is meant to
    have. *)
Lemma tmpData_size_exact (ob : OutputBounds) (all_unique_vars : VarSet.t)
  (block_list : list MeshBlock) :
  valid_bounds ob -> int_lengths all_unique_vars ->
  sizes_fit ob all_unique_vars (length block_list) ->
  tmpData_size ob all_unique_vars block_list
  = staging_size ob all_unique_vars (length block_list).
Proof.
  intros Hob Hlen (Hcells & Hnb & Htotal).
  pose proof (ncells_nonneg ob Hob) as Hn.
  pose proof (vlen_max_bounds all_unique_vars Hlen) as Hmax.
  unfold tmpData_size, staging_size, CInt.mul_hsize.
  rewrite varSize_exact by assumption.
  rewrite wrap_int_small by lia.
  unfold cells_fit, CInt.int_max in *.
  rewrite (wrap_hsize_small (vlen_max all_unique_vars)) by lia.
  rewrite (wrap_hsize_small (Z.of_nat (length block_list))) by lia.
  rewrite (wrap_hsize_small (ncells ob * vlen_max all_unique_vars)).
  - rewrite wrap_hsize_small; [reflexivity|]. split; [|exact Htotal].
    apply Z.mul_nonneg_nonneg; [apply Z.mul_nonneg_nonneg|]; lia.
  - change (2 ^ 64) with (2 ^ 32 * 2 ^ 32). split; [nia|].
    assert (ncells ob * vlen_max all_unique_vars
            <= (2 ^ 31 - 1) * (2 ^ 31 - 1)) by nia.
    lia.
Qed.

(** ** The search of a block for a variable *)

Lemma find_var_first (var_name : string) (pmb : MeshBlock) (v : CellVariable) :
  find_var var_name (ci_vars pmb) = Some v <-> first_var var_name pmb v.
Proof.
  unfold first_var. induction (ci_vars pmb) as [|w vars IH]; simpl.
  - split; [discriminate|]. intros (before & after & E & _).
    now destruct before.
  - destruct (String.eqb_spec var_name (cv_label w)) as [El|El].
    + split.
      * intros H. injection H as <-. exists [], vars.
        split; [reflexivity|]. split; [now symmetry | intros x []].
      * intros ([|w' before] & after & E & Hv & Hfirst);
          injection E as -> E.
        -- reflexivity.
        -- exfalso. apply (Hfirst w'); [now left | now symmetry].
    + rewrite IH. split.
      * intros (before & after & -> & Hv & Hfirst).
        exists (w :: before), after. split; [reflexivity|].
        split; [exact Hv|]. intros x [<-|Hx]; [congruence | now apply Hfirst].
      * intros ([|w' before] & after & E & Hv & Hfirst);
          injection E as -> E.
        -- congruence.
        -- exists before, after. split; [exact E|]. split; [exact Hv|].
           intros x Hx. apply Hfirst. now right.
Qed.

(** The search finds a variable exactly on the blocks that hold one of the
    label. *)
Lemma has_var_block_has (var_name : string) (pmb : MeshBlock) :
  has_var var_name pmb = block_has var_name pmb.
Proof.
  unfold has_var, block_has. induction (ci_vars pmb) as [|w vars IH]; simpl;
    [reflexivity|].
  rewrite (String.eqb_sym (cv_label w) var_name).
  destruct (var_name =? cv_label w)%string; [reflexivity | exact IH].
Qed.

Lemma found_on_held_on (block_list : list MeshBlock) (vinfo : VarInfo) :
  found_on block_list vinfo = held_on block_list vinfo.
Proof.
  unfold found_on, held_on. induction block_list as [|pmb rest IH]; simpl;
    [reflexivity|].
  now rewrite has_var_block_has, IH.
Qed.

Lemma block_has_false (var_name : string) (pmb : MeshBlock) :
  block_has var_name pmb = false ->
  find_var var_name (ci_vars pmb) = None.
Proof.
  rewrite <- has_var_block_has. unfold has_var.
  now destruct (find_var var_name (ci_vars pmb)).
Qed.

(** ** Packing the staging buffer *)

Section Packing.

Variable OutT : Type.
Variable zero : OutT.
Variable cast : R -> OutT.

Lemma store_nil (st : list OutT * nat) : store [] st = st.
Proof. now destruct st. Qed.

Lemma store_app (a b : list OutT) (st : list OutT * nat) :
  store (a ++ b) st = store b (store a st).
Proof.
  destruct st as [buf idx]. unfold store. simpl. f_equal.
  - apply list_inserts_app_l.
  - rewrite length_app. lia.
Qed.

Lemma foldl_store_bind {B : Type} (g : B -> list OutT) (xs : list B)
  (st : list OutT * nat) :
  foldl (fun st x => store (g x) st) st xs = store (xs ≫= g) st.
Proof.
  revert st. induction xs as [|x xs IH]; intros st; simpl.
  - now rewrite store_nil.
  - now rewrite IH, store_app.
Qed.

Lemma foldl_ext_fun {A B : Type} (f g : A -> B -> A) (a : A) (xs : list B) :
  (forall a x, f a x = g a x) -> foldl f a xs = foldl g a xs.
Proof.
  intros Hfg. revert a. induction xs as [|x xs IH]; intros a; simpl;
    [reflexivity | now rewrite Hfg, IH].
Qed.

Lemma copy_cell_store (v_h : Z -> Z -> Z -> Z -> R) (vlen k j i : Z)
  (st : list OutT * nat) :
  copy_cell OutT cast v_h vlen k j i st
  = store (l ← seqZ 0 vlen; [cast (v_h l k j i)]) st.
Proof.
  unfold copy_cell. rewrite <- foldl_store_bind. apply foldl_ext_fun.
  intros [buf idx] l. reflexivity.
Qed.

Lemma copy_block_store (ob : OutputBounds) (v_h : Z -> Z -> Z -> Z -> R)
  (vlen : Z) (st : list OutT * nat) :
  copy_block OutT cast ob v_h vlen st = store (block_values cast ob v_h vlen) st.
Proof.
  unfold copy_block, block_values.
  rewrite <- foldl_store_bind. apply foldl_ext_fun. intros st1 k.
  rewrite <- foldl_store_bind. apply foldl_ext_fun. intros st2 j.
  rewrite <- foldl_store_bind. apply foldl_ext_fun. intros st3 i.
  apply copy_cell_store.
Qed.

Lemma length_bind_const {A B : Type} (g : A -> list B) (xs : list A) (n : nat) :
  (forall x, length (g x) = n) -> length (xs ≫= g) = (length xs * n)%nat.
Proof.
  intros Hg. induction xs as [|x xs IH]; [reflexivity|].
  change ((x :: xs) ≫= g) with (g x ++ (xs ≫= g)).
  rewrite length_app, Hg, IH. simpl. lia.
Qed.

Lemma length_range_list (r : IndexRange) :
  length (range_list r) = Z.to_nat (e r - s r + 1).
Proof. apply length_seqZ. Qed.

Lemma length_block_values (ob : OutputBounds) (v_h : Z -> Z -> Z -> Z -> R)
  (vlen : Z) :
  valid_bounds ob -> 0 <= vlen ->
  length (block_values cast ob v_h vlen) = block_size ob vlen.
Proof.
  intros (H1 & H2 & H3) Hv. unfold block_values, block_size, ncells.
  rewrite (length_bind_const _ _
             (Z.to_nat (nx2 ob) * (Z.to_nat (nx1 ob) * Z.to_nat vlen))).
  - rewrite length_range_list. fold (nx3 ob). nia.
  - intros k. rewrite (length_bind_const _ _ (Z.to_nat (nx1 ob) * Z.to_nat vlen)).
    + rewrite length_range_list. reflexivity.
    + intros j. rewrite (length_bind_const _ _ (Z.to_nat vlen)).
      * rewrite length_range_list. reflexivity.
      * intros i. rewrite (length_bind_const _ _ 1%nat); [|reflexivity].
        rewrite length_seqZ. lia.
Qed.

(** When the number of cells fits an [int], the step of a block stores as
    many values as a block has, found or not. *)
Lemma length_block_data (ob : OutputBounds) (vinfo : VarInfo) (pmb : MeshBlock) :
  valid_bounds ob -> cells_fit ob -> 0 <= vlen vinfo <= CInt.int_max ->
  length (block_data zero cast ob vinfo pmb) = block_size ob (vlen vinfo).
Proof.
  intros Hob Hfit Hv. unfold block_data.
  destruct (find_var (label vinfo) (ci_vars pmb)).
  - apply length_block_values; [exact Hob | lia].
  - rewrite length_replicate. now apply memset_count.
Qed.

(** One block: when the variable is sparse, or the block holds it, the step
    succeeds, the values of the block are stored from the index on, and the
    entry of the sparse map is assigned. *)
Lemma pack_block_ok (ob : OutputBounds) (sparse_field_idx : gmap string nat)
  (num_sparse : nat) (vinfo : VarInfo) (b_idx : nat) (pmb : MeshBlock)
  (st : PackState OutT) (sparse_idx : nat) :
  (is_sparse vinfo = true -> sparse_field_idx !! label vinfo = Some sparse_idx) ->
  (is_sparse vinfo = false -> has_var (label vinfo) pmb = true) ->
  pack_block OutT zero cast ob sparse_field_idx num_sparse vinfo b_idx pmb st
  = Ok {| tmpData := list_inserts (index st) (block_data zero cast ob vinfo pmb)
                       (tmpData st);
          index := (index st + length (block_data zero cast ob vinfo pmb))%nat;
          found_any := found_any st || has_var (label vinfo) pmb;
          sparse_expanded :=
            if is_sparse vinfo
            then <[(b_idx * num_sparse + sparse_idx)%nat
                   := Some (has_var (label vinfo) pmb)]> (sparse_expanded st)
            else sparse_expanded st |}.
Proof.
  intros Hsp Hdense. unfold pack_block, block_data, has_var in *.
  destruct (find_var (label vinfo) (ci_vars pmb)) as [v|] eqn:Efind.
  - rewrite copy_block_store. unfold store. simpl.
    destruct (is_sparse vinfo) eqn:Esp.
    + rewrite Hsp by reflexivity. simpl. rewrite orb_true_r.
      f_equal. f_equal. lia.
    + simpl. rewrite orb_true_r. f_equal. f_equal. lia.
  - destruct (is_sparse vinfo) eqn:Esp.
    + rewrite Hsp by reflexivity. simpl. rewrite orb_false_r.
      now rewrite length_replicate.
    + discriminate Hdense; reflexivity.
Qed.

(** One block: a dense variable that the block lacks is fatal. *)
Lemma pack_block_dense_missing (ob : OutputBounds)
  (sparse_field_idx : gmap string nat) (num_sparse : nat) (vinfo : VarInfo)
  (b_idx : nat) (pmb : MeshBlock) (st : PackState OutT) :
  is_sparse vinfo = false -> has_var (label vinfo) pmb = false ->
  pack_block OutT zero cast ob sparse_field_idx num_sparse vinfo b_idx pmb st
  = Fatal (DenseMissing (label vinfo)).
Proof.
  intros Hd Hm. unfold pack_block, has_var in *.
  destruct (find_var (label vinfo) (ci_vars pmb)); [discriminate|].
  now rewrite Hd.
Qed.

End Packing.

Section PackingLoops.

Variable OutT : Type.
Variable zero : OutT.
Variable cast : R -> OutT.
Variable ob : OutputBounds.
Variable sparse_field_idx : gmap string nat.
Variable num_sparse : nat.
Variable vinfo : VarInfo.

(** The loop over the blocks fails on a dense variable that a block lacks,
    and the error names the variable. *)
Lemma pack_blocks_dense_missing (block_list : list MeshBlock) (b_idx : nat)
  (st : PackState OutT) :
  is_sparse vinfo = false ->
  (exists pmb, In pmb block_list /\ has_var (label vinfo) pmb = false) ->
  pack_blocks OutT zero cast ob sparse_field_idx num_sparse vinfo b_idx
    block_list st = Fatal (DenseMissing (label vinfo)).
Proof.
  intros Hd. revert b_idx st.
  induction block_list as [|pmb rest IH]; intros b_idx st (p & Hp & Hmiss);
    [destruct Hp|].
  simpl. destruct (has_var (label vinfo) pmb) eqn:Ehas.
  - rewrite (pack_block_ok OutT zero cast ob sparse_field_idx num_sparse vinfo
               b_idx pmb st 0%nat)
      by (congruence || auto).
    simpl. apply IH. destruct Hp as [<-|Hp]; [congruence | eauto].
  - now rewrite pack_block_dense_missing.
Qed.

(** The loop over the blocks, when the variable is sparse or on every
    block. *)
Lemma pack_blocks_ok (sparse_idx : nat) (block_list : list MeshBlock)
  (b_idx : nat) (st : PackState OutT) :
  (is_sparse vinfo = true -> sparse_field_idx !! label vinfo = Some sparse_idx) ->
  (is_sparse vinfo = false ->
   forall pmb, In pmb block_list -> has_var (label vinfo) pmb = true) ->
  pack_blocks OutT zero cast ob sparse_field_idx num_sparse vinfo b_idx
    block_list st
  = Ok {| tmpData :=
            list_inserts (index st)
              (block_list ≫= block_data zero cast ob vinfo) (tmpData st);
          index := (index st
                    + length (block_list ≫= block_data zero cast ob vinfo))%nat;
          found_any := found_any st || found_on block_list vinfo;
          sparse_expanded :=
            if is_sparse vinfo
            then mark_blocks num_sparse sparse_idx (label vinfo) b_idx
                   block_list (sparse_expanded st)
            else sparse_expanded st |}.
Proof.
  intros Hsp. revert b_idx st.
  induction block_list as [|pmb rest IH]; intros b_idx st Hdense.
  - simpl. destruct st as [buf idx fa se]. simpl.
    rewrite orb_false_r, Nat.add_0_r. now destruct (is_sparse vinfo).
  - simpl pack_blocks.
    rewrite (pack_block_ok OutT zero cast ob sparse_field_idx num_sparse vinfo
               b_idx pmb st sparse_idx Hsp)
      by (intros Hd; apply Hdense; [exact Hd | now left]).
    simpl. rewrite IH by (intros Hd p Hp; apply Hdense; [exact Hd | now right]).
    simpl. f_equal. f_equal.
    + change ((pmb :: rest) ≫= block_data zero cast ob vinfo)
        with (block_data zero cast ob vinfo pmb
              ++ (rest ≫= block_data zero cast ob vinfo)).
      rewrite list_inserts_app_l. f_equal. lia.
    + change ((pmb :: rest) ≫= block_data zero cast ob vinfo)
        with (block_data zero cast ob vinfo pmb
              ++ (rest ≫= block_data zero cast ob vinfo)).
      rewrite length_app.
      change (list_bind _ _ (block_data zero cast ob vinfo) rest)
        with (rest ≫= block_data zero cast ob vinfo).
      lia.
    + unfold found_on. simpl. now rewrite orb_assoc.
    + now destruct (is_sparse vinfo).
Qed.

End PackingLoops.

Lemma mark_blocks_length (num_sparse sparse_idx : nat) (var_name : string)
  (block_list : list MeshBlock) (b_idx : nat) (expanded : list (option bool)) :
  length (mark_blocks num_sparse sparse_idx var_name b_idx block_list expanded)
  = length expanded.
Proof.
  revert b_idx expanded. induction block_list as [|pmb rest IH];
    intros b_idx expanded; simpl; [reflexivity|].
  now rewrite IH, length_insert.
Qed.

(** An entry outside the column of the variable, or of a block before
    [b_idx], is left as it was. *)
Lemma mark_blocks_other (num_sparse sparse_idx : nat) (var_name : string)
  (block_list : list MeshBlock) (b_idx : nat) (expanded : list (option bool))
  (q : nat) :
  (forall m, (m < length block_list)%nat ->
             q <> ((b_idx + m) * num_sparse + sparse_idx)%nat) ->
  mark_blocks num_sparse sparse_idx var_name b_idx block_list expanded !! q
  = expanded !! q.
Proof.
  revert b_idx expanded. induction block_list as [|pmb rest IH];
    intros b_idx expanded Hq; simpl; [reflexivity|].
  rewrite IH.
  - apply list_lookup_insert_ne. intros E. apply (Hq 0%nat); [simpl; lia|].
    rewrite Nat.add_0_r. now symmetry.
  - intros m Hm. replace (S b_idx + m)%nat with (b_idx + S m)%nat by lia.
    apply Hq. simpl. lia.
Qed.

(** The entry of a block in the column of the variable says whether the
    block holds the variable. *)
Lemma mark_blocks_lookup (num_sparse sparse_idx : nat) (var_name : string)
  (block_list : list MeshBlock) (b_idx : nat) (expanded : list (option bool))
  (m : nat) (pmb : MeshBlock) :
  (sparse_idx < num_sparse)%nat ->
  block_list !! m = Some pmb ->
  ((b_idx + m) * num_sparse + sparse_idx < length expanded)%nat ->
  mark_blocks num_sparse sparse_idx var_name b_idx block_list expanded
    !! ((b_idx + m) * num_sparse + sparse_idx)%nat
  = Some (Some (has_var var_name pmb)).
Proof.
  intros Hidx. revert b_idx expanded m.
  induction block_list as [|p rest IH]; intros b_idx expanded m Hm Hlen;
    [discriminate Hm|].
  simpl. destruct m as [|m].
  - injection Hm as ->. rewrite Nat.add_0_r in *.
    rewrite mark_blocks_other.
    + now apply list_lookup_insert_eq.
    + intros m _. nia.
  - replace (b_idx + S m)%nat with (S b_idx + m)%nat in * by lia.
    apply IH; [exact Hm | now rewrite length_insert].
Qed.

(** The values of block [m] lie in the [m]-th chunk of the buffer. *)
Lemma lookup_bind_chunk {A B : Type} (g : A -> list B) (xs : list A) (n : nat)
  (m r : nat) (x : A) :
  (forall y, length (g y) = n) ->
  xs !! m = Some x -> (r < n)%nat ->
  (xs ≫= g) !! (m * n + r)%nat = g x !! r.
Proof.
  intros Hg. revert m. induction xs as [|y xs IH]; intros m Hm Hr;
    [discriminate Hm|].
  change ((y :: xs) ≫= g) with (g y ++ (xs ≫= g)).
  destruct m as [|m].
  - injection Hm as ->. simpl. apply lookup_app_l. now rewrite Hg.
  - rewrite lookup_app_r by (rewrite Hg; simpl; lia).
    rewrite Hg. replace (S m * n + r - n)%nat with (m * n + r)%nat by (simpl; lia).
    now apply IH.
Qed.

Lemma write_variable_dense_missing (OutT : Type) (zero : OutT) (cast : R -> OutT)
  (ob : OutputBounds) (sparse_field_idx : gmap string nat) (num_sparse : nat)
  (block_list : list MeshBlock) (vinfo : VarInfo) (ws : WriterState OutT) :
  is_sparse vinfo = false ->
  (exists pmb, In pmb block_list /\ has_var (label vinfo) pmb = false) ->
  write_variable OutT zero cast ob sparse_field_idx num_sparse block_list vinfo ws
  = Fatal (DenseMissing (label vinfo)).
Proof.
  intros Hd Hmiss. unfold write_variable.
  now rewrite pack_blocks_dense_missing.
Qed.

Lemma write_variable_ok (OutT : Type) (zero : OutT) (cast : R -> OutT)
  (ob : OutputBounds) (sparse_field_idx : gmap string nat) (num_sparse : nat)
  (block_list : list MeshBlock) (vinfo : VarInfo) (ws : WriterState OutT)
  (sparse_idx : nat) :
  (is_sparse vinfo = true -> sparse_field_idx !! label vinfo = Some sparse_idx) ->
  (is_sparse vinfo = false ->
   forall pmb, In pmb block_list -> has_var (label vinfo) pmb = true) ->
  let data :=
    list_inserts 0 (block_list ≫= block_data zero cast ob vinfo)
      (replicate (length (ws_tmpData ws)) zero) in
  write_variable OutT zero cast ob sparse_field_idx num_sparse block_list vinfo ws
  = Ok {| ws_tmpData := data;
          ws_sparse_expanded :=
            if is_sparse vinfo
            then mark_blocks num_sparse sparse_idx (label vinfo) 0 block_list
                   (ws_sparse_expanded ws)
            else ws_sparse_expanded ws;
          ws_writes :=
            if found_on block_list vinfo
            then {| write_name := label vinfo; write_data := data |}
                   :: ws_writes ws
            else ws_writes ws |}.
Proof.
  intros Hsp Hdense data. unfold write_variable.
  now rewrite (pack_blocks_ok OutT zero cast ob sparse_field_idx num_sparse
                 vinfo sparse_idx block_list 0 _ Hsp Hdense).
Qed.

(** C4. The packing of one variable of the set over the local blocks,
    into a staging buffer that has a place for every value of the variable
    on every local block, the number of cells of a block fitting an [int];
    a block holds the variable when one of its variables has the label. If
    the variable is dense and a block lacks it, the packing raises the
    fatal error that names the variable, and so does the step of every
    such block. If the variable is sparse, the packing raises no error;
    for every local block, the entry of the block in the column of the
    variable in the sparse map is true when the block holds the variable
    and false when it lacks it, and the region of a block that lacks it
    holds zeros only. *)
Theorem packing_of_missing_variable (OutT : Type) (zero : OutT)
  (cast : R -> OutT) (ob : OutputBounds) (sparse_field_idx : gmap string nat)
  (num_sparse : nat) (block_list : list MeshBlock) (vinfo : VarInfo)
  (ws : WriterState OutT) :
  let N := block_size ob (vlen vinfo) in
  valid_bounds ob -> cells_fit ob -> 0 <= vlen vinfo <= CInt.int_max ->
  (length block_list * N <= length (ws_tmpData ws))%nat ->
  (is_sparse vinfo = false ->
   (forall b_idx pmb st,
      block_has (label vinfo) pmb = false ->
      pack_block OutT zero cast ob sparse_field_idx num_sparse vinfo b_idx pmb st
      = Fatal (DenseMissing (label vinfo)))
   /\ ((exists pmb, In pmb block_list /\ block_has (label vinfo) pmb = false) ->
       write_variable OutT zero cast ob sparse_field_idx num_sparse block_list
         vinfo ws = Fatal (DenseMissing (label vinfo))))
  /\ (is_sparse vinfo = true ->
      forall sparse_idx,
        sparse_field_idx !! label vinfo = Some sparse_idx ->
        (sparse_idx < num_sparse)%nat ->
        length (ws_sparse_expanded ws) = (length block_list * num_sparse)%nat ->
        exists ws',
          write_variable OutT zero cast ob sparse_field_idx num_sparse
            block_list vinfo ws = Ok ws'
          /\ forall b_idx pmb,
               block_list !! b_idx = Some pmb ->
               ws_sparse_expanded ws' !! (b_idx * num_sparse + sparse_idx)%nat
               = Some (Some (block_has (label vinfo) pmb))
               /\ (block_has (label vinfo) pmb = false ->
                   forall p, (b_idx * N <= p < (b_idx + 1) * N)%nat ->
                             ws_tmpData ws' !! p = Some zero)).
Proof.
  intros N Hob Hfit Hv Hbuf. split.
  - intros Hd. split.
    + intros b_idx pmb st Hmiss. rewrite <- has_var_block_has in Hmiss.
      now apply pack_block_dense_missing.
    + intros (pmb & Hp & Hmiss). rewrite <- has_var_block_has in Hmiss.
      apply write_variable_dense_missing; eauto.
  - intros Hs sparse_idx Hidx Hlt Hmap.
    eexists. split.
    + apply (write_variable_ok OutT zero cast ob sparse_field_idx num_sparse
               block_list vinfo ws sparse_idx); [auto | congruence].
    + intros b_idx pmb Hb. simpl. rewrite Hs.
      pose proof (lookup_lt_Some _ _ _ Hb) as Hblt.
      split.
      * rewrite <- has_var_block_has.
        apply (mark_blocks_lookup num_sparse sparse_idx (label vinfo) block_list
                 0 (ws_sparse_expanded ws) b_idx pmb Hlt Hb).
        rewrite Hmap. simpl. nia.
      * intros Hmiss p Hp.
        assert (forall y, length (block_data zero cast ob vinfo y) = N) as Hone
          by (intros y; now apply length_block_data).
        assert (length (block_list ≫= block_data zero cast ob vinfo)
                = (length block_list * N)%nat) as Hlen
          by now apply length_bind_const.
        rewrite list_lookup_inserts
          by (rewrite ?Hlen, ?length_replicate; nia).
        replace (p - 0)%nat with (b_idx * N + (p - b_idx * N))%nat by lia.
        rewrite (lookup_bind_chunk _ _ N b_idx _ pmb)
          by (first [ exact Hone | exact Hb | lia ]).
        unfold block_data. rewrite (block_has_false _ _ Hmiss).
        apply lookup_replicate_2. rewrite memset_count by assumption.
        fold N. lia.
Qed.

Lemma packing_of_missing_variable_witness :
  write_variable R 0%R (fun x => x) example_cells ∅ 0
    [block_with_d; block_without_d] (mkVarInfo "d" 1 false false)
    {| ws_tmpData := replicate 4 1%R; ws_sparse_expanded := [];
       ws_writes := [] |} = Fatal (DenseMissing "d")
  /\ exists ws',
       write_variable R 0%R (fun x => x) example_cells
         {[ "a"%string := 0%nat ]} 1
         [block_with_a; block_without_a] (mkVarInfo "a" 2 true false)
         {| ws_tmpData := replicate 8 1%R;
            ws_sparse_expanded := [None; None];
            ws_writes := [] |} = Ok ws'
       /\ ws_sparse_expanded ws' !! 0%nat = Some (Some true)
       /\ ws_sparse_expanded ws' !! 1%nat = Some (Some false)
       /\ ws_tmpData ws' !! 5%nat = Some 0%R.
Proof.
  assert (valid_bounds example_cells) as Hob
    by (repeat split; vm_compute; discriminate).
  assert (cells_fit example_cells) as Hfit by (vm_compute; discriminate).
  split.
  - apply (proj2 (proj1 (packing_of_missing_variable R 0%R (fun x => x)
                           example_cells ∅ 0 [block_with_d; block_without_d]
                           (mkVarInfo "d" 1 false false)
                           {| ws_tmpData := replicate 4 1%R;
                              ws_sparse_expanded := [];
                              ws_writes := [] |}
                           Hob Hfit
                           ltac:(vm_compute; split; discriminate)
                           ltac:(vm_compute; lia))
                   eq_refl)).
    exists block_without_d. split; [right; now left | reflexivity].
  - destruct (proj2 (packing_of_missing_variable R 0%R (fun x => x)
                       example_cells {[ "a"%string := 0%nat ]} 1
                       [block_with_a; block_without_a]
                       (mkVarInfo "a" 2 true false)
                       {| ws_tmpData := replicate 8 1%R;
                          ws_sparse_expanded := [None; None];
                          ws_writes := [] |}
                       Hob Hfit
                       ltac:(vm_compute; split; discriminate)
                       ltac:(vm_compute; lia))
                eq_refl 0%nat)
      as (ws' & Hrun & Hspec).
    + reflexivity.
    + lia.
    + reflexivity.
    + exists ws'. split; [exact Hrun|].
      destruct (Hspec 0%nat block_with_a eq_refl) as [Hmap0 _].
      destruct (Hspec 1%nat block_without_a eq_refl) as [Hmap1 Hzero].
      split; [exact Hmap0|]. split; [exact Hmap1|].
      apply Hzero; [reflexivity | vm_compute; lia].
Defined.

(** ** The index of the sparse fields *)

Lemma umap_insert_keeps (key k : string) (value v : nat) (m : gmap string nat) :
  m !! k = Some v -> umap_insert key value m !! k = Some v.
Proof.
  intros Hk. unfold umap_insert. destruct (m !! key) eqn:E; [exact Hk|].
  rewrite lookup_insert_ne; [exact Hk | congruence].
Qed.

Lemma umap_insert_key (key : string) (value : nat) (m : gmap string nat) :
  is_Some (umap_insert key value m !! key).
Proof.
  unfold umap_insert. destruct (m !! key) eqn:E; [rewrite E; eauto|].
  rewrite lookup_insert_eq. eauto.
Qed.

Lemma sparse_fields_keeps (vars : list VarInfo)
  (st : list string * gmap string nat) (k : string) (v : nat) :
  snd st !! k = Some v ->
  snd (foldl sparse_field_step st vars) !! k = Some v.
Proof.
  revert st. induction vars as [|vinfo vars IH]; intros [names idx] Hk;
    [exact Hk|].
  simpl. apply IH. destruct (is_sparse vinfo); [|exact Hk].
  simpl. now apply umap_insert_keeps.
Qed.

Lemma sparse_fields_lookup (vars : list VarInfo)
  (st : list string * gmap string nat) (vinfo : VarInfo) :
  In vinfo vars -> is_sparse vinfo = true ->
  is_Some (snd (foldl sparse_field_step st vars) !! label vinfo).
Proof.
  revert st. induction vars as [|w vars IH]; intros [names idx] Hin Hs;
    [destruct Hin|].
  simpl. destruct Hin as [->|Hin]; [|now apply IH].
  rewrite Hs.
  destruct (umap_insert_key (label vinfo) (length names) idx) as [v Hv].
  rewrite (sparse_fields_keeps vars
             (names ++ [label vinfo],
              umap_insert (label vinfo) (length names) idx)
             (label vinfo) v Hv).
  eauto.
Qed.

(** ** The sparse map of a whole run *)

Lemma umap_insert_index_ok (names : list string) (idx : gmap string nat)
  (l : string) :
  index_ok (names, idx) ->
  index_ok (names ++ [l], umap_insert l (length names) idx).
Proof.
  intros [Hlt Hinj]. simpl in *. unfold umap_insert. split; simpl.
  - intros k c Hk. rewrite length_app. simpl.
    destruct (idx !! l) eqn:El.
    + apply Hlt in Hk. lia.
    + destruct (decide (l = k)) as [E|Hne].
      * subst k. rewrite lookup_insert_eq in Hk. injection Hk as <-. lia.
      * rewrite lookup_insert_ne in Hk by exact Hne. apply Hlt in Hk. lia.
  - intros k k' c Hk Hk'. destruct (idx !! l) eqn:El; [now apply (Hinj k k' c)|].
    destruct (decide (l = k)) as [E|Hne]; destruct (decide (l = k')) as [E'|Hne'].
    + congruence.
    + subst k. rewrite lookup_insert_eq in Hk. injection Hk as <-.
      rewrite lookup_insert_ne in Hk' by exact Hne'. apply Hlt in Hk'. lia.
    + subst k'. rewrite lookup_insert_eq in Hk'. injection Hk' as <-.
      rewrite lookup_insert_ne in Hk by exact Hne. apply Hlt in Hk. lia.
    + rewrite lookup_insert_ne in Hk by exact Hne.
      rewrite lookup_insert_ne in Hk' by exact Hne'. now apply (Hinj k k' c).
Qed.

Lemma sparse_fields_index_ok (vars : list VarInfo)
  (st : list string * gmap string nat) :
  index_ok st -> index_ok (foldl sparse_field_step st vars).
Proof.
  revert st. induction vars as [|v vars IH]; intros [names idx] Hok;
    [exact Hok|].
  simpl. apply IH. destruct (is_sparse v); [|exact Hok].
  now apply umap_insert_index_ok.
Qed.

Lemma index_ok_empty : index_ok ([], ∅).
Proof.
  split; simpl.
  - intros l c H. rewrite lookup_empty in H. discriminate.
  - intros l l' c H. rewrite lookup_empty in H. discriminate.
Qed.

Lemma column_unique (n b m c c' : nat) :
  (c < n)%nat -> (c' < n)%nat -> (b * n + c = m * n + c')%nat -> c = c'.
Proof.
  intros Hc Hc' E.
  rewrite <- (Nat.mod_small c n), <- (Nat.mod_small c' n) by lia.
  rewrite <- (Nat.Div0.mod_add c b n), <- (Nat.Div0.mod_add c' m n).
  f_equal. lia.
Qed.

Lemma write_variable_lengths (OutT : Type) (zero : OutT) (cast : R -> OutT)
  (ob : OutputBounds) (sparse_field_idx : gmap string nat) (num_sparse : nat)
  (block_list : list MeshBlock) (vinfo : VarInfo) (ws ws' : WriterState OutT)
  (sparse_idx : nat) :
  (is_sparse vinfo = true -> sparse_field_idx !! label vinfo = Some sparse_idx) ->
  (is_sparse vinfo = false ->
   forall pmb, In pmb block_list -> has_var (label vinfo) pmb = true) ->
  write_variable OutT zero cast ob sparse_field_idx num_sparse block_list vinfo ws
    = Ok ws' ->
  length (ws_tmpData ws') = length (ws_tmpData ws)
  /\ length (ws_sparse_expanded ws') = length (ws_sparse_expanded ws).
Proof.
  intros Hsp Hdense Hrun.
  rewrite (write_variable_ok OutT zero cast ob sparse_field_idx num_sparse
             block_list vinfo ws sparse_idx Hsp Hdense) in Hrun.
  injection Hrun as <-. simpl. split.
  - now rewrite length_inserts, length_replicate.
  - destruct (is_sparse vinfo); [apply mark_blocks_length | reflexivity].
Qed.

(** The loop over the variables: every sparse variable of the list fills its
    column of the sparse map, and the rest of the map is left as it was. *)
Lemma write_variables_sparse_map (OutT : Type) (zero : OutT) (cast : R -> OutT)
  (ob : OutputBounds) (sparse_names : list string)
  (sparse_field_idx : gmap string nat)
  (block_list : list MeshBlock) (vars : list VarInfo) (ws : WriterState OutT) :
  let num_sparse := length sparse_names in
  index_ok (sparse_names, sparse_field_idx) ->
  List.NoDup (map label vars) ->
  (forall v, In v vars -> is_sparse v = true ->
             is_Some (sparse_field_idx !! label v)) ->
  (forall v, In v vars -> is_sparse v = false ->
             forall pmb, In pmb block_list -> has_var (label v) pmb = true) ->
  length (ws_sparse_expanded ws) = (length block_list * num_sparse)%nat ->
  exists ws',
    write_variables OutT zero cast ob sparse_field_idx num_sparse block_list
      vars ws = Ok ws'
    /\ length (ws_sparse_expanded ws') = length (ws_sparse_expanded ws)
    /\ (forall v c b_idx pmb,
          In v vars -> is_sparse v = true ->
          sparse_field_idx !! label v = Some c ->
          block_list !! b_idx = Some pmb ->
          ws_sparse_expanded ws' !! (b_idx * num_sparse + c)%nat
          = Some (Some (has_var (label v) pmb)))
    /\ (forall q,
          off_columns sparse_field_idx num_sparse (length block_list) vars q ->
          ws_sparse_expanded ws' !! q = ws_sparse_expanded ws !! q).
Proof.
  intros num_sparse [Hlt Hinj]. simpl in Hlt, Hinj. revert ws.
  induction vars as [|v vars IH]; intros ws Hnodup Hidx Hdense Hmap.
  - exists ws. split; [reflexivity|]. split; [reflexivity|].
    split; [intros v c b pmb []|reflexivity].
  - apply List.NoDup_cons_iff in Hnodup as [Hfresh Hnodup].
    assert (exists sparse_idx,
               is_sparse v = true -> sparse_field_idx !! label v = Some sparse_idx)
      as [sparse_idx Hsi].
    { destruct (is_sparse v) eqn:Es.
      - destruct (Hidx v) as [si Hsi]; [now left | exact Es |]. eauto.
      - exists 0%nat. discriminate. }
    assert (is_sparse v = false ->
            forall pmb, In pmb block_list -> has_var (label v) pmb = true)
      as Hdv by (intros Hd; apply Hdense; [now left | exact Hd]).
    simpl write_variables.
    pose proof (write_variable_ok OutT zero cast ob sparse_field_idx num_sparse
                  block_list v ws sparse_idx Hsi Hdv) as Hstep.
    simpl in Hstep. rewrite Hstep. cbn [mbind result_bind].
    match goal with
    | |- context [write_variables _ _ _ _ _ _ _ _ ?w] => set (ws1 := w) in *
    end.
    assert (length (ws_sparse_expanded ws1) = length (ws_sparse_expanded ws))
      as Hlen1.
    { unfold ws1. simpl. destruct (is_sparse v);
        [apply mark_blocks_length | reflexivity]. }
    destruct (IH ws1) as (ws' & Hrun & Hlen' & Hcols & Hoff).
    + exact Hnodup.
    + intros w Hw. apply Hidx. now right.
    + intros w Hw. apply Hdense. now right.
    + now rewrite Hlen1.
    + exists ws'. split; [exact Hrun|]. split; [now rewrite Hlen', Hlen1|].
      split.
      * intros w c b_idx pmb [<-|Hw] Hs Hc Hb; [|now apply (Hcols w)].
        pose proof (lookup_lt_Some _ _ _ Hb) as Hblt.
        pose proof (Hlt _ _ Hc) as Hclt. fold num_sparse in Hclt.
        rewrite Hoff.
        -- unfold ws1. simpl. rewrite Hs.
           rewrite Hsi in Hc by exact Hs. injection Hc as ->.
           apply (mark_blocks_lookup num_sparse c (label v) block_list 0
                    (ws_sparse_expanded ws) b_idx pmb Hclt Hb).
           rewrite Hmap. simpl. nia.
        -- intros w c' m Hw Hs' Hc' Hm E.
           pose proof (Hlt _ _ Hc') as Hclt'. fold num_sparse in Hclt'.
           assert (c = c') as <-
             by (apply (column_unique num_sparse b_idx m); assumption).
           apply Hfresh. rewrite (Hinj _ _ _ Hc Hc').
           now apply in_map.
      * intros q Hq. rewrite Hoff.
        -- unfold ws1. simpl. destruct (is_sparse v) eqn:Es; [|reflexivity].
           apply mark_blocks_other. intros m Hm. simpl.
           apply (Hq v sparse_idx m); [now left | exact Es | now apply Hsi | exact Hm].
        -- intros w c m Hw Hs Hc Hm. apply (Hq w c m); auto. now right.
Qed.

(** The sparse map a run writes as SparseInfo: for every sparse variable of
    the set and every local block, the entry of the block in the column of
    the variable says whether the block holds the variable. The columns are
    those of [sparse_fields]. *)
Lemma write_all_variables_sparse_map (OutT : Type) (zero : OutT)
  (cast : R -> OutT) (ob : OutputBounds) (all_unique_vars : VarSet.t)
  (block_list : list MeshBlock) :
  sorted all_unique_vars ->
  (forall v, In v all_unique_vars -> is_sparse v = false ->
             forall pmb, In pmb block_list -> has_var (label v) pmb = true) ->
  let num_sparse := length (fst (sparse_fields all_unique_vars)) in
  Z.of_nat (length block_list) <= CInt.int_max ->
  Z.of_nat (length block_list * num_sparse) < 2 ^ 64 ->
  exists writes expanded,
    write_all_variables OutT zero cast ob all_unique_vars block_list
      = Ok (writes, expanded)
    /\ length expanded = (length block_list * num_sparse)%nat
    /\ forall v, In v all_unique_vars -> is_sparse v = true ->
         exists c,
           snd (sparse_fields all_unique_vars) !! label v = Some c
           /\ (c < num_sparse)%nat
           /\ forall b_idx pmb,
                block_list !! b_idx = Some pmb ->
                expanded !! (b_idx * num_sparse + c)%nat
                = Some (Some (has_var (label v) pmb)).
Proof.
  intros Hsorted Hdense num_sparse Hnb Hfit. unfold write_all_variables.
  pose proof (fun v => sparse_fields_lookup all_unique_vars ([], ∅) v) as Hidx.
  pose proof (sparse_fields_index_ok all_unique_vars _ index_ok_empty) as Hok.
  fold (sparse_fields all_unique_vars) in Hidx, Hok. subst num_sparse.
  destruct (sparse_fields all_unique_vars) as [sparse_names sparse_field_idx].
  simpl in Hidx, Hfit |- *.
  assert (Z.to_nat (CInt.mul_hsize (Z.of_nat (length sparse_names))
                      (CInt.wrap_int (Z.of_nat (length block_list))))
          = (length block_list * length sparse_names)%nat) as Hsize.
  { unfold CInt.mul_hsize. rewrite wrap_int_small by lia.
    unfold CInt.int_max in Hnb.
    rewrite (wrap_hsize_small (Z.of_nat (length block_list))) by lia.
    rewrite wrap_hsize_small by lia. lia. }
  rewrite Hsize.
  assert (List.NoDup (map label all_unique_vars)) as Hnodup.
  { clear -Hsorted. unfold sorted, VarSet.labels in Hsorted.
    induction Hsorted as [|l ls _ IH Hall]; constructor; [|exact IH].
    intros Hin. rewrite List.Forall_forall in Hall.
    exact (lbl_lt_irrefl l (Hall l Hin)). }
  match goal with
  | |- context [write_variables _ _ _ _ _ _ _ _ ?w] =>
      destruct (write_variables_sparse_map OutT zero cast ob sparse_names
                  sparse_field_idx block_list all_unique_vars w
                  Hok Hnodup Hidx Hdense)
        as (ws' & Hrun & Hlen' & Hcols & _)
  end.
  { simpl. apply length_replicate. }
  rewrite Hrun. cbn [mbind result_bind].
  exists (rev (ws_writes ws')), (ws_sparse_expanded ws').
  split; [reflexivity|]. split.
  { rewrite Hlen'. simpl. apply length_replicate. }
  intros v Hv Hs. destruct (Hidx v Hv Hs) as [c Hc]. exists c.
  split; [exact Hc|]. split; [exact (proj1 Hok _ _ Hc)|].
  intros b_idx pmb Hb. now apply (Hcols v).
Qed.

(** The loop over the variables stops at the first dense variable that a
    block lacks, with the error that names it. *)
Lemma write_variables_dense_missing (OutT : Type) (zero : OutT)
  (cast : R -> OutT) (ob : OutputBounds) (sparse_field_idx : gmap string nat)
  (num_sparse : nat) (block_list : list MeshBlock)
  (before after : list VarInfo) (vinfo : VarInfo) (ws : WriterState OutT) :
  (forall v, In v before -> is_sparse v = true ->
             is_Some (sparse_field_idx !! label v)) ->
  (forall v, In v before -> is_sparse v = false ->
             forall pmb, In pmb block_list -> has_var (label v) pmb = true) ->
  is_sparse vinfo = false ->
  (exists pmb, In pmb block_list /\ has_var (label vinfo) pmb = false) ->
  write_variables OutT zero cast ob sparse_field_idx num_sparse block_list
    (before ++ vinfo :: after) ws = Fatal (DenseMissing (label vinfo)).
Proof.
  revert ws.
  induction before as [|v before IH]; intros ws Hidx Hdense Hd Hmiss.
  - simpl. rewrite write_variable_dense_missing;
      [reflexivity | exact Hd | exact Hmiss].
  - assert (exists sparse_idx,
               is_sparse v = true -> sparse_field_idx !! label v = Some sparse_idx)
      as [sparse_idx Hsi].
    { destruct (is_sparse v) eqn:Es.
      - destruct (Hidx v) as [si Hsi]; [now left | exact Es |]. eauto.
      - exists 0%nat. discriminate. }
    simpl write_variables.
    rewrite (write_variable_ok OutT zero cast ob sparse_field_idx num_sparse
               block_list v ws sparse_idx)
      by (first [ exact Hsi
                | intros Hdv; apply Hdense; [now left | exact Hdv] ]).
    cbn [mbind result_bind]. apply IH.
    + intros w Hw. apply Hidx. now right.
    + intros w Hw. apply Hdense. now right.
    + exact Hd.
    + exact Hmiss.
Qed.

Lemma dense_missing_true (block_list : list MeshBlock) (v : VarInfo) :
  dense_missing block_list v = true
  <-> is_sparse v = false
      /\ exists pmb, In pmb block_list /\ has_var (label v) pmb = false.
Proof.
  unfold dense_missing. rewrite andb_true_iff, !negb_true_iff. split.
  - intros [Hd Hall]. split; [exact Hd|].
    induction block_list as [|pmb rest IH]; [discriminate|].
    simpl in Hall. apply andb_false_iff in Hall as [H|H].
    + exists pmb. split; [now left | exact H].
    + destruct (IH H) as (p & Hp & Hm). exists p. split; [now right | exact Hm].
  - intros [Hd (pmb & Hp & Hm)]. split; [exact Hd|].
    induction block_list as [|p rest IH]; [destruct Hp|].
    simpl. destruct Hp as [->|Hp]; [now rewrite Hm|].
    rewrite (IH Hp). apply andb_false_r.
Qed.

Lemma dense_missing_false (block_list : list MeshBlock) (v : VarInfo) :
  dense_missing block_list v = false -> is_sparse v = false ->
  forall pmb, In pmb block_list -> has_var (label v) pmb = true.
Proof.
  unfold dense_missing. intros H Hd. rewrite Hd in H. simpl in H.
  apply negb_false_iff in H. rewrite forallb_forall in H. exact H.
Qed.

Lemma first_dense_missing (block_list : list MeshBlock) (vars : list VarInfo) :
  (exists v, In v vars /\ dense_missing block_list v = true) ->
  exists before v after,
    vars = before ++ v :: after
    /\ dense_missing block_list v = true
    /\ forall w, In w before -> dense_missing block_list w = false.
Proof.
  induction vars as [|x vars IH]; intros (v & Hv & Hbad); [destruct Hv|].
  destruct (dense_missing block_list x) eqn:Ex.
  - exists [], x, vars. split; [reflexivity|]. split; [exact Ex | intros w []].
  - destruct IH as (before & y & after & -> & Hy & Hbefore).
    { destruct Hv as [->|Hv]; [congruence | eauto]. }
    exists (x :: before), y, after. split; [reflexivity|]. split; [exact Hy|].
    intros w [<-|Hw]; [exact Ex | now apply Hbefore].
Qed.

(** A run in which a block lacks a dense variable of the set ends with the
    fatal error that names the first such variable of the set. *)
Lemma write_all_variables_dense_missing (OutT : Type) (zero : OutT)
  (cast : R -> OutT) (ob : OutputBounds) (all_unique_vars : VarSet.t)
  (block_list : list MeshBlock) :
  (exists v, In v all_unique_vars /\ dense_missing block_list v = true) ->
  exists before v after,
    all_unique_vars = before ++ v :: after
    /\ dense_missing block_list v = true
    /\ (forall w, In w before -> dense_missing block_list w = false)
    /\ write_all_variables OutT zero cast ob all_unique_vars block_list
       = Fatal (DenseMissing (label v)).
Proof.
  intros Hbad.
  destruct (first_dense_missing block_list all_unique_vars Hbad)
    as (before & v & after & Hsplit & Hv & Hbefore).
  exists before, v, after. split; [exact Hsplit|]. split; [exact Hv|].
  split; [exact Hbefore|].
  unfold write_all_variables.
  pose proof (fun w => sparse_fields_lookup all_unique_vars ([], ∅) w) as Hidx.
  fold (sparse_fields all_unique_vars) in Hidx.
  destruct (sparse_fields all_unique_vars) as [sparse_names sparse_field_idx].
  simpl in Hidx. apply dense_missing_true in Hv as [Hd Hmiss].
  rewrite Hsplit at 1.
  rewrite (write_variables_dense_missing OutT zero cast ob sparse_field_idx
             (length sparse_names) block_list before after v); [reflexivity |..].
  - intros w Hw. apply Hidx. rewrite Hsplit. apply in_or_app. now left.
  - intros w Hw Hdw. apply dense_missing_false; [now apply Hbefore | exact Hdw].
  - exact Hd.
  - exact Hmiss.
Qed.

(** ** The size of the staging buffer *)

(** A buffer sized for the longest variable holds the regions of all local
    blocks for every variable of the set. *)
Lemma staging_buffer_fits (ob : OutputBounds) (all_unique_vars : VarSet.t)
  (num_blocks_local : nat) (v : VarInfo) :
  valid_bounds ob -> In v all_unique_vars -> 0 <= vlen v ->
  (num_blocks_local * block_size ob (vlen v)
   <= staging_size ob all_unique_vars num_blocks_local)%nat.
Proof.
  intros Hob Hv Hlen. pose proof (ncells_nonneg ob Hob) as Hsize.
  unfold block_size, staging_size, vlen_max.
  pose proof (proj1 (proj2 (vlen_max_acc all_unique_vars 0)) v Hv) as Hmax.
  set (vmax := foldl _ 0 all_unique_vars) in *.
  assert (0 <= ncells ob * vlen v) as Hblock by nia.
  assert (ncells ob * vlen v <= ncells ob * vmax) as Hle
    by (apply Z.mul_le_mono_nonneg_l; lia).
  rewrite <- (Nat2Z.id num_blocks_local) at 1.
  rewrite <- Z2Nat.inj_mul by lia.
  replace (ncells ob * vmax * Z.of_nat num_blocks_local)
    with (Z.of_nat num_blocks_local * (ncells ob * vmax)) by ring.
  apply Z2Nat.inj_le.
  - apply Z.mul_nonneg_nonneg; lia.
  - apply Z.mul_nonneg_nonneg; lia.
  - apply Z.mul_le_mono_nonneg_l; lia.
Qed.

(** ** The writes of a rank *)

Lemma write_variables_ok (OutT : Type) (zero : OutT) (cast : R -> OutT)
  (ob : OutputBounds) (sparse_field_idx : gmap string nat) (num_sparse : nat)
  (block_list : list MeshBlock) (vars : list VarInfo) (ws : WriterState OutT) :
  (forall v, In v vars -> is_sparse v = true ->
             is_Some (sparse_field_idx !! label v)) ->
  (forall v, In v vars -> is_sparse v = false ->
             forall pmb, In pmb block_list -> has_var (label v) pmb = true) ->
  exists ws',
    write_variables OutT zero cast ob sparse_field_idx num_sparse block_list
      vars ws = Ok ws'
    /\ map write_name (ws_writes ws')
       = rev (map label (List.filter (found_on block_list) vars))
           ++ map write_name (ws_writes ws).
Proof.
  revert ws.
  induction vars as [|v vars IH]; intros ws Hidx Hdense.
  - exists ws. split; reflexivity.
  - assert (exists sparse_idx,
               is_sparse v = true -> sparse_field_idx !! label v = Some sparse_idx)
      as [sparse_idx Hsi].
    { destruct (is_sparse v) eqn:Es.
      - destruct (Hidx v) as [si Hsi]; [now left | exact Es |]. eauto.
      - exists 0%nat. discriminate. }
    simpl write_variables.
    rewrite (write_variable_ok OutT zero cast ob sparse_field_idx num_sparse
               block_list v ws sparse_idx)
      by (first [ exact Hsi
                | intros Hd; apply Hdense; [now left | exact Hd] ]).
    cbn [mbind result_bind].
    match goal with
    | |- context [write_variables _ _ _ _ _ _ _ _ ?w] =>
        destruct (IH w) as (ws' & Hrun & Hnames)
    end.
    + intros w Hw. apply Hidx. now right.
    + intros w Hw. apply Hdense. now right.
    + exists ws'. split; [exact Hrun|].
      rewrite Hnames. cbn [ws_writes List.filter].
      destruct (found_on block_list v); simpl.
      * now rewrite <- app_assoc.
      * reflexivity.
Qed.

(** C5, as the code has it. A rank calls [HDF5WriteND] for a variable of
    the set if and only if its own [found_any] is true, that is if one of
    its local blocks holds the variable: the datasets a rank writes are the
    variables of the set found on one of its blocks, in the order of the
    set. A dense variable is on every block, by what packing demands. *)
Theorem writes_follow_local_found_any (OutT : Type) (zero : OutT)
  (cast : R -> OutT) (ob : OutputBounds) (all_unique_vars : VarSet.t)
  (block_list : list MeshBlock) :
  valid_bounds ob ->
  (forall v, In v all_unique_vars -> 0 <= vlen v) ->
  (forall v, In v all_unique_vars -> is_sparse v = false ->
             forall pmb, In pmb block_list -> has_var (label v) pmb = true) ->
  exists writes expanded,
    write_all_variables OutT zero cast ob all_unique_vars block_list
      = Ok (writes, expanded)
    /\ map write_name writes
       = map label (List.filter (found_on block_list) all_unique_vars)
    /\ forall v, In v all_unique_vars ->
         (In (label v) (map write_name writes)
          <-> exists pmb, In pmb block_list /\ has_var (label v) pmb = true).
Proof.
  intros Hob Hlen Hdense. unfold write_all_variables.
  pose proof (fun v => sparse_fields_lookup all_unique_vars ([], ∅) v) as Hidx.
  fold (sparse_fields all_unique_vars) in Hidx.
  destruct (sparse_fields all_unique_vars) as [sparse_names sparse_field_idx].
  simpl in Hidx.
  match goal with
  | |- context [write_variables _ _ _ _ _ _ _ _ ?w] =>
      destruct (write_variables_ok OutT zero cast ob sparse_field_idx
                  (length sparse_names) block_list all_unique_vars w
                  Hidx Hdense) as (ws' & Hrun & Hnames)
  end.
  rewrite Hrun. cbn [mbind result_bind].
  simpl in Hnames. rewrite app_nil_r in Hnames.
  assert (map write_name (rev (ws_writes ws'))
          = map label (List.filter (found_on block_list) all_unique_vars)) as Hw
    by (rewrite map_rev, Hnames; apply rev_involutive).
  exists (rev (ws_writes ws')), (ws_sparse_expanded ws').
  split; [reflexivity|]. split; [exact Hw|].
  intros v Hv. rewrite Hw, in_map_iff. split.
  - intros (w & El & Hin). apply filter_In in Hin as [_ Hfound].
    unfold found_on in Hfound. apply existsb_exists in Hfound.
    rewrite El in Hfound. exact Hfound.
  - intros Hex. exists v. split; [reflexivity|]. apply filter_In.
    split; [exact Hv|]. unfold found_on. now apply existsb_exists.
Qed.

Lemma writes_follow_local_found_any_witness :
  exists writes expanded,
    write_all_variables R 0%R id example_cells
      [mkVarInfo "a" 2 true false] [block_with_a; block_without_a]
      = Ok (writes, expanded)
    /\ map write_name writes = ["a"%string].
Proof.
  destruct (writes_follow_local_found_any R 0%R id example_cells
              [mkVarInfo "a" 2 true false] [block_with_a; block_without_a])
    as (writes & expanded & Hrun & Hnames & _).
  - repeat split; vm_compute; discriminate.
  - intros v [<-|[]]. simpl. lia.
  - intros v [<-|[]]. discriminate.
  - exists writes, expanded. split; [exact Hrun | exact Hnames].
Defined.

(** C5 as worded does not hold. In the run of two ranks with the blocks
    [rank_a_d] and [rank_d], the set of both ranks holds the sparse variable
    "a"; the first rank finds it on its block and writes it; the second
    rank, none of whose blocks holds it, makes no call for it. *)
Lemma write_skipped_without_local_block :
  VarSet.labels <$> reconcile [rank_a_d] rank_d [] [] = Ok ["a"; "d"]%string
  /\ datasets_written R 0%R id example_cells [] rank_a_d [rank_d] []
     = Ok ["a"; "d"]%string
  /\ datasets_written R 0%R id example_cells [rank_a_d] rank_d [] []
     = Ok ["d"]%string
  /\ ~ (forall name,
          In name ["a"; "d"]%string ->
          forall writes,
            datasets_written R 0%R id example_cells [rank_a_d] rank_d [] []
              = Ok writes ->
            In name writes).
Proof.
  assert (datasets_written R 0%R id example_cells [rank_a_d] rank_d [] []
          = Ok ["d"]%string) as Hd by (vm_compute; reflexivity).
  split; [vm_compute; reflexivity|].
  split; [vm_compute; reflexivity|].
  split; [exact Hd|].
  intros H. specialize (H "a"%string (or_introl eq_refl) _ Hd).
  simpl in H. destruct H as [H|[]]. discriminate H.
Qed.

(* ===================================================================== *)
(** * Part III: further properties of the code                            *)
(* ===================================================================== *)

(** ** The elements of the reconciled set *)

Lemma first_with_label_nil (e : VarInfo) : ~ first_with_label [] e.
Proof. intros (pre & post & E & _). now destruct pre. Qed.

Lemma first_with_label_cons (x : VarInfo) (es : list VarInfo) (e : VarInfo) :
  first_with_label (x :: es) e
  <-> e = x \/ (label e <> label x /\ first_with_label es e).
Proof.
  split.
  - intros (pre & post & E & Hn). destruct pre as [|p pre].
    + left. simpl in E. congruence.
    + right. simpl in E. injection E as <- ->. split.
      * intros El. apply Hn. left. now symmetry.
      * exists pre, post. split; [reflexivity|]. intros H. apply Hn. now right.
  - intros [->|[Hne (pre & post & -> & Hn)]].
    + exists [], es. split; [reflexivity | intros []].
    + exists (x :: pre), post. split; [reflexivity|].
      intros [El|H]; [apply Hne; now symmetry | exact (Hn H)].
Qed.

Lemma first_with_label_app (a b : list VarInfo) (e : VarInfo) :
  first_with_label (a ++ b) e
  <-> first_with_label a e
      \/ (~ In (label e) (VarSet.labels a) /\ first_with_label b e).
Proof.
  induction a as [|x a IH]; simpl.
  - split; [intros H; right; split; [intros []|exact H]|].
    intros [H|[_ H]]; [destruct (first_with_label_nil e H) | exact H].
  - rewrite !first_with_label_cons, IH. split.
    + intros [->|[Hne [H|[Hn H]]]]; [tauto | tauto |].
      right. split; [|exact H]. intros [El|Hl]; [apply Hne; now symmetry | tauto].
    + intros [[->|[Hne H]]|[Hn H]]; [tauto | tauto |].
      right. split; [intros El; apply Hn; left; now symmetry|].
      right. split; [|exact H]. intros Hl. apply Hn. now right.
Qed.

Lemma first_with_label_In (es : list VarInfo) (e : VarInfo) :
  first_with_label es e -> In e es.
Proof. intros (pre & post & -> & _). apply in_or_app. right. now left. Qed.

(** In a sequence without two elements of one label every element is the
    first of its label. *)
Lemma first_with_label_sorted (s : VarSet.t) (e : VarInfo) :
  sorted s -> (first_with_label s e <-> In e s).
Proof.
  intros Hs. split; [apply first_with_label_In|].
  induction s as [|y s IH]; [intros []|].
  apply sorted_cons_inv in Hs as [Hs Hy].
  rewrite first_with_label_cons. intros [<-|He]; [now left|].
  right. split; [|now apply IH].
  intros El. apply (lbl_lt_irrefl (label y)). rewrite <- El at 2. now apply Hy.
Qed.

Lemma insert_all_app (a b : list VarInfo) (s : VarSet.t) :
  insert_all (a ++ b) s = s' ← insert_all a s; insert_all b s'.
Proof.
  revert s. induction a as [|x a IH]; intros s; simpl; [reflexivity|].
  destruct (VarSet.insert x s) as [s1|err]; simpl; [apply IH | reflexivity].
Qed.

(** The set after the insertion of a sequence holds what it held, and of
    every label it did not hold the first element of the sequence. *)
Lemma insert_all_elements (es : list VarInfo) (s s' : VarSet.t) :
  sorted s -> insert_all es s = Ok s' ->
  sorted s'
  /\ forall e, In e s' <->
       In e s \/ (~ In (label e) (VarSet.labels s) /\ first_with_label es e).
Proof.
  revert s. induction es as [|x es IH]; intros s Hs Hrun; simpl in Hrun.
  - injection Hrun as <-. split; [exact Hs|]. intros e.
    split; [now left|]. intros [H|[_ H]]; [exact H|].
    destruct (first_with_label_nil e H).
  - destruct (VarSet.insert x s) as [s1|err] eqn:Hins; [|discriminate].
    simpl in Hrun.
    pose proof (insert_Ok_compat x s s1 Hs Hins) as Hc.
    pose proof (insert_labels x s s1 Hs Hc Hins) as Hl.
    destruct (insert_compat x s Hs Hc) as (s0 & Hins0 & Hs1 & Hin).
    rewrite Hins in Hins0. injection Hins0 as <-.
    destruct (IH s1 Hs1 Hrun) as [Hs' Hin']. split; [exact Hs'|].
    intros e. rewrite Hin', Hin, Hl, first_with_label_cons. split.
    + intros [[[-> Hn]|He]|[Hn Hf]]; [tauto | tauto |].
      right. split; [tauto|]. right. split; [|exact Hf].
      intros El. apply Hn. now left.
    + intros [He|[Hn [->|[Hne Hf]]]]; [tauto | tauto |].
      right. split; [|exact Hf]. intros [El|H]; tauto.
Qed.

Lemma insert_vars_all (vs : list CellVariable) (s s' : VarSet.t) :
  insert_vars vs s = Ok s' ->
  insert_all (map info_of vs) s = Ok s'
  /\ forall v, In v vs -> 1 <= cv_dim4 v <= 65535.
Proof.
  revert s. induction vs as [|v vs IH]; intros s Hrun; simpl in *.
  - split; [exact Hrun | intros v []].
  - destruct (VarInfo_of v) as [e|err] eqn:Ev; [|discriminate].
    apply VarInfo_of_inv in Ev as [-> Hlen]. simpl in Hrun.
    destruct (VarSet.insert (info_of v) s) as [s1|err]; [|discriminate].
    simpl in *. destruct (IH s1 Hrun) as [Hall Hlens].
    split; [exact Hall|]. intros w [<-|Hw]; auto.
Qed.

Lemma insert_blocks_all (block_list : list MeshBlock) (s s' : VarSet.t) :
  insert_blocks block_list s = Ok s' ->
  insert_all (map info_of (flat_map ci_vars block_list)) s = Ok s'
  /\ forall v, In v (flat_map ci_vars block_list) -> 1 <= cv_dim4 v <= 65535.
Proof.
  revert s. induction block_list as [|pmb rest IH]; intros s Hrun; simpl in *.
  - split; [exact Hrun | intros v []].
  - destruct (insert_vars (ci_vars pmb) s) as [s1|err] eqn:E1; [|discriminate].
    simpl in Hrun. apply insert_vars_all in E1 as [E1 H1].
    destruct (IH s1 Hrun) as [E2 H2]. split.
    + rewrite map_app, insert_all_app, E1. exact E2.
    + intros v Hv. apply in_app_or in Hv as [Hv|Hv]; auto.
Qed.

Lemma insert_decoded_all (es : list VarInfo) (s : VarSet.t) :
  (forall e, In e es -> 1 <= vlen e <= 65535) ->
  insert_decoded (map label es) (map get_info_code es) s = insert_all es s.
Proof.
  revert s. induction es as [|e es IH]; intros s Hlen; simpl; [reflexivity|].
  rewrite Decode_code by (apply Hlen; now left).
  replace {| label := label e; vlen := vlen e; is_sparse := is_sparse e;
             is_vector := is_vector e |} with e by now destruct e.
  destruct (VarSet.insert e s) as [s1|err]; simpl; [|reflexivity].
  apply IH. intros e' He'. apply Hlen. now right.
Qed.

(** The local set of a rank: of every label the first variable of the rank's
    blocks. *)
Lemma local_unique_vars_elements (block_list : list MeshBlock) (s : VarSet.t) :
  local_unique_vars block_list = Ok s ->
  sorted s
  /\ (forall v, In v (flat_map ci_vars block_list) -> 1 <= cv_dim4 v <= 65535)
  /\ forall e, In e s <->
       first_with_label (map info_of (flat_map ci_vars block_list)) e.
Proof.
  intros Hrun. apply insert_blocks_all in Hrun as [Hall Hlen].
  destruct (insert_all_elements _ _ _ sorted_nil Hall) as [Hs Hin].
  split; [exact Hs|]. split; [exact Hlen|].
  intros e. rewrite Hin. simpl. tauto.
Qed.

Lemma labels_app (a b : list VarInfo) :
  VarSet.labels (a ++ b) = VarSet.labels a ++ VarSet.labels b.
Proof. apply map_app. Qed.

Lemma first_with_label_labels (es : list VarInfo) (l : string) :
  In l (VarSet.labels es) <-> exists e, first_with_label es e /\ label e = l.
Proof.
  split.
  - induction es as [|x es IH]; [intros []|]. intros [<-|Hl].
    + exists x. split; [|reflexivity]. apply first_with_label_cons. now left.
    + destruct (string_dec l (label x)) as [->|Hne].
      * exists x. split; [|reflexivity]. apply first_with_label_cons. now left.
      * destruct (IH Hl) as (e & He & <-). exists e. split; [|reflexivity].
        apply first_with_label_cons. now right.
  - intros (e & He & <-). apply in_labels. exists e.
    split; [now apply first_with_label_In | reflexivity].
Qed.

(** The gathered sets, one after the other, hold of every label first the
    first variable of the run. *)
Lemma local_sets_first (ranks : list (list MeshBlock)) (locals : list VarSet.t) :
  local_sets ranks = Ok locals ->
  (forall v, In v (world_vars ranks) -> 1 <= cv_dim4 v <= 65535)
  /\ forall e, first_with_label (concat locals) e
               <-> first_with_label (map info_of (world_vars ranks)) e.
Proof.
  revert locals. induction ranks as [|block_list rest IH]; intros locals Hrun.
  - injection Hrun as <-. split; [intros v []|]. intros e. reflexivity.
  - simpl in Hrun.
    destruct (local_unique_vars block_list) as [s|err] eqn:Es; [|discriminate].
    simpl in Hrun. destruct (local_sets rest) as [ss|err] eqn:Ess; [|discriminate].
    injection Hrun as <-.
    destruct (local_unique_vars_elements _ _ Es) as (Hs & Hlen & Hin).
    destruct (IH ss eq_refl) as [Hlens Hfirst].
    unfold world_vars in *. simpl. rewrite flat_map_app. split.
    + intros v Hv. apply in_app_or in Hv as [Hv|Hv]; auto.
    + intros e. rewrite map_app, !first_with_label_app, Hfirst.
      rewrite (first_with_label_sorted s e Hs), Hin.
      assert (In (label e) (VarSet.labels s)
              <-> In (label e)
                    (VarSet.labels (map info_of (flat_map ci_vars block_list))))
        as El.
      { rewrite (first_with_label_labels (map info_of _)), in_labels.
        split; intros (e' & He' & El); exists e'; (split; [|exact El]);
          now apply Hin. }
      rewrite El. reflexivity.
Qed.

Lemma concat_locals_lengths (ranks : list (list MeshBlock))
  (locals : list VarSet.t) :
  local_sets ranks = Ok locals ->
  forall e, In e (concat locals) -> 1 <= vlen e <= 65535.
Proof.
  intros Hrun e He.
  destruct (local_sets_world ranks locals (local_sets_inv _ _ Hrun)) as [Hv Hes].
  destruct (Hes e He) as (v & Hin & ->). now apply Hv.
Qed.

(** What reconciliation that succeeds has done: the local sets, the rank's
    own set, and the insertion of the gathered descriptors into it. *)
Lemma reconcile_Ok_inv (lower : list (list MeshBlock)) (mine : list MeshBlock)
  (higher : list (list MeshBlock)) (slack : list ascii) (gvs : VarSet.t) :
  reconcile lower mine higher slack = Ok gvs ->
  exists locals my_set,
    local_sets (lower ++ mine :: higher) = Ok locals
    /\ local_unique_vars mine = Ok my_set
    /\ insert_all (concat locals) my_set = Ok gvs.
Proof.
  intros Hrun. pose proof Hrun as Hrun0. revert Hrun.
  unfold reconcile, merge_gathered. set (ranks := lower ++ mine :: higher).
  destruct (local_sets ranks) as [locals|] eqn:Elocals; [|discriminate].
  simpl. destruct (local_unique_vars mine) as [my_set|] eqn:Emy; [|discriminate].
  simpl. rewrite all_labels_buffer_pack, all_codes_map.
  destruct (unpack_labels (pack_labels (VarSet.labels (concat locals))) slack)
    as [all_labels|] eqn:Eunpack; [|discriminate].
  simpl. rewrite length_map.
  destruct (Nat.eqb_spec (length all_labels) (length (concat locals)))
    as [Elen|]; [|discriminate].
  simpl. intros Hrun.
  assert (Forall good_label (VarSet.labels (concat locals))) as Hgood.
  { apply (unpack_labels_same_length _ all_labels slack Eunpack).
    unfold VarSet.labels. now rewrite length_map. }
  rewrite unpack_labels_pack in Eunpack by exact Hgood.
  injection Eunpack as <-.
  exists locals, my_set. split; [reflexivity|]. split; [reflexivity|].
  rewrite <- Hrun. symmetry. apply insert_decoded_all.
  now apply (concat_locals_lengths ranks).
Qed.



(** ** A rank that holds every variable of the run *)

Lemma insert_all_present (es : list VarInfo) (s s' : VarSet.t) :
  sorted s -> (forall e, In e es -> In (label e) (VarSet.labels s)) ->
  insert_all es s = Ok s' -> s' = s.
Proof.
  intros Hs. revert s'. induction es as [|x es IH]; intros s' Hl Hrun; simpl in Hrun.
  - congruence.
  - destruct (VarSet.insert x s) as [s1|err] eqn:Hins; [|discriminate].
    pose proof (insert_Ok_compat x s s1 Hs Hins) as Hc.
    rewrite (insert_present x s Hs Hc) in Hins by (apply Hl; now left).
    injection Hins as <-. simpl in Hrun. apply IH; [|exact Hrun].
    intros e He. apply Hl. now right.
Qed.

Lemma local_unique_vars_labels (block_list : list MeshBlock) (s : VarSet.t) :
  local_unique_vars block_list = Ok s ->
  forall l, In l (VarSet.labels s)
            <-> In l (map cv_label (flat_map ci_vars block_list)).
Proof.
  intros Hrun l. destruct (local_unique_vars_elements _ _ Hrun) as (_ & _ & Hin).
  replace (map cv_label (flat_map ci_vars block_list))
    with (VarSet.labels (map info_of (flat_map ci_vars block_list)))
    by (unfold VarSet.labels; rewrite map_map; reflexivity).
  rewrite (first_with_label_labels (map info_of _)), in_labels.
  split; intros (e & He & El); exists e; (split; [|exact El]); now apply Hin.
Qed.

(** The variables of one rank are well formed when their labels are and the
    local set could be built. *)
Lemma local_unique_vars_well_formed (block_list : list MeshBlock) (s : VarSet.t) :
  local_unique_vars block_list = Ok s ->
  (forall v, In v (flat_map ci_vars block_list) -> good_label (cv_label v)) ->
  well_formed_vars (flat_map ci_vars block_list).
Proof.
  intros Hrun Hgood.
  destruct (insert_blocks_inv block_list [] s sorted_nil Hrun)
    as (Hs & Hlen & _ & _ & Hrep).
  split; [intros v Hv; split; auto|].
  intros v w Hv Hw El.
  destruct (Hrep v Hv) as (ev & Hev & Elv & Evv).
  destruct (Hrep w Hw) as (ew & Hew & Elw & Evw).
  assert (ev = ew) as E by (apply (sorted_unique_label s); [assumption..|congruence]).
  subst ew. congruence.
Qed.



(** ** The insertion into the set, in full *)

(** X3. The insertion of a descriptor into the set fails exactly when the
    set holds a descriptor of the same label and another length, and the
    error names the label; otherwise the set stays increasing in the labels
    and gains the descriptor if its label is new, and nothing if not. *)
Theorem insert_fails_on_other_length (x : VarInfo) (s : VarSet.t) :
  sorted s ->
  match VarSet.insert x s with
  | Fatal err =>
      err = MultipleLengths (label x)
      /\ exists e, In e s /\ label e = label x /\ vlen e <> vlen x
  | Ok s' =>
      compat x s /\ sorted s'
      /\ (forall e, In e s' <->
            (e = x /\ ~ In (label x) (VarSet.labels s)) \/ In e s)
  end.
Proof.
  intros Hs.
  destruct (existsb (fun e => (label e =? label x)%string
                              && negb (vlen e =? vlen x)) s) eqn:Ex.
  - apply existsb_exists in Ex as (e & He & Ee).
    apply andb_true_iff in Ee as [El Ev].
    apply String.eqb_eq in El. apply negb_true_iff in Ev. apply Z.eqb_neq in Ev.
    rewrite (insert_clash x s Hs) by eauto. split; [reflexivity | eauto].
  - assert (compat x s) as Hc.
    { intros e He El. destruct (Z.eq_dec (vlen e) (vlen x)) as [E|N]; [exact E|].
      exfalso. apply (proj2 (not_true_iff_false _) Ex). apply existsb_exists.
      exists e. split; [exact He|]. apply andb_true_iff. split.
      - now apply String.eqb_eq.
      - apply negb_true_iff. now apply Z.eqb_neq. }
    destruct (insert_compat x s Hs Hc) as (s' & -> & Hs' & Hin). auto.
Qed.

Lemma insert_fails_on_other_length_witness :
  exists e, In e [mkVarInfo "rho" 1 false false]
            /\ label e = "rho"%string /\ vlen e <> 3.
Proof.
  assert (sorted [mkVarInfo "rho" 1 false false]) as Hs
    by (apply sorted_cons; [apply sorted_nil | intros e []]).
  exact (proj2 (insert_fails_on_other_length (mkVarInfo "rho" 3 false false)
                  [mkVarInfo "rho" 1 false false] Hs)).
Defined.

(** ** The names and the index of the sparse fields *)

Lemma sparse_fields_acc (vars : list VarInfo) (names : list string)
  (idx : gmap string nat) :
  (forall l c, idx !! l = Some c <-> names !! c = Some l) ->
  List.NoDup (names ++ map label (List.filter is_sparse vars)) ->
  fst (foldl sparse_field_step (names, idx) vars)
    = names ++ map label (List.filter is_sparse vars)
  /\ forall l c,
       snd (foldl sparse_field_step (names, idx) vars) !! l = Some c
       <-> fst (foldl sparse_field_step (names, idx) vars) !! c = Some l.
Proof.
  revert names idx. induction vars as [|v vars IH]; intros names idx Hinv Hnd.
  - simpl. rewrite app_nil_r. split; [reflexivity | exact Hinv].
  - cbn [foldl List.filter].
    assert (sparse_field_step (names, idx) v
            = if is_sparse v
              then (names ++ [label v],
                    umap_insert (label v) (length names) idx)
              else (names, idx)) as -> by reflexivity.
    cbn [List.filter] in Hnd.
    destruct (is_sparse v) eqn:Ev; simpl in Hnd |- *; [|now apply IH].
    assert (~ In (label v) names) as Hfresh.
    { apply List.NoDup_remove_2 in Hnd. intros H. apply Hnd.
      apply in_or_app. now left. }
    assert (idx !! label v = None) as Hnone.
    { destruct (idx !! label v) as [c|] eqn:E; [|reflexivity].
      exfalso. apply Hfresh. apply Hinv in E.
      apply list_elem_of_In. eapply list_elem_of_lookup_2. exact E. }
    unfold umap_insert. rewrite Hnone.
    destruct (IH (names ++ [label v]) (<[label v := length names]> idx))
      as [Hfst Hsnd].
    + intros l c. destruct (string_dec l (label v)) as [->|Hne].
      * rewrite lookup_insert_eq. split.
        -- intros E. injection E as <-.
           rewrite lookup_app_r by lia. now rewrite Nat.sub_diag.
        -- intros E. f_equal.
           destruct (Nat.lt_ge_cases c (length names)) as [Hlt|Hge].
           ++ rewrite lookup_app_l in E by exact Hlt. exfalso. apply Hfresh.
              apply list_elem_of_In. eapply list_elem_of_lookup_2. exact E.
           ++ pose proof (lookup_lt_Some _ _ _ E) as Hc.
              rewrite length_app in Hc. simpl in Hc. lia.
      * rewrite lookup_insert_ne by congruence. rewrite Hinv. split.
        -- intros E. rewrite lookup_app_l; [exact E|].
           exact (lookup_lt_Some _ _ _ E).
        -- intros E.
           destruct (Nat.lt_ge_cases c (length names)) as [Hlt|Hge].
           ++ now rewrite lookup_app_l in E by exact Hlt.
           ++ rewrite lookup_app_r in E by exact Hge.
              destruct (c - length names)%nat; simpl in E; [congruence|].
              discriminate.
    + now rewrite <- app_assoc.
    + split; [rewrite Hfst, <- app_assoc; reflexivity | exact Hsnd].
Qed.

Lemma sorted_filter_labels (p : VarInfo -> bool) (s : VarSet.t) :
  sorted s -> StronglySorted lbl_lt (map label (List.filter p s)).
Proof.
  induction s as [|y s IH]; intros Hs; [constructor|].
  apply sorted_cons_inv in Hs as [Hs Hy]. simpl.
  destruct (p y); [|now apply IH]. simpl. constructor; [now apply IH|].
  apply List.Forall_forall. intros l Hl. apply in_map_iff in Hl as (e & <- & He).
  apply filter_In in He as [He _]. now apply Hy.
Qed.

Lemma sorted_labels_NoDup (ls : list string) :
  StronglySorted lbl_lt ls -> List.NoDup ls.
Proof.
  induction 1 as [|l ls _ IH Hall]; constructor; [|exact IH].
  intros Hin. rewrite List.Forall_forall in Hall.
  exact (lbl_lt_irrefl l (Hall l Hin)).
Qed.

(** X4. The names of the sparse fields are the labels of the sparse
    variables of the set in the order of the set, so in increasing order,
    and the index maps a label to a column exactly when the name of that
    column is the label. *)
Theorem sparse_fields_index (all_unique_vars : VarSet.t) :
  sorted all_unique_vars ->
  let sparse_names := fst (sparse_fields all_unique_vars) in
  let sparse_field_idx := snd (sparse_fields all_unique_vars) in
  sparse_names = map label (List.filter is_sparse all_unique_vars)
  /\ StronglySorted lbl_lt sparse_names
  /\ forall l c, sparse_field_idx !! l = Some c <-> sparse_names !! c = Some l.
Proof.
  intros Hs. pose proof (sorted_filter_labels is_sparse _ Hs) as Hsorted.
  destruct (sparse_fields_acc all_unique_vars [] ∅) as [Hfst Hsnd].
  - intros l c. rewrite lookup_empty, lookup_nil. split; discriminate.
  - simpl. now apply sorted_labels_NoDup.
  - simpl in Hfst. unfold sparse_fields. cbv zeta.
    rewrite Hfst. split; [reflexivity|]. split; [exact Hsorted|].
    intros l c. rewrite Hsnd, Hfst. reflexivity.
Qed.

Lemma sparse_fields_index_witness :
  snd (sparse_fields [mkVarInfo "a" 2 true false; mkVarInfo "d" 1 false false;
                      mkVarInfo "s" 1 true false]) !! "s"%string = Some 1%nat.
Proof.
  assert (sorted [mkVarInfo "a" 2 true false; mkVarInfo "d" 1 false false;
                  mkVarInfo "s" 1 true false]) as Hs.
  { repeat (apply sorted_cons; [|intros e He; simpl in He;
                                  decompose [or] He; subst; try reflexivity;
                                  contradiction]).
    apply sorted_nil. }
  apply (proj2 (proj2 (sparse_fields_index _ Hs))). reflexivity.
Defined.
(** ** When the writing of the variables fails *)

Lemma dense_missing_lacks (block_list : list MeshBlock) (v : VarInfo) :
  dense_missing block_list v = true <-> lacks_dense block_list v.
Proof.
  rewrite dense_missing_true. unfold lacks_dense.
  split; intros [Hd (pmb & Hp & Hm)]; (split; [exact Hd|]); exists pmb;
    (split; [exact Hp|]).
  - now rewrite <- has_var_block_has.
  - now rewrite has_var_block_has.
Qed.

(** X5. When the sizes the writer computes are exact, so that no store
    leaves the staging buffer, the writing of the variables of a set fails
    exactly when a block of the rank holds no variable of the label of a
    dense variable of the set; the error names the first such variable in
    the order of the set, and no other error is raised, in particular none
    by the lookup of a sparse variable in the index. *)
Theorem write_all_variables_fails (OutT : Type) (zero : OutT)
  (cast : R -> OutT) (ob : OutputBounds) (all_unique_vars : VarSet.t)
  (block_list : list MeshBlock) :
  valid_bounds ob -> int_lengths all_unique_vars ->
  sizes_fit ob all_unique_vars (length block_list) ->
  match write_all_variables OutT zero cast ob all_unique_vars block_list with
  | Ok _ => forall v, In v all_unique_vars -> ~ lacks_dense block_list v
  | Fatal err =>
      exists before v after,
        all_unique_vars = before ++ v :: after
        /\ lacks_dense block_list v
        /\ (forall w, In w before -> ~ lacks_dense block_list w)
        /\ err = DenseMissing (label v)
  end.
Proof.
  intros _ _ _.
  destruct (existsb (dense_missing block_list) all_unique_vars) eqn:Ex.
  - apply existsb_exists in Ex.
    destruct (write_all_variables_dense_missing OutT zero cast ob
                all_unique_vars block_list Ex)
      as (before & v & after & Hsplit & Hv & Hbefore & ->).
    exists before, v, after. split; [exact Hsplit|].
    split; [now apply dense_missing_lacks|]. split; [|reflexivity].
    intros w Hw Hlacks. apply dense_missing_lacks in Hlacks.
    rewrite (Hbefore w Hw) in Hlacks. discriminate.
  - assert (forall v, In v all_unique_vars -> dense_missing block_list v = false)
      as Hnone.
    { intros v Hv. destruct (dense_missing block_list v) eqn:E; [|reflexivity].
      exfalso. apply (proj2 (not_true_iff_false _) Ex).
      apply existsb_exists. eauto. }
    unfold write_all_variables.
    pose proof (fun v => sparse_fields_lookup all_unique_vars ([], ∅) v) as Hidx.
    fold (sparse_fields all_unique_vars) in Hidx.
    destruct (sparse_fields all_unique_vars) as [sparse_names sparse_field_idx].
    simpl in Hidx.
    match goal with
    | |- context [write_variables _ _ _ _ _ _ _ _ ?w] =>
        destruct (write_variables_ok OutT zero cast ob sparse_field_idx
                    (length sparse_names) block_list all_unique_vars w
                    Hidx) as (ws' & -> & _)
    end.
    + intros v Hv Hd. apply dense_missing_false; [now apply Hnone | exact Hd].
    + intros v Hv Hlacks. apply dense_missing_lacks in Hlacks.
      rewrite (Hnone v Hv) in Hlacks. discriminate.
Qed.

Lemma write_all_variables_fails_witness :
  write_all_variables R 0%R (fun x => x) example_cells
    [mkVarInfo "a" 2 true false; mkVarInfo "d" 1 false false]
    [block_with_d; block_without_d] = Fatal (DenseMissing "d")
  /\ lacks_dense [block_with_d; block_without_d] (mkVarInfo "d" 1 false false)
  /\ succeeds (write_all_variables R 0%R (fun x => x) example_cells
                 [mkVarInfo "a" 2 true false; mkVarInfo "d" 1 false false]
                 [block_with_d])
  /\ ~ lacks_dense [block_with_d] (mkVarInfo "d" 1 false false).
Proof.
  assert (write_all_variables R 0%R (fun x => x) example_cells
            [mkVarInfo "a" 2 true false; mkVarInfo "d" 1 false false]
            [block_with_d; block_without_d] = Fatal (DenseMissing "d")) as Hrun
    by (vm_compute; reflexivity).
  assert (valid_bounds example_cells) as Hob
    by (repeat split; vm_compute; discriminate).
  assert (int_lengths [mkVarInfo "a" 2 true false; mkVarInfo "d" 1 false false])
    as Hlen by (intros v [<-|[<-|[]]]; vm_compute; split; discriminate).
  split; [exact Hrun|]. split; [|split].
  - assert (sizes_fit example_cells
              [mkVarInfo "a" 2 true false; mkVarInfo "d" 1 false false]
              (length [block_with_d; block_without_d])) as Hfit
      by (repeat split; vm_compute; (discriminate || reflexivity)).
    pose proof (write_all_variables_fails R 0%R (fun x => x) example_cells
                  [mkVarInfo "a" 2 true false; mkVarInfo "d" 1 false false]
                  [block_with_d; block_without_d] Hob Hlen Hfit) as H.
    rewrite Hrun in H.
    destruct H as (before & v & after & Hsplit & Hlacks & Hbefore & Herr).
    injection Herr as Hl.
    destruct before as [|x [|y before]]; simpl in Hsplit;
      injection Hsplit as <- Hsplit.
    + discriminate Hl.
    + now rewrite Hsplit.
    + exfalso. now destruct before.
  - vm_compute. exact I.
  - assert (sizes_fit example_cells
              [mkVarInfo "a" 2 true false; mkVarInfo "d" 1 false false]
              (length [block_with_d])) as Hfit
      by (repeat split; vm_compute; (discriminate || reflexivity)).
    pose proof (write_all_variables_fails R 0%R (fun x => x) example_cells
                  [mkVarInfo "a" 2 true false; mkVarInfo "d" 1 false false]
                  [block_with_d] Hob Hlen Hfit) as H.
    destruct (write_all_variables R 0%R (fun x => x) example_cells
                [mkVarInfo "a" 2 true false; mkVarInfo "d" 1 false false]
                [block_with_d]) as [r|err] eqn:Hrun2.
    + apply H. right. now left.
    + exfalso. vm_compute in Hrun2. discriminate Hrun2.
Defined.

(** ** The datasets a rank writes *)

Lemma lookup_range_list (r : IndexRange) (x : Z) :
  in_range r x -> range_list r !! Z.to_nat (x - s r) = Some x.
Proof.
  intros [Hs He]. unfold range_list. rewrite lookup_seqZ_lt by lia.
  f_equal. lia.
Qed.

Lemma flat_bound (dk dj di l n3 n2 n1 vlen : Z) :
  0 <= dk < n3 -> 0 <= dj < n2 -> 0 <= di < n1 -> 0 <= l < vlen ->
  0 <= ((dk * n2 + dj) * n1 + di) * vlen + l < n3 * n2 * n1 * vlen.
Proof.
  intros Hk Hj Hi Hl.
  assert (0 <= di * vlen + l < n1 * vlen) as H1 by nia.
  assert (0 <= (dj * n1 + di) * vlen + l < n2 * (n1 * vlen)) as H2 by nia.
  replace (((dk * n2 + dj) * n1 + di) * vlen + l)
    with (dk * (n2 * (n1 * vlen)) + ((dj * n1 + di) * vlen + l)) by ring.
  replace (n3 * n2 * n1 * vlen) with (n3 * (n2 * (n1 * vlen))) by ring.
  set (M := n2 * (n1 * vlen)) in *. set (X := (dj * n1 + di) * vlen + l) in *.
  nia.
Qed.

Section Layout.

Variable OutT : Type.
Variable zero : OutT.
Variable cast : R -> OutT.
Variable ob : OutputBounds.

Hypothesis ob_valid : valid_bounds ob.
Hypothesis cells_ok : cells_fit ob.

(** The values of a block lie in the order of the dimensions
    [(nx3, nx2, nx1, vlen)]. *)
Lemma block_values_lookup (v_h : Z -> Z -> Z -> Z -> R) (vlen k j i l : Z) :
  in_range (out_kb ob) k -> in_range (out_jb ob) j -> in_range (out_ib ob) i ->
  0 <= l < vlen ->
  block_values cast ob v_h vlen
    !! Z.to_nat ((((k - s (out_kb ob)) * nx2 ob + (j - s (out_jb ob))) * nx1 ob
                  + (i - s (out_ib ob))) * vlen + l)
  = Some (cast (v_h l k j i)).
Proof using ob_valid.
  intros Hk Hj Hi Hl. destruct ob_valid as (H1 & H2 & H3).
  pose proof Hk as [Hk1 Hk2]. pose proof Hj as [Hj1 Hj2].
  pose proof Hi as [Hi1 Hi2]. unfold nx1, nx2, nx3 in *.
  set (dk := k - s (out_kb ob)) in *. set (dj := j - s (out_jb ob)) in *.
  set (di := i - s (out_ib ob)) in *.
  set (n1 := e (out_ib ob) - s (out_ib ob) + 1) in *.
  set (n2 := e (out_jb ob) - s (out_jb ob) + 1) in *.
  assert (0 <= dk) by lia. assert (0 <= dj < n2) by lia.
  assert (0 <= di < n1) by lia.
  assert (0 <= di * vlen + l < n1 * vlen) by nia.
  assert (0 <= (dj * n1 + di) * vlen + l < n2 * (n1 * vlen)) by nia.
  unfold block_values.
  replace (Z.to_nat (((dk * n2 + dj) * n1 + di) * vlen + l))
    with (Z.to_nat dk * Z.to_nat (n2 * (n1 * vlen))
          + Z.to_nat ((dj * n1 + di) * vlen + l))%nat
    by (rewrite <- Z2Nat.inj_mul, <- Z2Nat.inj_add by nia; f_equal; ring).
  rewrite (lookup_bind_chunk _ _ (Z.to_nat (n2 * (n1 * vlen))) _ _ k);
    [| | now apply lookup_range_list | lia].
  2:{ intros y. rewrite (length_bind_const _ _ (Z.to_nat (n1 * vlen))).
      - rewrite length_range_list. fold n2.
        rewrite <- Z2Nat.inj_mul by nia. reflexivity.
      - intros y'. rewrite (length_bind_const _ _ (Z.to_nat vlen)).
        + rewrite length_range_list. fold n1.
          rewrite <- Z2Nat.inj_mul by nia. reflexivity.
        + intros y''. rewrite (length_bind_const _ _ 1%nat) by reflexivity.
          rewrite length_seqZ. lia. }
  replace (Z.to_nat ((dj * n1 + di) * vlen + l))
    with (Z.to_nat dj * Z.to_nat (n1 * vlen) + Z.to_nat (di * vlen + l))%nat
    by (rewrite <- Z2Nat.inj_mul, <- Z2Nat.inj_add by nia; f_equal; ring).
  rewrite (lookup_bind_chunk _ _ (Z.to_nat (n1 * vlen)) _ _ j);
    [| | now apply lookup_range_list | lia].
  2:{ intros y'. rewrite (length_bind_const _ _ (Z.to_nat vlen)).
      - rewrite length_range_list. fold n1.
        rewrite <- Z2Nat.inj_mul by nia. reflexivity.
      - intros y''. rewrite (length_bind_const _ _ 1%nat) by reflexivity.
        rewrite length_seqZ. lia. }
  replace (Z.to_nat (di * vlen + l))
    with (Z.to_nat di * Z.to_nat vlen + Z.to_nat l)%nat
    by (rewrite <- Z2Nat.inj_mul, <- Z2Nat.inj_add by nia; f_equal; ring).
  rewrite (lookup_bind_chunk _ _ (Z.to_nat vlen) _ _ i);
    [| | now apply lookup_range_list | lia].
  2:{ intros y''. rewrite (length_bind_const _ _ 1%nat) by reflexivity.
      rewrite length_seqZ. lia. }
  replace (Z.to_nat l) with (Z.to_nat l * 1 + 0)%nat by lia.
  rewrite (lookup_bind_chunk _ _ 1%nat _ _ l); [reflexivity | reflexivity | | lia].
  rewrite lookup_seqZ_lt by lia. f_equal. lia.
Qed.

(** The region of a block in the buffer holds the values of the variable,
    or zeros. *)
Lemma block_data_lookup (vinfo : VarInfo) (pmb : MeshBlock) (k j i l : Z) :
  in_range (out_kb ob) k -> in_range (out_jb ob) j -> in_range (out_ib ob) i ->
  0 <= l < vlen vinfo -> vlen vinfo <= CInt.int_max ->
  block_data zero cast ob vinfo pmb
    !! Z.to_nat ((((k - s (out_kb ob)) * nx2 ob + (j - s (out_jb ob))) * nx1 ob
                  + (i - s (out_ib ob))) * vlen vinfo + l)
  = Some (cell_value zero cast (label vinfo) pmb l k j i).
Proof using ob_valid cells_ok.
  intros Hk Hj Hi Hl Hint. unfold block_data, cell_value.
  destruct (find_var (label vinfo) (ci_vars pmb)) as [v|].
  - now apply block_values_lookup.
  - apply lookup_replicate_2.
    rewrite memset_count by (first [assumption | lia]).
    unfold block_size, ncells.
    destruct Hk, Hj, Hi. unfold nx1, nx2, nx3 in *.
    pose proof (flat_bound (k - s (out_kb ob)) (j - s (out_jb ob))
                  (i - s (out_ib ob)) l
                  (e (out_kb ob) - s (out_kb ob) + 1)
                  (e (out_jb ob) - s (out_jb ob) + 1)
                  (e (out_ib ob) - s (out_ib ob) + 1) (vlen vinfo)).
    apply Z2Nat.inj_lt; lia.
Qed.

(** The buffer after the packing of a variable, at the place of a cell of a
    block. *)
Lemma packed_lookup (block_list : list MeshBlock) (total : nat) (vinfo : VarInfo)
  (b : nat) (pmb : MeshBlock) (k j i l : Z) :
  (length block_list * block_size ob (vlen vinfo) <= total)%nat ->
  block_list !! b = Some pmb ->
  in_range (out_kb ob) k -> in_range (out_jb ob) j -> in_range (out_ib ob) i ->
  0 <= l < vlen vinfo -> vlen vinfo <= CInt.int_max ->
  list_inserts 0 (block_list ≫= block_data zero cast ob vinfo)
    (replicate total zero) !! flat_index ob (vlen vinfo) b k j i l
  = Some (cell_value zero cast (label vinfo) pmb l k j i).
Proof using ob_valid cells_ok.
  intros Hfit Hb Hk Hj Hi Hl Hint.
  pose proof (lookup_lt_Some _ _ _ Hb) as Hblt.
  set (N := block_size ob (vlen vinfo)) in *.
  set (r := Z.to_nat ((((k - s (out_kb ob)) * nx2 ob + (j - s (out_jb ob)))
                       * nx1 ob + (i - s (out_ib ob))) * vlen vinfo + l)).
  assert (0 <= (((k - s (out_kb ob)) * nx2 ob + (j - s (out_jb ob))) * nx1 ob
                + (i - s (out_ib ob))) * vlen vinfo + l
          < nx3 ob * nx2 ob * nx1 ob * vlen vinfo) as Hbound.
  { apply flat_bound; [| | |exact Hl]; unfold nx1, nx2, nx3;
      destruct Hk, Hj, Hi; lia. }
  assert (r < N)%nat as Hr.
  { subst r N. unfold block_size, ncells. apply Z2Nat.inj_lt; lia. }
  assert (flat_index ob (vlen vinfo) b k j i l = (b * N + r)%nat) as ->.
  { subst r N. unfold flat_index, block_size, ncells.
    set (P := nx3 ob * nx2 ob * nx1 ob * vlen vinfo) in *.
    rewrite <- (Nat2Z.id b) at 2.
    rewrite <- Z2Nat.inj_mul, <- Z2Nat.inj_add by nia. f_equal.
    unfold P. ring. }
  assert (forall y, length (block_data zero cast ob vinfo y) = N) as Hone
    by (intros y; apply length_block_data; [assumption | assumption | lia]).
  assert (length (block_list ≫= block_data zero cast ob vinfo)
          = (length block_list * N)%nat) as Hlen
    by now apply length_bind_const.
  rewrite list_lookup_inserts by (rewrite ?Hlen, ?length_replicate; nia).
  rewrite Nat.sub_0_r.
  rewrite (lookup_bind_chunk _ _ N b _ pmb)
    by (first [ exact Hone | exact Hb | exact Hr ]).
  now apply block_data_lookup.
Qed.

(** The loop over the variables: the calls it makes, each with the buffer it
    hands over. *)
Lemma write_variables_writes (sparse_field_idx : gmap string nat)
  (num_sparse : nat) (block_list : list MeshBlock) (vars : list VarInfo)
  (ws : WriterState OutT) :
  (forall v, In v vars -> is_sparse v = true ->
             is_Some (sparse_field_idx !! label v)) ->
  (forall v, In v vars -> is_sparse v = false ->
             forall pmb, In pmb block_list -> has_var (label v) pmb = true) ->
  exists ws',
    write_variables OutT zero cast ob sparse_field_idx num_sparse block_list
      vars ws = Ok ws'
    /\ ws_writes ws'
       = rev (map (fun v =>
                     {| write_name := label v;
                        write_data :=
                          list_inserts 0
                            (block_list ≫= block_data zero cast ob v)
                            (replicate (length (ws_tmpData ws)) zero) |})
                (List.filter (found_on block_list) vars))
           ++ ws_writes ws.
Proof.
  revert ws. induction vars as [|v vars IH]; intros ws Hidx Hdense.
  - exists ws. split; reflexivity.
  - assert (exists c, is_sparse v = true ->
                       sparse_field_idx !! label v = Some c) as [c Hc].
    { destruct (is_sparse v) eqn:E.
      - destruct (Hidx v (or_introl eq_refl) E) as [c Hc]. exists c. auto.
      - exists 0%nat. discriminate. }
    simpl.
    rewrite (write_variable_ok OutT zero cast ob sparse_field_idx num_sparse
               block_list v ws c Hc (Hdense v (or_introl eq_refl))).
    cbn [mbind result_bind].
    match goal with
    | |- context [write_variables _ _ _ _ _ _ _ _ ?w] =>
        destruct (IH w) as (ws' & Hrun & Hw)
    end; [intros w Hw; apply Hidx; now right
         | intros w Hw; apply Hdense; now right |].
    exists ws'. split; [exact Hrun|]. rewrite Hw. cbn [ws_tmpData ws_writes].
    rewrite length_inserts, length_replicate.
    destruct (found_on block_list v); simpl; [|reflexivity].
    now rewrite <- app_assoc.
Qed.

End Layout.
Lemma Forall2_map_diag {A B : Type} (P : B -> A -> Prop) (f : A -> B)
  (l : list A) :
  (forall x, In x l -> P (f x) x) -> Forall2 P (map f l) l.
Proof.
  induction l as [|x l IH]; intros H; simpl; constructor.
  - apply H. now left.
  - apply IH. intros y Hy. apply H. now right.
Qed.

(** X6. When the sizes the writer computes are exact and no block of the
    rank lacks a dense variable of the set, the rank calls [HDF5WriteND]
    once for every variable of the set that one of its blocks holds, in the
    order of the set. The buffer of the call has the size of the staging
    buffer, and it is laid out as the dataset of dimensions
    [(blocks, nx3, nx2, nx1, vlen)]: at the place of component [l] of cell
    [(k, j, i)] of the block of local index [b] stands the value there of
    the first variable of the block that has the label, converted to the
    output type, and zero when the block holds no variable of the label. *)
Theorem written_datasets (OutT : Type) (zero : OutT) (cast : R -> OutT)
  (ob : OutputBounds) (all_unique_vars : VarSet.t)
  (block_list : list MeshBlock) :
  valid_bounds ob -> int_lengths all_unique_vars ->
  sizes_fit ob all_unique_vars (length block_list) ->
  (forall v, In v all_unique_vars -> ~ lacks_dense block_list v) ->
  exists writes expanded,
    write_all_variables OutT zero cast ob all_unique_vars block_list
      = Ok (writes, expanded)
    /\ Forall2
         (fun w v =>
            write_name w = label v
            /\ length (write_data w)
               = staging_size ob all_unique_vars (length block_list)
            /\ forall b pmb k j i l,
                 block_list !! b = Some pmb ->
                 in_range (out_kb ob) k -> in_range (out_jb ob) j ->
                 in_range (out_ib ob) i -> 0 <= l < vlen v ->
                 (forall cv, first_var (label v) pmb cv ->
                    write_data w !! flat_index ob (vlen v) b k j i l
                    = Some (cast (cv_data cv l k j i)))
                 /\ (block_has (label v) pmb = false ->
                     write_data w !! flat_index ob (vlen v) b k j i l
                     = Some zero))
         writes (List.filter (held_on block_list) all_unique_vars).
Proof.
  intros Hob Hlen Hfit Hnone. unfold write_all_variables.
  pose proof (fun v => sparse_fields_lookup all_unique_vars ([], ∅) v) as Hidx.
  fold (sparse_fields all_unique_vars) in Hidx.
  destruct (sparse_fields all_unique_vars) as [sparse_names sparse_field_idx].
  simpl in Hidx.
  match goal with
  | |- context [write_variables _ _ _ _ _ _ _ _ ?w] =>
      destruct (write_variables_writes OutT zero cast ob sparse_field_idx
                  (length sparse_names) block_list all_unique_vars w
                  Hidx) as (ws' & -> & Hw)
  end.
  { intros v Hv Hd pmb Hp. rewrite has_var_block_has.
    destruct (block_has (label v) pmb) eqn:E; [reflexivity|].
    exfalso. apply (Hnone v Hv). split; [exact Hd | eauto]. }
  cbn [mbind result_bind]. eexists _, _. split; [reflexivity|].
  rewrite Hw. cbn [ws_writes ws_tmpData]. rewrite app_nil_r, rev_involutive.
  rewrite length_replicate, tmpData_size_exact by assumption.
  rewrite (List.filter_ext _ _ (found_on_held_on block_list)).
  apply Forall2_map_diag. intros v Hv. apply filter_In in Hv as [Hv _].
  cbn [write_name write_data]. split; [reflexivity|]. split.
  - now rewrite length_inserts, length_replicate.
  - intros b pmb k j i l Hb Hk Hj Hi Hl.
    pose proof (packed_lookup OutT zero cast ob Hob (proj1 Hfit) block_list
                  (staging_size ob all_unique_vars (length block_list)) v
                  b pmb k j i l
                  (staging_buffer_fits ob all_unique_vars (length block_list) v
                     Hob Hv (proj1 (Hlen v Hv)))
                  Hb Hk Hj Hi Hl (proj2 (Hlen v Hv))) as Hcell.
    unfold cell_value in Hcell. split.
    + intros cv Hcv. apply find_var_first in Hcv. now rewrite Hcv in Hcell.
    + intros Hmiss. now rewrite (block_has_false _ _ Hmiss) in Hcell.
Qed.

Lemma written_datasets_witness :
  exists w expanded,
    write_all_variables R 0%R (fun x => x) example_cells
      [mkVarInfo "a" 2 true false] [block_with_a; block_without_a]
      = Ok ([w], expanded)
    /\ write_name w = "a"%string
    /\ write_data w !! 3%nat = Some (IZR 2)
    /\ write_data w !! 5%nat = Some 0%R.
Proof.
  assert (valid_bounds example_cells) as Hob
    by (repeat split; vm_compute; discriminate).
  assert (int_lengths [mkVarInfo "a" 2 true false]) as Hlen
    by (intros v [<-|[]]; vm_compute; split; discriminate).
  assert (sizes_fit example_cells [mkVarInfo "a" 2 true false]
            (length [block_with_a; block_without_a])) as Hfit
    by (repeat split; vm_compute; (discriminate || reflexivity)).
  assert (forall v, In v [mkVarInfo "a" 2 true false] ->
                    ~ lacks_dense [block_with_a; block_without_a] v)
    as Hnone by (intros v [<-|[]] [Hd _]; discriminate Hd).
  destruct (written_datasets R 0%R (fun x => x) example_cells
              [mkVarInfo "a" 2 true false] [block_with_a; block_without_a]
              Hob Hlen Hfit Hnone) as (writes & expanded & Hrun & Hall).
  change (List.filter (held_on [block_with_a; block_without_a])
            [mkVarInfo "a" 2 true false])
    with [mkVarInfo "a" 2 true false] in Hall.
  inversion Hall as [|w v ws vs (Hname & _ & Hcells) Hrest]; subst.
  inversion Hrest; subst.
  exists w, expanded. split; [exact Hrun|]. split; [exact Hname|].
  assert (in_range {| s := 0; e := 0 |} 0) as H0 by (unfold in_range; simpl; lia).
  split.
  - refine (proj1 (Hcells 0%nat block_with_a 0 0 1 1 eq_refl H0 H0 _ _)
              {| cv_label := "a"; cv_dim4 := 2; cv_IsSparse := true;
                 cv_IsVector := false;
                 cv_data := fun l _ _ i => IZR (l + i) |} _).
    + unfold in_range. simpl. lia.
    + simpl. lia.
    + exists [], []. split; [reflexivity|]. split; [reflexivity | intros x []].
  - refine (proj2 (Hcells 1%nat block_without_a 0 0 0 1 eq_refl H0 H0 _ _) _).
    + unfold in_range. simpl. lia.
    + simpl. lia.
    + reflexivity.
Defined.

(** ** The staging buffer is large enough *)

Section Index.

Variable OutT : Type.
Variable zero : OutT.
Variable cast : R -> OutT.
Variable ob : OutputBounds.
Variable sparse_field_idx : gmap string nat.
Variable num_sparse : nat.
Variable vinfo : VarInfo.

Hypothesis ob_valid : valid_bounds ob.
Hypothesis cells_ok : cells_fit ob.
Hypothesis vlen_int : 0 <= vlen vinfo <= CInt.int_max.

(** Every block moves the index by the number of values of a block, found or
    not, and leaves the buffer its size. *)
Lemma pack_block_index (b_idx : nat) (pmb : MeshBlock) (st st' : PackState OutT) :
  pack_block OutT zero cast ob sparse_field_idx num_sparse vinfo b_idx pmb st
    = Ok st' ->
  index st' = (index st + block_size ob (vlen vinfo))%nat
  /\ length (tmpData st') = length (tmpData st).
Proof using ob_valid cells_ok vlen_int.
  unfold pack_block.
  destruct (find_var (label vinfo) (ci_vars pmb)) as [v|] eqn:Ef.
  - rewrite copy_block_store. unfold store. cbn [fst snd].
    destruct (is_sparse vinfo);
      [destruct (sparse_field_idx !! label vinfo); [|discriminate]|];
      cbn [mbind result_bind negb]; intros H; injection H as <-;
      cbn [index tmpData]; rewrite length_inserts;
      rewrite (length_block_values OutT cast ob (cv_data v) (vlen vinfo)
                 ob_valid (proj1 vlen_int));
      split; [lia | reflexivity | lia | reflexivity].
  - destruct (is_sparse vinfo); [|discriminate].
    destruct (sparse_field_idx !! label vinfo); [|discriminate].
    cbn [mbind result_bind negb]. intros H. injection H as <-.
    cbn [index tmpData]. rewrite length_inserts, memset_count by assumption.
    split; reflexivity.
Qed.

Lemma pack_blocks_index (block_list : list MeshBlock) (b_idx : nat)
  (st st' : PackState OutT) :
  pack_blocks OutT zero cast ob sparse_field_idx num_sparse vinfo b_idx
    block_list st = Ok st' ->
  index st' = (index st + length block_list * block_size ob (vlen vinfo))%nat
  /\ length (tmpData st') = length (tmpData st).
Proof using ob_valid cells_ok vlen_int.
  revert b_idx st. induction block_list as [|pmb rest IH]; intros b_idx st Hrun.
  - injection Hrun as <-. split; [simpl; lia | reflexivity].
  - simpl in Hrun.
    destruct (pack_block OutT zero cast ob sparse_field_idx num_sparse vinfo
                b_idx pmb st) as [st1|err] eqn:E1; [|discriminate].
    apply pack_block_index in E1 as [Hi1 Hl1].
    apply IH in Hrun as [Hi Hl]. rewrite Hi, Hl, Hi1, Hl1. split; [simpl; lia | reflexivity].
Qed.

End Index.

(** X7. When the sizes the writer computes are exact (the number of cells
    of a block and the number of local blocks fit an [int], the size of the
    buffer an [hsize_t]), the staging buffer as the writer allocates it is
    large enough for every variable of the set: it has a place for every
    value of the longest variable on every local block, the packing of a
    variable over the blocks of the rank moves the index by the number of
    values of a block for every block, holding the variable or not, and
    the index ends within the buffer, whose size does not change. *)
Theorem staging_buffer_never_overrun (OutT : Type) (zero : OutT)
  (cast : R -> OutT) (ob : OutputBounds) (all_unique_vars : VarSet.t)
  (block_list : list MeshBlock) (sparse_field_idx : gmap string nat)
  (num_sparse : nat) (vinfo : VarInfo) (expanded : list (option bool))
  (st : PackState OutT) :
  valid_bounds ob -> int_lengths all_unique_vars ->
  sizes_fit ob all_unique_vars (length block_list) ->
  In vinfo all_unique_vars ->
  pack_blocks OutT zero cast ob sparse_field_idx num_sparse vinfo 0 block_list
    {| tmpData := replicate (tmpData_size ob all_unique_vars block_list) zero;
       index := 0; found_any := false; sparse_expanded := expanded |} = Ok st ->
  tmpData_size ob all_unique_vars block_list
    = staging_size ob all_unique_vars (length block_list)
  /\ index st = (length block_list * block_size ob (vlen vinfo))%nat
  /\ (index st <= length (tmpData st))%nat
  /\ length (tmpData st) = tmpData_size ob all_unique_vars block_list.
Proof.
  intros Hob Hlen Hfit Hv Hrun.
  pose proof (tmpData_size_exact ob all_unique_vars block_list Hob Hlen Hfit)
    as Hsize.
  apply (pack_blocks_index OutT zero cast ob sparse_field_idx num_sparse vinfo
           Hob (proj1 Hfit) (Hlen vinfo Hv)) in Hrun as [Hi Hl].
  cbn [index tmpData] in Hi, Hl. rewrite length_replicate in Hl.
  split; [exact Hsize|]. rewrite Hi, Hl. split; [reflexivity|].
  split; [|reflexivity].
  rewrite Hsize. simpl.
  apply staging_buffer_fits; [exact Hob | exact Hv | apply (Hlen vinfo Hv)].
Qed.

Lemma staging_buffer_never_overrun_witness :
  exists st : PackState R,
    pack_blocks R 0%R (fun x => x) example_cells {[ "a"%string := 0%nat ]} 2
      (mkVarInfo "a" 2 true false) 0 [block_with_a; block_without_a]
      {| tmpData := replicate 12 0%R; index := 0; found_any := false;
         sparse_expanded := [None; None; None; None] |} = Ok st
    /\ index st = 8%nat /\ length (tmpData st) = 12%nat.
Proof.
  assert (valid_bounds example_cells) as Hob
    by (repeat split; vm_compute; discriminate).
  assert (int_lengths [mkVarInfo "a" 2 true false; mkVarInfo "b" 3 true false])
    as Hlen by (intros v [<-|[<-|[]]]; vm_compute; split; discriminate).
  assert (sizes_fit example_cells
            [mkVarInfo "a" 2 true false; mkVarInfo "b" 3 true false]
            (length [block_with_a; block_without_a])) as Hfit
    by (repeat split; vm_compute; (discriminate || reflexivity)).
  eexists. split; [vm_compute; reflexivity|].
  refine (let H := staging_buffer_never_overrun R 0%R (fun x => x)
                     example_cells
                     [mkVarInfo "a" 2 true false; mkVarInfo "b" 3 true false]
                     [block_with_a; block_without_a]
                     {[ "a"%string := 0%nat ]} 2
                     (mkVarInfo "a" 2 true false) [None; None; None; None] _
                     Hob Hlen Hfit (or_introl eq_refl) _ in
          conj (proj1 (proj2 H)) (proj2 (proj2 (proj2 H)))).
  vm_compute. reflexivity.
Defined.

(** ** What the fill kernels leave alone *)

Lemma run_launch_frame (dir_int : CoordinateDirection -> Z)
  (DIR : CoordinateDirection) (TYPE : BCType) (ref offset : Z)
  (q : VariablePack) (order : list (Z * Z * Z * Z)) (l k j i : Z) :
  (forall a, In (a, k, j, i) order -> GetVarIdx (alloc_idxs q) a <> l) ->
  run_launch dir_int DIR TYPE ref offset q order l k j i = pack_data q l k j i.
Proof.
  unfold run_launch.
  induction order as [|[[[a0 k0] j0] i0] order IH] using rev_ind; intros Hnot.
  - reflexivity.
  - rewrite fold_left_app. simpl. rewrite bc_kernel_value, pack_set_other.
    + apply IH. intros a Hin. apply Hnot, in_or_app. now left.
    + intros E. injection E as -> -> -> ->.
      apply (Hnot a0); [|reflexivity]. apply in_or_app. right. now left.
Qed.

Lemma launched_dec (DIR : CoordinateDirection) (SIDE : BCSide)
  (bounds : IndexShape) (q : VariablePack) (l k j i : Z) :
  {launched DIR SIDE bounds q l k j i} + {~ launched DIR SIDE bounds q l k j i}.
Proof.
  unfold launched, in_range.
  destruct (in_dec Z.eq_dec l (alloc_idxs q)) as [Hin|Hn].
  - destruct (Z_le_dec (s (GetBoundsK bounds (face_domain DIR SIDE))) k);
      [|right; tauto].
    destruct (Z_le_dec k (e (GetBoundsK bounds (face_domain DIR SIDE))));
      [|right; tauto].
    destruct (Z_le_dec (s (GetBoundsJ bounds (face_domain DIR SIDE))) j);
      [|right; tauto].
    destruct (Z_le_dec j (e (GetBoundsJ bounds (face_domain DIR SIDE))));
      [|right; tauto].
    destruct (Z_le_dec (s (GetBoundsI bounds (face_domain DIR SIDE))) i);
      [|right; tauto].
    destruct (Z_le_dec i (e (GetBoundsI bounds (face_domain DIR SIDE))));
      [|right; tauto].
    left. split; [lia|]. split; [lia|]. split; [lia|].
    destruct (@In_nth Z (alloc_idxs q) l 0 Hin) as [pos [Hpos Epos]]. exists (Z.of_nat pos).
    split; [lia|]. unfold GetVarIdx. now rewrite Nat2Z.id.
  - right. intros (_ & _ & _ & a & Ha & E). apply Hn. rewrite <- E.
    unfold GetVarIdx. apply nth_In. lia.
Qed.

Section Frame.

Variable dir_int : CoordinateDirection -> Z.
Variable launch_order :
  IndexRange -> IndexRange -> IndexRange -> IndexRange -> list (Z * Z * Z * Z).
Hypothesis launch_visits : visits_launch launch_order.

(** A cell the launch does not visit keeps its value. *)
Lemma GenericBC_other_cells (DIR : CoordinateDirection) (SIDE : BCSide)
  (TYPE : BCType) (rc : BlockData) (coarse : bool) (l k j i : Z) :
  ~ launched DIR SIDE (bounds_of rc coarse) (pack_of rc coarse) l k j i ->
  pack_data (pack_of (GenericBC dir_int launch_order DIR SIDE TYPE rc coarse)
               coarse) l k j i
  = pack_data (pack_of rc coarse) l k j i.
Proof using launch_visits.
  intros Hnot. rewrite pack_of_GenericBC. apply run_launch_frame.
  intros a Hin E. apply launch_visits in Hin as (Ha & Hk & Hj & Hi).
  apply Hnot. repeat (split; [assumption|]). exists a.
  split; [|exact E]. unfold in_range in Ha. simpl in Ha. lia.
Qed.

(** What [GenericBC] does not touch at all. *)
Lemma GenericBC_rest (DIR : CoordinateDirection) (SIDE : BCSide)
  (TYPE : BCType) (rc : BlockData) (coarse : bool) :
  let rc' := GenericBC dir_int launch_order DIR SIDE TYPE rc coarse in
  pack_of rc' (negb coarse) = pack_of rc (negb coarse)
  /\ cellbounds rc' = cellbounds rc
  /\ c_cellbounds rc' = c_cellbounds rc
  /\ VectorComponent (pack_of rc' coarse) = VectorComponent (pack_of rc coarse)
  /\ alloc_idxs (pack_of rc' coarse) = alloc_idxs (pack_of rc coarse).
Proof. destruct coarse; repeat split. Qed.

(** A visited cell gets the value the kernel computes from the data as they
    were before the launch. *)
Lemma GenericBC_launched (DIR : CoordinateDirection) (SIDE : BCSide)
  (TYPE : BCType) (rc : BlockData) (coarse : bool) (l k j i : Z) :
  let bounds := bounds_of rc coarse in
  let q := pack_of rc coarse in
  let ref := ref_index SIDE (interior_range DIR bounds) in
  ghost_region DIR SIDE bounds ->
  launched DIR SIDE bounds q l k j i ->
  pack_data (pack_of (GenericBC dir_int launch_order DIR SIDE TYPE rc coarse)
               coarse) l k j i
  = fill_value dir_int DIR TYPE ref (reflect_offset SIDE ref)
      (VectorComponent q) (pack_data q) l k j i.
Proof using launch_visits.
  intros bounds q ref Hghost (Hk & Hj & Hi & a & Ha & <-).
  now apply GenericBC_fill.
Qed.

(** The cell a visited cell reads from is not visited. *)
Lemma source_not_launched (DIR : CoordinateDirection) (SIDE : BCSide)
  (TYPE : BCType) (bounds : IndexShape) (q : VariablePack) (l k j i : Z) :
  let ref := ref_index SIDE (interior_range DIR bounds) in
  ghost_region DIR SIDE bounds ->
  launched DIR SIDE bounds q l k j i ->
  let '(k', j', i') :=
    source_index DIR TYPE ref (reflect_offset SIDE ref) k j i in
  ~ launched DIR SIDE bounds q l k' j' i'.
Proof.
  intros ref Hghost (Hk & Hj & Hi & _).
  pose proof (launch_ghost DIR SIDE bounds k j i Hghost Hk Hj Hi) as Hg.
  pose proof (source_not_ghost DIR SIDE TYPE (interior_range DIR bounds) k j i Hg)
    as Hng.
  fold ref in Hng.
  destruct (source_index DIR TYPE ref (reflect_offset SIDE ref) k j i)
    as [[k' j'] i'].
  intros (Hk' & Hj' & Hi' & _). apply Hng. now apply launch_ghost.
Qed.

End Frame.

(** X8. [GenericBC] changes nothing but the cells the launch visits: a cell
    outside the domain of the face, or of a variable that is not allocated,
    keeps its value, and so does every cell that is not a ghost cell of the
    face when the domain of the face lies outside the interior range; the
    pack of the other kind, the index shapes, the vector components and the
    allocated indices are as they were. *)
Theorem GenericBC_changes_face_only (dir_int : CoordinateDirection -> Z)
  (launch_order : IndexRange -> IndexRange -> IndexRange -> IndexRange
                  -> list (Z * Z * Z * Z))
  (DIR : CoordinateDirection) (SIDE : BCSide) (TYPE : BCType)
  (rc : BlockData) (coarse : bool) :
  let bounds := bounds_of rc coarse in
  let q := pack_of rc coarse in
  let rc' := GenericBC dir_int launch_order DIR SIDE TYPE rc coarse in
  visits_launch launch_order ->
  (forall l k j i,
     ~ launched DIR SIDE bounds q l k j i ->
     pack_data (pack_of rc' coarse) l k j i = pack_data q l k j i)
  /\ (ghost_region DIR SIDE bounds ->
      forall l k j i,
        ~ ghost_index SIDE (interior_range DIR bounds) (dir_index DIR k j i) ->
        pack_data (pack_of rc' coarse) l k j i = pack_data q l k j i)
  /\ pack_of rc' (negb coarse) = pack_of rc (negb coarse)
  /\ cellbounds rc' = cellbounds rc
  /\ c_cellbounds rc' = c_cellbounds rc
  /\ VectorComponent (pack_of rc' coarse) = VectorComponent q
  /\ alloc_idxs (pack_of rc' coarse) = alloc_idxs q.
Proof.
  intros bounds q rc' Hvisit. split; [|split].
  - intros l k j i Hnot. now apply GenericBC_other_cells.
  - intros Hghost l k j i Hng. apply GenericBC_other_cells; [exact Hvisit|].
    intros (Hk & Hj & Hi & _). apply Hng. now apply launch_ghost.
  - apply GenericBC_rest.
Qed.

Lemma GenericBC_changes_face_only_witness :
  pack_data
    (pack_of (GenericBC example_dir_int nested_order X1DIR Inner Reflect
                example_block false) false) 0 0 0 4
  = pack_data example_pack 0 0 0 4.
Proof.
  refine (proj1 (GenericBC_changes_face_only example_dir_int nested_order
                   X1DIR Inner Reflect example_block false
                   nested_order_visits) 0 0 0 4 _).
  intros (_ & _ & Hi & _). unfold in_range in Hi. simpl in Hi. lia.
Defined.

(** ** The fill kernels and the order of the launch *)

(** X9. When the domain of the face lies outside the interior range, the
    pack after [GenericBC] is the same whatever the order in which
    [par_for_bndry] visits the indices of the launch. *)
Theorem GenericBC_order_independent (dir_int : CoordinateDirection -> Z)
  (launch_order launch_order' : IndexRange -> IndexRange -> IndexRange
                                -> IndexRange -> list (Z * Z * Z * Z))
  (DIR : CoordinateDirection) (SIDE : BCSide) (TYPE : BCType)
  (rc : BlockData) (coarse : bool) :
  visits_launch launch_order -> visits_launch launch_order' ->
  ghost_region DIR SIDE (bounds_of rc coarse) ->
  forall l k j i,
    pack_data (pack_of (GenericBC dir_int launch_order DIR SIDE TYPE rc coarse)
                 coarse) l k j i
    = pack_data (pack_of (GenericBC dir_int launch_order' DIR SIDE TYPE rc coarse)
                   coarse) l k j i.
Proof.
  intros Hv Hv' Hghost l k j i.
  destruct (launched_dec DIR SIDE (bounds_of rc coarse) (pack_of rc coarse)
              l k j i) as [Hl|Hn].
  - rewrite (GenericBC_launched dir_int launch_order Hv) by assumption.
    now rewrite (GenericBC_launched dir_int launch_order' Hv') by assumption.
  - rewrite (GenericBC_other_cells dir_int launch_order Hv) by assumption.
    now rewrite (GenericBC_other_cells dir_int launch_order' Hv') by assumption.
Qed.

(** X10. When the domain of the face lies outside the interior range,
    [GenericBC] applied a second time changes nothing: a ghost cell reads
    from a cell that the first application left alone. *)
Theorem GenericBC_idempotent (dir_int : CoordinateDirection -> Z)
  (launch_order : IndexRange -> IndexRange -> IndexRange -> IndexRange
                  -> list (Z * Z * Z * Z))
  (DIR : CoordinateDirection) (SIDE : BCSide) (TYPE : BCType)
  (rc : BlockData) (coarse : bool) :
  let rc' := GenericBC dir_int launch_order DIR SIDE TYPE rc coarse in
  let rc'' := GenericBC dir_int launch_order DIR SIDE TYPE rc' coarse in
  visits_launch launch_order ->
  ghost_region DIR SIDE (bounds_of rc coarse) ->
  (forall l k j i,
     pack_data (pack_of rc'' coarse) l k j i
     = pack_data (pack_of rc' coarse) l k j i)
  /\ pack_of rc'' (negb coarse) = pack_of rc (negb coarse)
  /\ bounds_of rc'' coarse = bounds_of rc coarse.
Proof.
  intros rc' rc'' Hv Hghost.
  destruct (GenericBC_rest dir_int launch_order DIR SIDE TYPE rc coarse)
    as (Hother & Hcb & Hccb & Hvc & Hidx).
  destruct (GenericBC_rest dir_int launch_order DIR SIDE TYPE rc' coarse)
    as (Hother' & Hcb' & Hccb' & Hvc' & Hidx').
  fold rc' in Hother, Hcb, Hccb, Hvc, Hidx. fold rc'' in Hother', Hcb', Hccb'.
  assert (bounds_of rc' coarse = bounds_of rc coarse) as Hb
    by (unfold bounds_of; destruct coarse; assumption).
  split; [|split].
  - intros l k j i.
    destruct (launched_dec DIR SIDE (bounds_of rc coarse) (pack_of rc coarse)
                l k j i) as [Hl|Hn].
    + assert (launched DIR SIDE (bounds_of rc' coarse) (pack_of rc' coarse)
                l k j i) as Hl'
        by (unfold launched; rewrite Hb, Hidx; exact Hl).
      unfold rc''.
      rewrite (GenericBC_launched dir_int launch_order Hv DIR SIDE TYPE rc')
        by (first [exact Hl' | rewrite Hb; exact Hghost]).
      unfold rc' at 5.
      rewrite (GenericBC_launched dir_int launch_order Hv DIR SIDE TYPE rc)
        by assumption.
      rewrite Hb, Hvc.
      pose proof (source_not_launched DIR SIDE TYPE (bounds_of rc coarse)
                    (pack_of rc coarse) l k j i Hghost Hl) as Hsrc.
      unfold fill_value.
      destruct (source_index DIR TYPE _ _ k j i) as [[k' j'] i'].
      unfold rc'.
      rewrite (GenericBC_other_cells dir_int launch_order Hv DIR SIDE TYPE rc
                 coarse l k' j' i' Hsrc).
      reflexivity.
    + unfold rc''. apply (GenericBC_other_cells dir_int launch_order Hv).
      unfold launched. rewrite Hb, Hidx. exact Hn.
  - now rewrite Hother'.
  - unfold bounds_of. destruct coarse; congruence.
Qed.
Lemma GenericBC_order_independent_witness :
  pack_data
    (pack_of (GenericBC example_dir_int nested_order X1DIR Inner Reflect
                example_block false) false) 0 0 0 3
  = pack_data
      (pack_of (GenericBC example_dir_int
                  (fun nb kb jb ib => rev (nested_order nb kb jb ib))
                  X1DIR Inner Reflect example_block false) false) 0 0 0 3.
Proof.
  apply GenericBC_order_independent.
  - exact nested_order_visits.
  - intros nb kb jb ib a k j i. rewrite <- in_rev. apply nested_order_visits.
  - simpl. lia.
Defined.

Lemma GenericBC_idempotent_witness :
  pack_data
    (pack_of (GenericBC example_dir_int nested_order X1DIR Inner Reflect
                (GenericBC example_dir_int nested_order X1DIR Inner Reflect
                   example_block false) false) false) 0 0 0 3
  = pack_data
      (pack_of (GenericBC example_dir_int nested_order X1DIR Inner Reflect
                  example_block false) false) 0 0 0 3.
Proof.
  refine (proj1 (GenericBC_idempotent example_dir_int nested_order X1DIR Inner
                   Reflect example_block false nested_order_visits _) 0 0 0 3).
  simpl. lia.
Defined.

(** ** The order of the dispatch *)

(** X11. The dispatcher goes through the six faces in increasing order and
    calls the boundary function of every face that passes
    [DoPhysicalBoundary_], each on the block data the call before left: the
    result is the composition of these functions in the order of the faces.
    It fails, on the requirement that a boundary function is not null,
    exactly when a face that passes has a null function. *)
Theorem dispatch_in_face_order (MeshBlockData : Type)
  (face_of_int : nat -> BoundaryFace.t) (pmesh : Mesh MeshBlockData)
  (rc : MeshBlockData) (coarse : bool) :
  let faces := List.filter (gated face_of_int pmesh) (seq 0 BOUNDARY_NFACES) in
  match ApplyBoundaryConditionsOnCoarseOrFine MeshBlockData face_of_int pmesh
          rc coarse with
  | Some (rc', called) =>
      called = faces
      /\ rc' = foldl (call_face pmesh coarse) rc faces
      /\ forall f, In f faces -> MeshBndryFnctn pmesh f <> None
  | None =>
      exists f, (f < BOUNDARY_NFACES)%nat
                /\ gated face_of_int pmesh f = true
                /\ MeshBndryFnctn pmesh f = None
  end.
Proof.
  intros faces. unfold ApplyBoundaryConditionsOnCoarseOrFine.
  pose proof (apply_faces_spec MeshBlockData face_of_int pmesh coarse
                BOUNDARY_NFACES 0 (rc, [])) as H.
  destruct (apply_faces MeshBlockData face_of_int pmesh coarse 0
              BOUNDARY_NFACES (rc, [])) as [[rc' called]|].
  - destruct H as (Hc & Hrc & Hfn). split; [|split; assumption].
    rewrite Hc. simpl snd. rewrite app_nil_r. apply rev_involutive.
  - destruct H as (f & Hf & Hg & Hn). exists f. split; [lia | auto].
Qed.

(** ** The dispatch of the generic kernels *)

Lemma call_generic_rest (dir_int : CoordinateDirection -> Z)
  (launch_order : IndexRange -> IndexRange -> IndexRange -> IndexRange
                  -> list (Z * Z * Z * Z))
  (pmesh : Mesh BlockData) (coarse : bool) (faces : list nat) (rc : BlockData) :
  generic_functions dir_int launch_order pmesh ->
  let rc' := foldl (call_face pmesh coarse) rc faces in
  pack_of rc' (negb coarse) = pack_of rc (negb coarse)
  /\ cellbounds rc' = cellbounds rc
  /\ c_cellbounds rc' = c_cellbounds rc
  /\ VectorComponent (pack_of rc' coarse) = VectorComponent (pack_of rc coarse)
  /\ alloc_idxs (pack_of rc' coarse) = alloc_idxs (pack_of rc coarse).
Proof.
  intros Hgen. revert rc. induction faces as [|f faces IH]; intros rc; simpl.
  - repeat split.
  - destruct (IH (call_face pmesh coarse rc f)) as (H1 & H2 & H3 & H4 & H5).
    destruct (Hgen f) as (DIR & SIDE & TYPE & Ef).
    assert (call_face pmesh coarse rc f
            = GenericBC dir_int launch_order DIR SIDE TYPE rc coarse) as E
      by (unfold call_face; now rewrite Ef).
    destruct (GenericBC_rest dir_int launch_order DIR SIDE TYPE rc coarse)
      as (G1 & G2 & G3 & G4 & G5).
    cbv zeta. rewrite H1, H2, H3, H4, H5, E. auto.
Qed.

(** X12. On a mesh whose boundary functions are instances of [GenericBC] the
    dispatcher does not fail, and it leaves alone the pack of the kind it
    was not called for, the index shapes, and the vector components and
    allocated indices of the pack it fills. [ProlongateBoundaries] returns
    the block data as they are on a mesh that is not multilevel, and on a
    multilevel mesh prolongates block data whose fine pack the boundary
    functions have not touched. *)
Theorem dispatch_of_generic_kernels (dir_int : CoordinateDirection -> Z)
  (launch_order : IndexRange -> IndexRange -> IndexRange -> IndexRange
                  -> list (Z * Z * Z * Z))
  (face_of_int : nat -> BoundaryFace.t) (pmesh : Mesh BlockData)
  (prolongate : BlockData -> BlockData) (rc : BlockData) :
  generic_functions dir_int launch_order pmesh ->
  (forall coarse, exists rc' called,
     ApplyBoundaryConditionsOnCoarseOrFine BlockData face_of_int pmesh rc coarse
       = Some (rc', called)
     /\ pack_of rc' (negb coarse) = pack_of rc (negb coarse)
     /\ cellbounds rc' = cellbounds rc
     /\ c_cellbounds rc' = c_cellbounds rc
     /\ VectorComponent (pack_of rc' coarse) = VectorComponent (pack_of rc coarse)
     /\ alloc_idxs (pack_of rc' coarse) = alloc_idxs (pack_of rc coarse))
  /\ ProlongateBoundaries BlockData face_of_int prolongate false pmesh rc
     = Some rc
  /\ exists rc',
       ProlongateBoundaries BlockData face_of_int prolongate true pmesh rc
         = Some (prolongate rc')
       /\ fine_pack rc' = fine_pack rc.
Proof.
  intros Hgen.
  assert (forall coarse, exists rc' called,
     ApplyBoundaryConditionsOnCoarseOrFine BlockData face_of_int pmesh rc coarse
       = Some (rc', called)
     /\ pack_of rc' (negb coarse) = pack_of rc (negb coarse)
     /\ cellbounds rc' = cellbounds rc
     /\ c_cellbounds rc' = c_cellbounds rc
     /\ VectorComponent (pack_of rc' coarse) = VectorComponent (pack_of rc coarse)
     /\ alloc_idxs (pack_of rc' coarse) = alloc_idxs (pack_of rc coarse)) as Hd.
  { intros coarse.
    unfold ApplyBoundaryConditionsOnCoarseOrFine.
    pose proof (apply_faces_spec BlockData face_of_int pmesh coarse
                  BOUNDARY_NFACES 0 (rc, [])) as H.
    destruct (apply_faces BlockData face_of_int pmesh coarse 0 BOUNDARY_NFACES
                (rc, [])) as [[rc' called]|].
    - destruct H as (_ & -> & _). eexists _, _. split; [reflexivity|].
      now apply (call_generic_rest dir_int launch_order).
    - destruct H as (f & _ & _ & Hn). destruct (Hgen f) as (D & S & T & Ef).
      congruence. }
  split; [exact Hd|]. split; [reflexivity|].
  destruct (Hd true) as (rc' & called & Hrun & Hfine & _).
  exists rc'. unfold ProlongateBoundaries. simpl negb. cbv iota.
  rewrite Hrun. split; [reflexivity | exact Hfine].
Qed.

Lemma dispatch_of_generic_kernels_witness :
  exists rc',
    ProlongateBoundaries BlockData example_face_of_int (fun rc => rc) true
      reflecting_mesh example_block = Some rc'
    /\ fine_pack rc' = fine_pack example_block.
Proof.
  refine (proj2 (proj2 (dispatch_of_generic_kernels example_dir_int nested_order
                          example_face_of_int reflecting_mesh (fun rc => rc)
                          example_block _))).
  intros f. eexists _, _, _. reflexivity.
Defined.

(** ** The rows of the ranks *)

Lemma sum_counts_app (a b : list Z) :
  sum_counts (a ++ b) = sum_counts a + sum_counts b.
Proof.
  unfold sum_counts. induction a as [|x a IH]; simpl; [reflexivity|].
  rewrite IH. ring.
Qed.

Lemma sum_counts_nonneg (a : list Z) :
  Forall (fun n => 0 <= n <= CInt.int_max) a -> 0 <= sum_counts a.
Proof.
  unfold sum_counts. induction 1 as [|x a Hx _ IH]; simpl; lia.
Qed.

Lemma my_offset_sum (nblist : list Z) (my_rank : nat) :
  (my_rank <= length nblist)%nat ->
  Z.of_nat my_rank <= CInt.int_max ->
  Forall (fun n => 0 <= n <= CInt.int_max) nblist ->
  my_offset nblist my_rank = Some (sum_counts (take my_rank nblist)).
Proof.
  intros Hr Hmax Hall. unfold my_offset.
  rewrite my_offset_loop_sum; [now rewrite drop_0 | simpl; lia | exact Hall | lia |].
  unfold CInt.int_max in *. simpl. nia.
Qed.

(** X13. With block counts that are non-negative, the rows of the ranks in
    the block dimension follow each other without a gap and without an
    overlap: the offset of a rank and its block count add up to the offset
    of the next rank, and the rows of a rank end at or before the offset of
    every higher rank; the offset past the last rank is the sum of all the
    block counts. *)
Theorem rank_rows_disjoint (nblist : list Z) :
  Z.of_nat (length nblist) <= CInt.int_max ->
  Forall (fun n => 0 <= n <= CInt.int_max) nblist ->
  (forall r n, nblist !! r = Some n ->
     exists o, my_offset nblist r = Some o /\ 0 <= o
               /\ my_offset nblist (S r) = Some (o + n))
  /\ (forall r r' n o o',
        (r < r')%nat -> nblist !! r = Some n ->
        my_offset nblist r = Some o -> my_offset nblist r' = Some o' ->
        (r' <= length nblist)%nat ->
        o + n <= o')
  /\ my_offset nblist (length nblist) = Some (sum_counts nblist).
Proof.
  intros Hmax Hall.
  assert (forall r, (r <= length nblist)%nat ->
            my_offset nblist r = Some (sum_counts (take r nblist))) as Hoff
    by (intros r Hr; apply my_offset_sum; [exact Hr | lia | exact Hall]).
  assert (forall r, 0 <= sum_counts (take r nblist)) as Hpos.
  { intros r. apply sum_counts_nonneg. rewrite <- (take_drop r nblist) in Hall.
    now apply Forall_app in Hall as [H _]. }
  assert (forall r n, nblist !! r = Some n ->
            sum_counts (take (S r) nblist) = sum_counts (take r nblist) + n)
    as Hstep.
  { intros r n Hn. rewrite (take_S_r _ _ _ Hn), sum_counts_app.
    unfold sum_counts. simpl. lia. }
  split; [|split].
  - intros r n Hn. pose proof (lookup_lt_Some _ _ _ Hn) as Hr.
    exists (sum_counts (take r nblist)). split; [apply Hoff; lia|].
    split; [apply Hpos|]. rewrite Hoff by lia. f_equal. now apply Hstep.
  - intros r r' n o o' Hlt Hn Ho Ho' Hr'.
    rewrite Hoff in Ho, Ho' by lia. injection Ho as <-. injection Ho' as <-.
    rewrite <- (Hstep r n Hn).
    replace r' with (S r + (r' - S r))%nat by lia.
    rewrite <- take_take_drop, sum_counts_app.
    assert (0 <= sum_counts (take (r' - S r) (drop (S r) nblist))); [|lia].
    apply sum_counts_nonneg.
    rewrite <- (take_drop (S r) nblist) in Hall.
    apply Forall_app in Hall as [_ H].
    rewrite <- (take_drop (r' - S r) (drop (S r) nblist)) in H.
    now apply Forall_app in H as [H _].
  - rewrite Hoff by lia. now rewrite firstn_all.
Qed.

Lemma rank_rows_disjoint_witness :
  exists o, my_offset [3; 5; 2; 7] 1 = Some o /\ 0 <= o
            /\ my_offset [3; 5; 2; 7] 2 = Some (o + 5).
Proof.
  refine (proj1 (rank_rows_disjoint [3; 5; 2; 7] _ _) 1%nat 5 eq_refl).
  - vm_compute. discriminate.
  - repeat constructor; vm_compute; discriminate.
Defined.

(** ** The VTK writer: byte order *)

Lemma Swap4Bytes_four (b0 b1 b2 b3 : ascii) (rest : list ascii) :
  Swap4Bytes (b0 :: b1 :: b2 :: b3 :: rest) = b3 :: b2 :: b1 :: b0 :: rest.
Proof. reflexivity. Qed.

Lemma Swap4Bytes_word (w : list ascii) : length w = 4%nat -> Swap4Bytes w = rev w.
Proof.
  destruct w as [|b0 [|b1 [|b2 [|b3 [|b4 w]]]]]; try discriminate. reflexivity.
Qed.

Lemma IsBigEndian_host (big : bool) (be_int : Z -> list ascii) :
  be_int 1 = one_be ->
  IsBigEndian (fun n => host_order big (be_int n)) = if big then 1 else 0.
Proof. intros E. unfold IsBigEndian. rewrite E. now destruct big. Qed.

(** X14. [Swap4Bytes] reverses the four bytes it is given and touches no
    byte after them; applied twice it changes nothing. [IsBigEndian]
    returns 1 on a host that stores the integer 1 with its zero bytes
    first and 0 on a host that stores them last; so a value of four bytes
    in the order of the host, swapped when [IsBigEndian] returns 0, has its
    bytes in big-endian order on both hosts. *)
Theorem Swap4Bytes_makes_big_endian :
  (forall b0 b1 b2 b3 rest,
     Swap4Bytes (b0 :: b1 :: b2 :: b3 :: rest) = b3 :: b2 :: b1 :: b0 :: rest)
  /\ (forall dat, (4 <= length dat)%nat -> Swap4Bytes (Swap4Bytes dat) = dat)
  /\ (forall dat, length (Swap4Bytes dat) = length dat)
  /\ (forall big be_int bytes,
        be_int 1 = one_be -> length bytes = 4%nat ->
        let big_end := IsBigEndian (fun n => host_order big (be_int n)) in
        big_end = (if big then 1 else 0)
        /\ (if big_end =? 0 then Swap4Bytes (host_order big bytes)
            else host_order big bytes) = bytes).
Proof.
  split; [|split; [|split]].
  - reflexivity.
  - intros dat Hlen.
    destruct dat as [|b0 [|b1 [|b2 [|b3 rest]]]]; simpl in Hlen; try lia.
    reflexivity.
  - intros dat. unfold Swap4Bytes. now rewrite !length_insert.
  - intros big be_int bytes E Hlen big_end.
    assert (big_end = if big then 1 else 0) as Hb
      by (apply IsBigEndian_host; exact E).
    split; [exact Hb|]. rewrite Hb. destruct big; simpl; [reflexivity|].
    rewrite Swap4Bytes_word by (now rewrite length_rev).
    apply rev_involutive.
Qed.

Lemma Swap4Bytes_makes_big_endian_witness :
  Swap4Bytes (Swap4Bytes ["a"; "b"; "c"; "d"; "e"]%char)
  = ["a"; "b"; "c"; "d"; "e"]%char.
Proof.
  apply (proj1 (proj2 Swap4Bytes_makes_big_endian)). simpl. lia.
Defined.

(** ** The VTK writer: the rows of cell data *)

Section Rows.

Variable float_bytes : R -> list ascii.
Variable v : Z -> Z -> Z -> R.
Variable out_is out_ie k j : Z.

(** The row loop from the cell of offset [idx] on, with [cnt] cells left:
    the cell of offset [m] goes to the place [2 * m]. *)
Lemma fill_row_loop (cnt : nat) (idx : Z) (data : list (list ascii)) :
  0 <= idx ->
  let res :=
    fst (foldl (fun '(data, index) i =>
                  (<[Z.to_nat ((i - out_is) + index)
                     := float_bytes (v k j i)]> data, index + 1))
           (data, idx) (seqZ (out_is + idx) (Z.of_nat cnt))) in
  length res = length data
  /\ (forall m, idx <= m < idx + Z.of_nat cnt ->
        (Z.to_nat (2 * m) < length data)%nat ->
        res !! Z.to_nat (2 * m) = Some (float_bytes (v k j (out_is + m))))
  /\ (forall p, (forall m, idx <= m < idx + Z.of_nat cnt -> p <> Z.to_nat (2 * m)) ->
        res !! p = data !! p).
Proof.
  revert idx data. induction cnt as [|cnt IH]; intros idx data Hidx.
  - simpl. split; [reflexivity|]. split; [intros m Hm; lia | reflexivity].
  - rewrite Nat2Z.inj_succ, seqZ_cons by lia. rewrite Z.pred_succ.
    cbn [foldl]. replace (out_is + idx - out_is + idx) with (2 * idx) by lia.
    replace (Z.succ (out_is + idx)) with (out_is + (idx + 1)) by lia.
    destruct (IH (idx + 1)
                (<[Z.to_nat (2 * idx) := float_bytes (v k j (out_is + idx))]> data))
      as (Hlen & Hin & Hout); [lia|].
    cbv zeta. rewrite length_insert in Hlen. split; [exact Hlen|]. split.
    + intros m Hm Hp. destruct (Z.eq_dec m idx) as [->|Hne].
      * rewrite Hout by (intros m' Hm'; lia).
        now apply list_lookup_insert_eq.
      * apply Hin; [lia|]. now rewrite length_insert.
    + intros p Hp. rewrite Hout by (intros m' Hm'; apply Hp; lia).
      apply list_lookup_insert_ne. intros E. apply (Hp idx); [lia|].
      now symmetry.
Qed.

Lemma fill_row_spec (data : list (list ascii)) :
  let res := fill_row float_bytes v out_is out_ie k j data in
  length res = length data
  /\ (forall m, 0 <= m < out_ie - out_is + 1 ->
        (Z.to_nat (2 * m) < length data)%nat ->
        res !! Z.to_nat (2 * m) = Some (float_bytes (v k j (out_is + m)))).
Proof.
  unfold fill_row.
  destruct (Z.le_gt_cases 0 (out_ie - out_is + 1)) as [Hn|Hn].
  - pose proof (fill_row_loop (Z.to_nat (out_ie - out_is + 1)) 0 data
                  (Z.le_refl 0)) as H.
    rewrite Z2Nat.id, Z.add_0_r in H by exact Hn.
    destruct H as (Hlen & Hin & _). split; [exact Hlen|].
    intros m Hm. apply Hin. lia.
  - rewrite seqZ_nil by lia. simpl. split; [reflexivity | intros m Hm; lia].
Qed.

End Rows.

Lemma swap_floats_loop (data : list (list ascii)) (cnt start : nat) :
  let res :=
    foldl (fun data i => <[i := Swap4Bytes (nth i data [])]> data) data
      (seq start cnt) in
  length res = length data
  /\ forall p w, data !! p = Some w ->
       res !! p = Some (if (start <=? p)%nat && (p <? start + cnt)%nat
                        then Swap4Bytes w else w).
Proof.
  revert data start. induction cnt as [|cnt IH]; intros data start; simpl.
  - split; [reflexivity|]. intros p w Hp.
    replace ((start <=? p)%nat && (p <? start + 0)%nat) with false; [exact Hp|].
    symmetry. apply andb_false_iff.
    destruct (Nat.leb_spec start p); [right; apply Nat.ltb_ge; lia | now left].
  - destruct (IH (<[start := Swap4Bytes (nth start data [])]> data) (S start))
      as [Hlen Hin].
    rewrite length_insert in Hlen. split; [exact Hlen|].
    intros p w Hp. destruct (Nat.eq_dec p start) as [->|Hne].
    + rewrite (Hin start (Swap4Bytes w)).
      * replace ((S start <=? start)%nat && (start <? S start + cnt)%nat)
          with false by (symmetry; apply andb_false_iff; left;
                         apply Nat.leb_gt; lia).
        replace ((start <=? start)%nat && (start <? start + S cnt)%nat)
          with true; [reflexivity|].
        symmetry. apply andb_true_iff. split;
          [apply Nat.leb_le; lia | apply Nat.ltb_lt; lia].
      * rewrite (nth_lookup_Some _ _ _ _ Hp).
        apply list_lookup_insert_eq. exact (lookup_lt_Some _ _ _ Hp).
    + rewrite (Hin p w) by (now rewrite list_lookup_insert_ne).
      assert ((S start <=? p)%nat && (p <? S start + cnt)%nat
              = (start <=? p)%nat && (p <? start + S cnt)%nat) as ->;
        [|reflexivity].
      apply eq_true_iff_eq.
      rewrite !andb_true_iff, !Nat.leb_le, !Nat.ltb_lt. lia.
Qed.

Lemma swap_floats_spec (n : Z) (data : list (list ascii)) :
  length (swap_floats n data) = length data
  /\ forall p w, data !! p = Some w -> (p < Z.to_nat n)%nat ->
       swap_floats n data !! p = Some (Swap4Bytes w).
Proof.
  destruct (swap_floats_loop data (Z.to_nat n) 0) as [Hlen Hin].
  split; [exact Hlen|]. intros p w Hp Hlt. unfold swap_floats.
  rewrite (Hin p w Hp). simpl.
  now rewrite (proj2 (Nat.ltb_lt _ _) Hlt).
Qed.

Section CellData.

Variable big : bool.
Variable be_int : Z -> list ascii.
Variable be_float : R -> list ascii.
Variable v : Z -> Z -> Z -> R.
Variable out_is out_ie : Z.

Hypothesis one_bytes : be_int 1 = one_be.
Hypothesis float_size : forall x, length (be_float x) = 4%nat.
Hypothesis cells : out_is <= out_ie.

Lemma write_row_spec (k j : Z)
  (st : list (list ascii) * list (list (list ascii))) :
  (2 * (out_ie - out_is) < Z.of_nat (length (fst st))) ->
  exists data' row,
    write_row (fun x => host_order big (be_float x)) v
      (IsBigEndian (fun n => host_order big (be_int n))) out_is out_ie k j st
    = (data', row :: snd st)
    /\ length data' = length (fst st)
    /\ row_holds be_float v out_is out_ie row (k, j).
Proof using one_bytes float_size cells.
  intros Hfit. unfold write_row. rewrite (IsBigEndian_host big be_int one_bytes).
  set (fb := fun x => host_order big (be_float x)).
  destruct (fill_row_spec fb v out_is out_ie k j (fst st)) as [Hlen Hin].
  set (filled := fill_row fb v out_is out_ie k j (fst st)) in *.
  set (n := out_ie - out_is + 1) in *.
  eexists _, _. split; [reflexivity|].
  assert (forall m, 0 <= m -> 2 * m < n ->
            filled !! Z.to_nat (2 * m) = Some (fb (v k j (out_is + m)))) as Hf
    by (intros m Hm Hlt; apply Hin; lia).
  destruct big; simpl.
  - split; [exact Hlen|]. split.
    + rewrite length_take, Hlen. lia.
    + intros m Hm Hlt. cbn [fst snd]. rewrite lookup_take_lt by lia.
      now apply Hf.
  - destruct (swap_floats_spec n filled) as [Hslen Hsin].
    split; [now rewrite Hslen|]. split.
    + rewrite length_take, Hslen, Hlen. lia.
    + intros m Hm Hlt. cbn [fst snd]. rewrite lookup_take_lt by lia.
      rewrite (Hsin _ _ (Hf m Hm Hlt)) by lia. f_equal. unfold fb. simpl.
      rewrite Swap4Bytes_word by (now rewrite length_rev).
      apply rev_involutive.
Qed.

Lemma write_rows_j (k : Z) (js : list Z)
  (st : list (list ascii) * list (list (list ascii))) :
  (2 * (out_ie - out_is) < Z.of_nat (length (fst st))) ->
  exists data' rows,
    foldl (fun st j =>
             write_row (fun x => host_order big (be_float x)) v
               (IsBigEndian (fun n => host_order big (be_int n)))
               out_is out_ie k j st) st js
    = (data', rev rows ++ snd st)
    /\ length data' = length (fst st)
    /\ Forall2 (row_holds be_float v out_is out_ie) rows
         (map (fun j => (k, j)) js).
Proof using one_bytes float_size cells.
  revert st. induction js as [|j js IH]; intros st Hfit.
  - exists (fst st), []. destruct st. simpl. repeat split. constructor.
  - simpl. destruct (write_row_spec k j st Hfit) as (d1 & row & -> & Hl1 & Hrow).
    destruct (IH (d1, row :: snd st)) as (d2 & rows & -> & Hl2 & Hrows);
      [simpl; lia|].
    exists d2, (row :: rows). split; [simpl; now rewrite <- app_assoc|].
    split; [simpl in Hl2; lia|]. now constructor.
Qed.

Lemma write_rows_k (ks js : list Z)
  (st : list (list ascii) * list (list (list ascii))) :
  (2 * (out_ie - out_is) < Z.of_nat (length (fst st))) ->
  exists data' rows,
    foldl (fun st k =>
             foldl (fun st j =>
                      write_row (fun x => host_order big (be_float x)) v
                        (IsBigEndian (fun n => host_order big (be_int n)))
                        out_is out_ie k j st) st js) st ks
    = (data', rev rows ++ snd st)
    /\ length data' = length (fst st)
    /\ Forall2 (row_holds be_float v out_is out_ie) rows
         (k ← ks; j ← js; [(k, j)]).
Proof using one_bytes float_size cells.
  revert st. induction ks as [|k ks IH]; intros st Hfit.
  - exists (fst st), []. destruct st. simpl. repeat split. constructor.
  - simpl. destruct (write_rows_j k js st Hfit) as (d1 & rows1 & -> & Hl1 & Hrows1).
    destruct (IH (d1, rev rows1 ++ snd st)) as (d2 & rows2 & -> & Hl2 & Hrows2);
      [simpl; lia|].
    exists d2, (rows1 ++ rows2). split; [|split].
    + simpl. now rewrite rev_app_distr, <- app_assoc.
    + simpl in Hl2; lia.
    + apply Forall2_app; [|exact Hrows2].
      replace (j ← js; [(k, j)]) with (map (fun j => (k, j)) js); [exact Hrows1|].
      clear. induction js as [|j js IH]; simpl; [reflexivity | now rewrite IH].
Qed.

End CellData.

(** X15. The cell data of a variable are written row by row, in the order
    of the loops over [k] and [j], every row with as many values as the
    block has cells along x1, each in big-endian byte order on both kinds
    of host. The row loop advances the cell and the counter [index]
    together and stores at their sum: the value of the cell of offset [m]
    from the first stands at place [2 * m] of the row, so the row holds the
    cells of the first half of the line at its even places; its odd places
    are not assigned by the row loop. The array must have more than twice
    the offset of the last cell of a line in places, which the allocation
    of [3 * ndata + 1] values gives. *)
Theorem vtk_cell_rows (big : bool) (be_int : Z -> list ascii)
  (be_float : R -> list ascii) (v : Z -> Z -> Z -> R)
  (out_is out_ie out_js out_je out_ks out_ke : Z) (data : list (list ascii)) :
  be_int 1 = one_be ->
  (forall x, length (be_float x) = 4%nat) ->
  out_is <= out_ie ->
  2 * (out_ie - out_is) < Z.of_nat (length data) ->
  Forall2 (row_holds be_float v out_is out_ie)
    (snd (write_cell_data (fun x => host_order big (be_float x)) v
            (IsBigEndian (fun n => host_order big (be_int n)))
            out_is out_ie out_js out_je out_ks out_ke data))
    (row_order out_js out_je out_ks out_ke).
Proof.
  intros Hone Hsize Hcells Hfit. unfold write_cell_data.
  destruct (write_rows_k big be_int be_float v out_is out_ie Hone Hsize Hcells
              (seqZ out_ks (out_ke - out_ks + 1))
              (seqZ out_js (out_je - out_js + 1)) (data, []))
    as (data' & rows & -> & _ & Hrows); [exact Hfit|].
  cbn [snd]. now rewrite app_nil_r, rev_involutive.
Qed.

Lemma vtk_cell_rows_witness :
  Forall2 (row_holds (fun _ => ["a"; "b"; "c"; "d"]%char) (fun _ _ _ => 0%R) 0 1)
    (snd (write_cell_data
            (fun x => host_order false ["a"; "b"; "c"; "d"]%char)
            (fun _ _ _ => 0%R)
            (IsBigEndian (fun n => host_order false one_be)) 0 1 0 0 0 0
            (replicate 7 [])))
    (row_order 0 0 0 0).
Proof.
  apply (vtk_cell_rows false (fun _ => one_be)
           (fun _ => ["a"; "b"; "c"; "d"]%char) (fun _ _ _ => 0%R)
           0 1 0 0 0 0 (replicate 7 [])).
  - reflexivity.
  - intros x. reflexivity.
  - lia.
  - simpl. lia.
Defined.

(** ** The registry of fields *)

(** X16. [AddField] never changes what the descriptor holds for a dense
    field: it adds a dense field only under a name that is new, with the
    metadata associated to the name when they were associated to nothing,
    and returns true; under a name that is there it returns false and
    leaves the descriptor as it is, or fails, when the owner is unique or
    the metadata differ from those held. A sparse field is always added,
    after those already held under the name, and the value is true; the
    dense fields are not touched by it, nor the sparse fields by a dense
    one. *)
Theorem AddField_keeps_dense_fields (Metadata : Type)
  (IsSet_Sparse : Metadata -> bool) (getAssociated : Metadata -> string)
  (Associate : string -> Metadata -> Metadata)
  (Metadata_eq : Metadata -> Metadata -> bool)
  (DerivedOwnership : Type) (is_unique : DerivedOwnership -> bool)
  (field_name : string) (m : Metadata) (owner : DerivedOwnership)
  (sd : StateDescriptor Metadata) :
  let m_assoc :=
    if (String.length (getAssociated m) =? 0)%nat
    then Associate field_name m else m in
  match AddField Metadata IsSet_Sparse getAssociated Associate Metadata_eq
          DerivedOwnership is_unique field_name m owner sd with
  | inr (added, m', sd') =>
      (forall name x, metadataMap_ sd !! name = Some x ->
                      metadataMap_ sd' !! name = Some x)
      /\ (added = false <->
          IsSet_Sparse m = false /\ is_Some (metadataMap_ sd !! field_name))
      /\ (added = false -> sd' = sd /\ m' = m_assoc)
      /\ (IsSet_Sparse m = false -> added = true ->
          metadataMap_ sd' !! field_name = Some m_assoc
          /\ m' = Associate "" m_assoc
          /\ sparseMetadataMap_ sd' = sparseMetadataMap_ sd)
      /\ (IsSet_Sparse m = true ->
          sparseMetadataMap_ sd' !! field_name
          = Some (default [] (sparseMetadataMap_ sd !! field_name) ++ [m])
          /\ (forall name, name <> field_name ->
                sparseMetadataMap_ sd' !! name = sparseMetadataMap_ sd !! name)
          /\ metadataMap_ sd' = metadataMap_ sd /\ m' = m)
  | inl err =>
      IsSet_Sparse m = false
      /\ exists mprev, metadataMap_ sd !! field_name = Some mprev
           /\ ((is_unique owner = true /\ err = UniqueExists field_name)
               \/ (is_unique owner = false /\ Metadata_eq mprev m_assoc = false
                   /\ err = DifferentMetadata field_name))
  end.
Proof.
  intros m_assoc. unfold AddField. fold m_assoc.
  destruct (IsSet_Sparse m) eqn:Es.
  - split; [auto|]. split; [split; [discriminate | intros [H _]; discriminate]|].
    split; [discriminate|]. split; [discriminate|]. intros _.
    cbn [sparseMetadataMap_ metadataMap_].
    destruct (sparseMetadataMap_ sd !! field_name) as [ms|] eqn:E; simpl.
    + split; [apply lookup_insert_eq|]. split; [|auto].
      intros name Hne. now apply lookup_insert_ne.
    + split; [apply lookup_insert_eq|]. split; [|auto].
      intros name Hne. now apply lookup_insert_ne.
  - destruct (metadataMap_ sd !! field_name) as [mprev|] eqn:E.
    + destruct (is_unique owner) eqn:Eu.
      * split; [reflexivity|]. exists mprev. split; [reflexivity|]. now left.
      * destruct (Metadata_eq mprev m_assoc) eqn:Eq; simpl.
        -- split; [auto|]. split; [split; eauto|].
           split; [auto|]. split; [discriminate | discriminate].
        -- split; [reflexivity|]. exists mprev. split; [reflexivity|].
           right. auto.
    + cbn [metadataMap_ sparseMetadataMap_]. split.
      * intros name x Hx. rewrite lookup_insert_ne; [exact Hx|].
        intros <-. congruence.
      * split; [split; [discriminate | intros [_ [x Hx]]; discriminate]|].
        split; [discriminate|]. split; [|discriminate].
        intros _ _. split; [apply lookup_insert_eq | auto].
Qed.

(** ** Block metadata and coordinates *)

Lemma push_store {A : Type} (x : A) (st : list A * nat) : push x st = store [x] st.
Proof. reflexivity. Qed.

(** A buffer of the size of the values stored from its start is these
    values. *)
Lemma store_all {A : Type} (vals buf : list A) :
  length vals = length buf -> fst (store vals (buf, 0%nat)) = vals.
Proof.
  intros Hlen. simpl. rewrite <- (app_nil_r vals) at 1.
  now apply list_inserts_0_l.
Qed.

Lemma xmin_step_store (ndim : Z) (pmb : BlockInfo) (st : list R * nat) :
  (let xmin := coords_GetXmin pmb in
   let st := push (xmin 0%nat) st in
   let st := if ndim >? 1 then push (xmin 1%nat) st else st in
   let st := if ndim >? 2 then push (xmin 2%nat) st else st in
   st) = store (xmin_row ndim pmb) st.
Proof.
  cbv zeta. unfold xmin_row. rewrite !store_app, <- push_store.
  destruct (ndim >? 1), (ndim >? 2); rewrite ?store_nil, <- ?push_store;
    reflexivity.
Qed.

Lemma length_xmin_row (ndim : Z) (pmb : BlockInfo) :
  1 <= ndim <= 3 -> length (xmin_row ndim pmb) = Z.to_nat ndim.
Proof.
  intros H. unfold xmin_row.
  destruct (Z.gtb_spec ndim 1), (Z.gtb_spec ndim 2); simpl; lia.
Qed.

(** X17. The buffers of the restart metadata are laid out as the datasets
    they are written to. In "xmin", whose rows have [ndim] values, the row
    of a block holds the first [ndim] components of the minimum coordinate
    of the block, for [ndim] from 1 to 3; "loc.lx123" holds the three
    logical coordinates of every block and
    "loc.level-gid-lid-cnghost-gflag" its level and four identifiers, block
    after block, and these two buffers are filled to their end. *)
Theorem restart_block_metadata (ndim : Z) (block_list : list BlockInfo) :
  1 <= ndim <= 3 ->
  length (xmin_data ndim block_list) = (length block_list * 3)%nat
  /\ (forall b pmb d,
        block_list !! b = Some pmb -> (d < Z.to_nat ndim)%nat ->
        xmin_data ndim block_list !! (b * Z.to_nat ndim + d)%nat
        = Some (coords_GetXmin pmb d))
  /\ loc_data block_list
     = (pmb ← block_list; [loc_lx1 pmb; loc_lx2 pmb; loc_lx3 pmb])
  /\ id_data block_list
     = (pmb ← block_list;
        [loc_level pmb; gid pmb; lid pmb; cnghost pmb; gflag pmb]).
Proof.
  intros Hndim. split; [|split; [|split]].
  - unfold xmin_data.
    rewrite (foldl_ext_fun _ (fun st pmb => store (xmin_row ndim pmb) st))
      by (intros st pmb; apply xmin_step_store).
    rewrite foldl_store_bind. simpl. now rewrite length_inserts, length_replicate.
  - intros b pmb d Hb Hd. unfold xmin_data.
    rewrite (foldl_ext_fun _ (fun st pmb => store (xmin_row ndim pmb) st))
      by (intros st pmb'; apply xmin_step_store).
    rewrite foldl_store_bind. cbn [store fst snd].
    pose proof (lookup_lt_Some _ _ _ Hb) as Hblt.
    assert (length (block_list ≫= xmin_row ndim)
            = (length block_list * Z.to_nat ndim)%nat) as Hlen
      by (apply length_bind_const; intros y; now apply length_xmin_row).
    rewrite list_lookup_inserts
      by (rewrite ?Hlen, ?length_replicate; nia).
    rewrite Nat.sub_0_r.
    rewrite (lookup_bind_chunk _ _ (Z.to_nat ndim) b _ pmb)
      by (first [intros y; now apply length_xmin_row | exact Hb | exact Hd]).
    unfold xmin_row.
    destruct (Z.gtb_spec ndim 1), (Z.gtb_spec ndim 2);
      destruct d as [|[|[|d]]]; simpl; try reflexivity; lia.
  - unfold loc_data.
    rewrite (foldl_ext_fun _
               (fun st pmb => store [loc_lx1 pmb; loc_lx2 pmb; loc_lx3 pmb] st))
      by (intros st pmb; cbv zeta; rewrite !push_store, <- !store_app;
          reflexivity).
    rewrite foldl_store_bind. apply store_all.
    rewrite length_replicate.
    now rewrite (length_bind_const _ _ 3%nat) by reflexivity.
  - unfold id_data.
    rewrite (foldl_ext_fun _
               (fun st pmb =>
                  store [loc_level pmb; gid pmb; lid pmb; cnghost pmb; gflag pmb]
                    st))
      by (intros st pmb; cbv zeta; rewrite !push_store, <- !store_app;
          reflexivity).
    rewrite foldl_store_bind. apply store_all.
    rewrite length_replicate.
    now rewrite (length_bind_const _ _ 5%nat) by reflexivity.
Qed.
Lemma foldl_triple {A B C P : Type} (f : P -> A -> A) (g : P -> B -> B)
  (h : P -> C -> C) (l : list P) (a : A) (b : B) (c : C) :
  foldl (fun '(x, y, z) p => (f p x, g p y, h p z)) (a, b, c) l
  = (foldl (fun x p => f p x) a l, foldl (fun y p => g p y) b l,
     foldl (fun z p => h p z) c l).
Proof.
  revert a b c. induction l as [|p l IH]; intros a b c; simpl; [reflexivity|].
  apply IH.
Qed.

Lemma faces_buffer (coord : BlockInfo -> Z -> R) (r : IndexRange)
  (block_list : list BlockInfo) :
  fst (foldl (fun st pmb => foldl (fun st i => push (coord pmb i) st) st (faces r))
         (replicate (Z.to_nat ((e r - s r + 1 + 1)
                               * Z.of_nat (length block_list))) 0%R, 0%nat)
         block_list)
  = (pmb ← block_list; i ← faces r; [coord pmb i]).
Proof.
  rewrite (foldl_ext_fun _ (fun st pmb => store (i ← faces r; [coord pmb i]) st)).
  - rewrite foldl_store_bind. apply store_all.
    rewrite length_replicate.
    rewrite (length_bind_const _ _ (Z.to_nat (e r - s r + 1 + 1))).
    + destruct (Z.le_gt_cases 0 (e r - s r + 1 + 1)) as [H|H].
      * rewrite Z2Nat.inj_mul, Nat2Z.id by lia. lia.
      * rewrite (Z2Nat.nonpos (e r - s r + 1 + 1)) by lia.
        rewrite Z2Nat.nonpos by nia. lia.
    + intros pmb. rewrite (length_bind_const _ _ 1%nat) by reflexivity.
      unfold faces. rewrite length_seqZ. lia.
  - intros st pmb. rewrite <- foldl_store_bind. apply foldl_ext_fun.
    intros st' i. apply push_store.
Qed.

(** X18. The three buffers of the group "/Locations" hold, block after
    block, the coordinates of the faces of the output bounds along the
    three directions: one more value than cells for every block, from the
    face of the first cell to the face past the last one, and every buffer
    is filled to its end. *)
Theorem locations_hold_faces (ob : OutputBounds) (block_list : list BlockInfo) :
  locations ob block_list
  = (pmb ← block_list; i ← faces (out_ib ob); [coords_x1f pmb 0 0 i],
     pmb ← block_list; j ← faces (out_jb ob); [coords_x2f pmb 0 j 0],
     pmb ← block_list; k ← faces (out_kb ob); [coords_x3f pmb k 0 0])
  /\ length (faces (out_ib ob)) = Z.to_nat (nx1 ob + 1)
  /\ length (faces (out_jb ob)) = Z.to_nat (nx2 ob + 1)
  /\ length (faces (out_kb ob)) = Z.to_nat (nx3 ob + 1)
  /\ (0 <= nx1 ob ->
      faces (out_ib ob) !! 0%nat = Some (s (out_ib ob))
      /\ faces (out_ib ob) !! Z.to_nat (nx1 ob) = Some (e (out_ib ob) + 1)).
Proof.
  split; [|split; [|split; [|split]]].
  - unfold locations.
    rewrite (foldl_triple
               (fun pmb x => foldl (fun st i => push (coords_x1f pmb 0 0 i) st) x
                               (faces (out_ib ob)))
               (fun pmb y => foldl (fun st j => push (coords_x2f pmb 0 j 0) st) y
                               (faces (out_jb ob)))
               (fun pmb z => foldl (fun st k => push (coords_x3f pmb k 0 0) st) z
                               (faces (out_kb ob)))).
    unfold nx1, nx2, nx3.
    rewrite (faces_buffer (fun pmb i => coords_x1f pmb 0 0 i)),
      (faces_buffer (fun pmb j => coords_x2f pmb 0 j 0)),
      (faces_buffer (fun pmb k => coords_x3f pmb k 0 0)).
    reflexivity.
  - unfold faces, nx1. rewrite length_seqZ. f_equal. lia.
  - unfold faces, nx2. rewrite length_seqZ. f_equal. lia.
  - unfold faces, nx3. rewrite length_seqZ. f_equal. lia.
  - intros H. unfold faces, nx1 in *. split.
    + rewrite lookup_seqZ_lt by lia. f_equal. lia.
    + rewrite lookup_seqZ_lt by lia. f_equal. lia.
Qed.

Lemma locations_hold_faces_witness :
  faces (out_ib example_cells) !! 0%nat = Some 0
  /\ faces (out_ib example_cells) !! 2%nat = Some 2.
Proof.
  apply (proj2 (proj2 (proj2 (proj2 (locations_hold_faces example_cells []))))).
  vm_compute. discriminate.
Defined.

Lemma restart_block_metadata_witness :
  length (xmin_data 2 [mkBlockInfo (fun d => INR d) (fun _ _ _ => 0%R)
                         (fun _ _ _ => 0%R) (fun _ _ _ => 0%R)
                         0 0 0 0 0 0 0 0]) = 3%nat.
Proof.
  refine (proj1 (restart_block_metadata 2 [_] _)). lia.
Defined.

(** ** File names *)

Lemma digit_value (d : Z) :
  0 <= d < 10 -> Z.of_nat (nat_of_ascii (digit d)) - 48 = d.
Proof.
  intros H. unfold digit. rewrite nat_ascii_embedding by lia. lia.
Qed.

Lemma value_from_app (acc : Z) (a b : list ascii) :
  value_from acc (a ++ b) = value_from (value_from acc a) b.
Proof. apply fold_left_app. Qed.

Lemma value_from_zeros (k : nat) (chars : list ascii) :
  value_from 0 (replicate k "0"%char ++ chars) = value_from 0 chars.
Proof.
  induction k as [|k IH]; [reflexivity|]. simpl. exact IH.
Qed.

Lemma digits_fuel (f1 f2 : nat) (n : Z) :
  0 <= n < Z.of_nat f1 -> n < Z.of_nat f2 -> digits f1 n = digits f2 n.
Proof.
  revert f2 n. induction f1 as [|f1 IH]; intros f2 n H1 H2; [lia|].
  destruct f2 as [|f2]; [lia|]. simpl.
  destruct (Z.ltb_spec n 10) as [Hlt|Hge]; [reflexivity|].
  f_equal. apply IH.
  - split; [apply Z.div_pos; lia|].
    assert (n / 10 < n) by (apply Z.div_lt; lia). lia.
  - assert (n / 10 < n) by (apply Z.div_lt; lia). lia.
Qed.

Lemma digits_value (fuel : nat) (n : Z) :
  0 <= n < Z.of_nat fuel -> value (digits fuel n) = n.
Proof.
  revert n. induction fuel as [|fuel IH]; intros n H; [lia|]. simpl.
  destruct (Z.ltb_spec n 10) as [Hlt|Hge].
  - unfold value. simpl. rewrite digit_value by lia. lia.
  - unfold value in *. rewrite value_from_app, IH.
    + simpl. rewrite digit_value by (apply Z.mod_pos_bound; lia).
      pose proof (Z.div_mod n 10). lia.
    + split; [apply Z.div_pos; lia|].
      assert (n / 10 < n) by (apply Z.div_lt; lia). lia.
Qed.

Lemma to_chars_value (n : Z) : 0 <= n -> value (to_chars n) = n.
Proof.
  intros H. unfold to_chars. rewrite (proj2 (Z.ltb_ge n 0) H).
  apply digits_value. lia.
Qed.

Lemma to_chars_step (q r : Z) :
  1 <= q -> 0 <= r < 10 -> to_chars (10 * q + r) = to_chars q ++ [digit r].
Proof.
  intros Hq Hr. unfold to_chars.
  rewrite (proj2 (Z.ltb_ge (10 * q + r) 0)) by lia.
  rewrite (proj2 (Z.ltb_ge q 0)) by lia. simpl.
  rewrite (proj2 (Z.ltb_ge (10 * q + r) 10)) by lia.
  replace ((10 * q + r) / 10) with q
    by (apply (Z.div_unique _ 10 q r); lia).
  replace ((10 * q + r) mod 10) with r
    by (apply (Z.mod_unique _ 10 q r); lia).
  f_equal. change (if q <? 10 then [digit q]
                   else digits (Z.to_nat q) (q / 10) ++ [digit (q mod 10)])
    with (digits (S (Z.to_nat q)) q).
  apply digits_fuel; lia.
Qed.

Lemma length_to_chars_ge (k : nat) (n : Z) :
  10 ^ Z.of_nat k <= n -> (k + 1 <= length (to_chars n))%nat.
Proof.
  revert n. induction k as [|k IH]; intros n Hn.
  - simpl in Hn. unfold to_chars. rewrite (proj2 (Z.ltb_ge n 0)) by lia.
    simpl. destruct (n <? 10); [simpl; lia|]. rewrite length_app. simpl. lia.
  - rewrite Nat2Z.inj_succ, Z.pow_succ_r in Hn by lia.
    assert (0 < 10 ^ Z.of_nat k) by (apply Z.pow_pos_nonneg; lia).
    rewrite (Z.div_mod n 10) by lia.
    rewrite to_chars_step.
    + rewrite length_app. simpl. specialize (IH (n / 10)).
      assert (10 ^ Z.of_nat k <= n / 10) by (apply Z.div_le_lower_bound; lia).
      specialize (IH H0). lia.
    + assert (10 ^ Z.of_nat k <= n / 10) by (apply Z.div_le_lower_bound; lia).
      lia.
    + apply Z.mod_pos_bound. lia.
Qed.

Lemma length_to_chars_le (k : nat) (n : Z) :
  0 <= n < 10 ^ Z.of_nat (S k) -> (length (to_chars n) <= S k)%nat.
Proof.
  revert n. induction k as [|k IH]; intros n Hn.
  - change (10 ^ Z.of_nat 1) with 10 in Hn. unfold to_chars.
    rewrite (proj2 (Z.ltb_ge n 0)) by lia. simpl.
    rewrite (proj2 (Z.ltb_lt n 10)) by lia. simpl. lia.
  - destruct (Z.lt_ge_cases n 10) as [Hlt|Hge].
    + unfold to_chars. rewrite (proj2 (Z.ltb_ge n 0)) by lia. simpl.
      rewrite (proj2 (Z.ltb_lt n 10)) by lia. simpl. lia.
    + rewrite (Z.div_mod n 10) by lia.
      rewrite to_chars_step;
        [| assert (1 <= n / 10) by (apply Z.div_le_lower_bound; lia); lia
         | apply Z.mod_pos_bound; lia].
      rewrite length_app. simpl.
      assert (length (to_chars (n / 10)) <= S k)%nat; [|lia].
      apply IH. split; [apply Z.div_pos; lia|].
      apply Z.div_lt_upper_bound; [lia|].
      rewrite (Nat2Z.inj_succ (S k)), Z.pow_succ_r in Hn by lia. lia.
Qed.

Lemma list_ascii_of_string_app (a b : string) :
  list_ascii_of_string (a ++ b)
  = list_ascii_of_string a ++ list_ascii_of_string b.
Proof. induction a as [|c a IH]; simpl; [reflexivity | now rewrite IH]. Qed.

Lemma string_app_inv_head (a b c : string) :
  (a ++ b)%string = (a ++ c)%string -> b = c.
Proof.
  induction a as [|x a IH]; simpl; [auto|]. intros E. injection E as E. auto.
Qed.

Lemma string_app_inj (a b c d : string) :
  String.length a = String.length c ->
  (a ++ b)%string = (c ++ d)%string -> a = c /\ b = d.
Proof.
  revert c. induction a as [|x a IH]; intros [|y c] Hlen E;
    simpl in *; try discriminate.
  - auto.
  - injection Hlen as Hlen. injection E as -> E.
    destruct (IH c Hlen E) as [-> ->]. auto.
Qed.

Lemma string_app_assoc (a b c : string) :
  ((a ++ b) ++ c)%string = (a ++ (b ++ c))%string.
Proof.
  induction a as [|x a IH]; [reflexivity|].
  change (String x ((a ++ b) ++ c) = String x (a ++ (b ++ c)))%string.
  now rewrite IH.
Qed.

Lemma string_length_app (a b : string) :
  String.length (a ++ b) = (String.length a + String.length b)%nat.
Proof.
  induction a as [|x a IH]; [reflexivity|].
  change (S (String.length (a ++ b))
          = S (String.length a + String.length b))%nat.
  now rewrite IH.
Qed.

Lemma to_chars_digits (n : Z) : 0 <= n -> to_chars n = digits (S (Z.to_nat n)) n.
Proof. intros H. unfold to_chars. now rewrite (proj2 (Z.ltb_ge n 0) H). Qed.

Lemma printf_05d_nonneg (n : Z) :
  0 <= n -> printf_05d n = setw_setfill 5 "0" (to_chars n).
Proof.
  intros H. unfold printf_05d. rewrite (proj2 (Z.ltb_ge n 0) H).
  now rewrite to_chars_digits.
Qed.

Lemma setw_setfill_value (w : nat) (n : Z) :
  0 <= n -> value (setw_setfill w "0" (to_chars n)) = n.
Proof.
  intros H. unfold value, setw_setfill. rewrite value_from_zeros.
  now apply to_chars_value.
Qed.

(** X19. The names of the HDF5 files of two outputs with the same base name
    and identifier are different when the file numbers, not negative, are
    different, or when one is a restart file and the other is not: the
    number is written in full, on five characters or more, so an output
    never takes the name of an earlier one. *)
Theorem hdf5_filenames_distinct (file_basename file_id : string)
  (file_number file_number' : Z) (restart_ restart_' : bool) :
  0 <= file_number -> 0 <= file_number' ->
  hdf5_filename file_basename file_id file_number restart_
    = hdf5_filename file_basename file_id file_number' restart_' ->
  file_number = file_number' /\ restart_ = restart_'.
Proof.
  intros Hn Hn' E. unfold hdf5_filename in E. cbv zeta in E.
  rewrite !(string_app_assoc (((file_basename ++ ".") ++ file_id) ++ ".")) in E.
  apply string_app_inv_head in E.
  assert (forall r : bool,
            String.length (if r then ".rhdf" else ".phdf")%string = 5%nat) as Hext
    by (intros []; reflexivity).
  pose proof (f_equal String.length E) as Hlen.
  rewrite !string_length_app, !Hext in Hlen.
  apply string_app_inj in E as [Enum Eext]; [|lia].
  split.
  - apply (f_equal list_ascii_of_string) in Enum.
    rewrite !list_ascii_of_string_of_list_ascii in Enum.
    apply (f_equal value) in Enum.
    now rewrite !setw_setfill_value in Enum by assumption.
  - destruct restart_, restart_'; (reflexivity || discriminate).
Qed.

Lemma hdf5_filenames_distinct_witness :
  hdf5_filename "out" "phdf5" 7 false = "out.phdf5.00007.phdf"%string
  /\ (7 = 7 /\ false = false).
Proof.
  split; [reflexivity|].
  apply (hdf5_filenames_distinct "out" "phdf5" 7 7 false false); [lia | lia |].
  reflexivity.
Defined.

(** X20. The name of a VTK file holds the file number on exactly five
    characters: the buffer of six characters cuts what [%05d] writes beyond
    them. For a block and file numbers from 0 to 99999 different numbers
    give different names; from 100000 on the last digits are lost, and the
    ten file numbers that differ in their last digit only give the same
    name. *)
Theorem vtk_filenames_collide :
  (forall file_basename file_id gid file_number file_number',
     0 <= file_number <= 99999 -> 0 <= file_number' <= 99999 ->
     vtk_filename file_basename file_id file_number gid
       = vtk_filename file_basename file_id file_number' gid ->
     file_number = file_number')
  /\ (forall file_basename file_id gid q r r',
        10000 <= q -> 0 <= r < 10 -> 0 <= r' < 10 ->
        vtk_filename file_basename file_id (10 * q + r) gid
          = vtk_filename file_basename file_id (10 * q + r') gid).
Proof.
  split.
  - intros b i g n n' Hn Hn' E. unfold vtk_filename in E. cbv zeta in E.
    match type of E with
    | ((?p ++ _) ++ _)%string = _ =>
        rewrite !(string_app_assoc p) in E
    end.
    apply string_app_inv_head in E.
    pose proof (f_equal String.length E) as Hlen.
    rewrite !string_length_app in Hlen.
    apply string_app_inj in E as [Enum _]; [|lia].
    unfold snprintf in Enum.
    apply (f_equal list_ascii_of_string) in Enum.
    rewrite !list_ascii_of_string_of_list_ascii in Enum.
    assert (forall m, 0 <= m <= 99999 ->
              take (6 - 1) (printf_05d m) = setw_setfill 5 "0" (to_chars m))
      as Htake.
    { intros m Hm. rewrite printf_05d_nonneg by lia. apply take_ge.
      unfold setw_setfill. rewrite length_app, length_replicate.
      pose proof (length_to_chars_le 4 m). change (10 ^ Z.of_nat 5) with 100000 in H.
      lia. }
    rewrite !Htake in Enum by assumption.
    apply (f_equal value) in Enum.
    now rewrite !setw_setfill_value in Enum by lia.
  - intros b i g q r r' Hq Hr Hr'. unfold vtk_filename. cbv zeta.
    assert (forall d, 0 <= d < 10 ->
              snprintf 6 (printf_05d (10 * q + d))
              = string_of_list_ascii (take 5 (to_chars q))) as Hcut.
    { intros d Hd. unfold snprintf. f_equal.
      rewrite printf_05d_nonneg by lia. rewrite to_chars_step by lia.
      pose proof (length_to_chars_ge 4 q). change (10 ^ Z.of_nat 4) with 10000 in H.
      unfold setw_setfill. rewrite length_app.
      replace (5 - (length (to_chars q) + length [digit d]))%nat with 0%nat
        by (simpl; lia).
      simpl replicate. rewrite app_nil_l. simpl Nat.sub.
      rewrite take_app_le by lia. reflexivity. }
    now rewrite !Hcut by assumption.
Qed.

Lemma vtk_filenames_collide_witness :
  vtk_filename "out" "vtk" 100000 3 = vtk_filename "out" "vtk" 100007 3.
Proof.
  apply (proj2 vtk_filenames_collide "out"%string "vtk"%string 3 10000 0 7); lia.
Defined.

(** ** The layout of the gathered buffers *)

Lemma insert_after_prefix (pre : list Z) (k n : nat) (x : Z) :
  length pre = k -> (k < n)%nat ->
  <[k := x]> (pre ++ replicate (n - k) 0) = (pre ++ [x]) ++ replicate (n - S k) 0.
Proof.
  intros Hlen Hk. rewrite insert_app_r_alt by lia.
  rewrite Hlen, Nat.sub_diag. replace (n - k)%nat with (S (n - S k)) by lia.
  simpl. now rewrite <- app_assoc.
Qed.

Lemma sum_counts_take_S (lens : list Z) (k : nat) (x : Z) :
  lens !! k = Some x ->
  sum_counts (take (S k) lens) = sum_counts (take k lens) + x.
Proof.
  intros H. rewrite (take_S_r _ _ _ H), sum_counts_app.
  unfold sum_counts. simpl. lia.
Qed.

Lemma sum_counts_take_bounds (lens : list Z) (k : nat) :
  Forall (fun n => 0 <= n) lens ->
  0 <= sum_counts (take k lens) <= sum_counts lens.
Proof.
  intros Hall. rewrite <- (take_drop k lens) at 3. rewrite sum_counts_app.
  assert (forall l, Forall (fun n => 0 <= n) l -> 0 <= sum_counts l) as Hpos.
  { unfold sum_counts. induction 1; simpl; lia. }
  rewrite <- (take_drop k lens) in Hall. apply Forall_app in Hall as [H1 H2].
  pose proof (Hpos _ H1). pose proof (Hpos _ H2). lia.
Qed.

Lemma offsets_of_lookup (lens : list Z) (k : nat) :
  (k < length lens)%nat ->
  offsets_of lens !! k = Some (sum_counts (take k lens)).
Proof.
  intros Hk. unfold offsets_of. rewrite list_lookup_fmap.
  rewrite (proj2 (lookup_seq 0 (length lens) k k)) by auto. reflexivity.
Qed.

Lemma length_offsets_of (lens : list Z) : length (offsets_of lens) = length lens.
Proof. unfold offsets_of. now rewrite length_map, length_seq. Qed.

Section Layout.

(** The lengths of the label buffers and of the code buffers of the ranks,
    and the list that interleaves them. *)
Variable lens_l lens_c lengths : list Z.
Hypothesis same_length : length lens_c = length lens_l.
Hypothesis at_even : forall r x, lens_l !! r = Some x -> nth (r * 2 + 0) lengths 0 = x.
Hypothesis at_odd : forall r x, lens_c !! r = Some x -> nth (r * 2 + 1) lengths 0 = x.
Hypothesis labels_nonneg : Forall (fun n => 0 <= n) lens_l.
Hypothesis codes_nonneg : Forall (fun n => 0 <= n) lens_c.
Hypothesis labels_fit : sum_counts lens_l <= CInt.int_max.
Hypothesis codes_fit : sum_counts lens_c <= CInt.int_max.

Lemma gather_layout_steps (k : nat) :
  (k <= length lens_l)%nat ->
  let n := length lens_l in
  let st :=
    foldl (layout_step lengths)
      {| label_lengths := replicate n 0; label_offsets := replicate n 0;
         code_lengths := replicate n 0; code_offsets := replicate n 0;
         label_offset := 0; code_offset := 0 |} (seq 0 k) in
  label_lengths st = take k lens_l ++ replicate (n - k) 0
  /\ label_offsets st = take k (offsets_of lens_l) ++ replicate (n - k) 0
  /\ code_lengths st = take k lens_c ++ replicate (n - k) 0
  /\ code_offsets st = take k (offsets_of lens_c) ++ replicate (n - k) 0
  /\ label_offset st = sum_counts (take k lens_l)
  /\ code_offset st = sum_counts (take k lens_c).
Proof using same_length at_even at_odd labels_nonneg codes_nonneg labels_fit
  codes_fit.
  induction k as [|k IH]; intros Hk n st.
  - subst st. simpl. rewrite Nat.sub_0_r. repeat split.
  - subst st. rewrite seq_S, foldl_snoc. simpl Nat.add.
    destruct IH as (Hll & Hlo & Hcl & Hco & Hl & Hc); [lia|].
    fold n in Hll, Hlo, Hcl, Hco, Hl, Hc.
    set (st := foldl (layout_step lengths) _ (seq 0 k)) in *.
    destruct (lookup_lt_is_Some_2 lens_l k) as [xl Hxl]; [lia|].
    destruct (lookup_lt_is_Some_2 lens_c k) as [xc Hxc]; [lia|].
    assert (length (take k lens_l) = k) as Htl by (rewrite length_take; lia).
    assert (length (take k lens_c) = k) as Htc by (rewrite length_take; lia).
    assert (length (take k (offsets_of lens_l)) = k) as Hol
      by (rewrite length_take, length_offsets_of; lia).
    assert (length (take k (offsets_of lens_c)) = k) as Hoc
      by (rewrite length_take, length_offsets_of; lia).
    unfold layout_step. cbn [label_lengths label_offsets code_lengths
                              code_offsets label_offset code_offset].
    rewrite (at_even k xl Hxl), (at_odd k xc Hxc).
    rewrite Hll, Hlo, Hcl, Hco, Hl, Hc.
    rewrite !insert_after_prefix by (assumption || lia).
    pose proof (sum_counts_take_S lens_l k xl Hxl) as Sl.
    pose proof (sum_counts_take_S lens_c k xc Hxc) as Sc.
    pose proof (sum_counts_take_bounds lens_l (S k) labels_nonneg) as Bl.
    pose proof (sum_counts_take_bounds lens_c (S k) codes_nonneg) as Bc.
    pose proof (sum_counts_take_bounds lens_l k labels_nonneg) as Bl0.
    pose proof (sum_counts_take_bounds lens_c k codes_nonneg) as Bc0.
    rewrite Sl in Bl |- *. rewrite Sc in Bc |- *.
    rewrite (take_S_r _ _ _ Hxl), (take_S_r _ _ _ Hxc).
    rewrite (take_S_r (offsets_of lens_l) k (sum_counts (take k lens_l)))
      by (apply offsets_of_lookup; lia).
    rewrite (take_S_r (offsets_of lens_c) k (sum_counts (take k lens_c)))
      by (apply offsets_of_lookup; lia).
    repeat (split; [reflexivity|]).
    assert (nth k ((take k lens_l ++ [xl]) ++ replicate (n - S k) 0) 0 = xl) as ->.
    { apply nth_lookup_Some. rewrite lookup_app_l by (rewrite length_app; simpl; lia).
      rewrite lookup_app_r by lia. now rewrite Htl, Nat.sub_diag. }
    assert (nth k ((take k lens_c ++ [xc]) ++ replicate (n - S k) 0) 0 = xc) as ->.
    { apply nth_lookup_Some. rewrite lookup_app_l by (rewrite length_app; simpl; lia).
      rewrite lookup_app_r by lia. now rewrite Htc, Nat.sub_diag. }
    unfold CInt.add_int. rewrite !wrap_int_small by lia. split; reflexivity.
Qed.

Lemma gather_layout_spec :
  gather_layout (length lens_l) lengths
  = {| label_lengths := lens_l; label_offsets := offsets_of lens_l;
       code_lengths := lens_c; code_offsets := offsets_of lens_c;
       label_offset := sum_counts lens_l; code_offset := sum_counts lens_c |}.
Proof using same_length at_even at_odd labels_nonneg codes_nonneg labels_fit
  codes_fit.
  destruct (gather_layout_steps (length lens_l) (Nat.le_refl _))
    as (Hll & Hlo & Hcl & Hco & Hl & Hc).
  unfold gather_layout.
  destruct (foldl _ _ _) as [ll lo cl co l c]. simpl in *.
  rewrite Nat.sub_diag, app_nil_r in Hll, Hlo, Hcl, Hco.
  rewrite take_ge in Hll, Hl by lia.
  rewrite take_ge in Hlo by (rewrite length_offsets_of; lia).
  rewrite take_ge in Hcl, Hc by lia.
  rewrite take_ge in Hco by (rewrite length_offsets_of; lia).
  congruence.
Qed.

End Layout.
Lemma sum_counts_lengths_of {A : Type} (bufs : list (list A)) :
  sum_counts (lengths_of bufs) = Z.of_nat (length (concat bufs)).
Proof.
  unfold sum_counts, lengths_of. induction bufs as [|b bufs IH]; simpl.
  - reflexivity.
  - rewrite length_app, IH. lia.
Qed.

Lemma lengths_of_take {A : Type} (bufs : list (list A)) (k : nat) :
  take k (lengths_of bufs) = lengths_of (take k bufs).
Proof. unfold lengths_of. now rewrite <- fmap_take. Qed.

(** The gathering with the lengths of the buffers as counts and the sums of
    the lengths before as displacements puts the buffers one after the
    other. *)
Lemma Allgatherv_concat {A : Type} (bufs : list (list A)) (d : A) :
  Allgatherv bufs (lengths_of bufs) (offsets_of (lengths_of bufs))
    (replicate (Z.to_nat (sum_counts (lengths_of bufs))) d)
  = concat bufs.
Proof.
  unfold Allgatherv. rewrite sum_counts_lengths_of, Nat2Z.id.
  set (total := length (concat bufs)).
  assert (forall k, (k <= length bufs)%nat ->
            foldl (fun buf r =>
                     list_inserts
                       (Z.to_nat (nth r (offsets_of (lengths_of bufs)) 0))
                       (take (Z.to_nat (nth r (lengths_of bufs) 0))
                          (nth r bufs [])) buf)
              (replicate total d) (seq 0 k)
            = concat (take k bufs)
                ++ replicate (total - length (concat (take k bufs))) d) as H.
  { induction k as [|k IH]; intros Hk.
    - simpl. now rewrite Nat.sub_0_r.
    - rewrite seq_S, foldl_snoc, IH by lia. simpl Nat.add.
      destruct (lookup_lt_is_Some_2 bufs k) as [b Hb]; [lia|].
      rewrite (nth_lookup_Some _ _ _ _ Hb).
      rewrite (nth_lookup_Some (lengths_of bufs) k 0 (Z.of_nat (length b)))
        by (unfold lengths_of; rewrite list_lookup_fmap, Hb; reflexivity).
      rewrite (nth_lookup_Some (offsets_of (lengths_of bufs)) k 0
                 (sum_counts (take k (lengths_of bufs))))
        by (apply offsets_of_lookup; unfold lengths_of; rewrite length_map; lia).
      rewrite lengths_of_take, sum_counts_lengths_of, !Nat2Z.id.
      rewrite (take_ge b (length b)) by lia.
      rewrite (take_S_r _ _ _ Hb), concat_app. simpl concat. rewrite app_nil_r.
      set (pre := concat (take k bufs)).
      assert (length pre + length b <= total)%nat as Hfit.
      { subst pre total. rewrite <- (take_drop (S k) bufs) at 2.
        rewrite (take_S_r _ _ _ Hb), !concat_app. simpl concat.
        rewrite app_nil_r, !length_app. lia. }
      replace (length pre) with (length pre + 0)%nat at 1 by lia.
      rewrite list_inserts_app_r.
      replace (total - length pre)%nat
        with (length b + (total - length (pre ++ b)))%nat
        by (rewrite length_app; lia).
      rewrite replicate_add, list_inserts_0_r by (now rewrite length_replicate).
      now rewrite app_assoc. }
  rewrite H by lia. rewrite take_ge by lia. fold total.
  now rewrite Nat.sub_diag, app_nil_r.
Qed.

Lemma buffer_lengths_lookup (locals : list VarSet.t) (r : nat) (s : VarSet.t) :
  locals !! r = Some s ->
  nth (r * 2 + 0) (buffer_lengths locals) 0
    = CInt.wrap_int (Z.of_nat (length (label_buffer s)))
  /\ nth (r * 2 + 1) (buffer_lengths locals) 0
     = CInt.wrap_int (Z.of_nat (length (code_buffer s))).
Proof.
  intros Hs. unfold buffer_lengths. split; apply nth_lookup_Some.
  - now rewrite (lookup_bind_chunk _ _ 2%nat r 0%nat s) by (auto; lia).
  - now rewrite (lookup_bind_chunk _ _ 2%nat r 1%nat s) by (auto; lia).
Qed.

Lemma lengths_of_nonneg {A : Type} (bufs : list (list A)) :
  Forall (fun n => 0 <= n) (lengths_of bufs).
Proof.
  unfold lengths_of. apply List.Forall_forall. intros x Hx.
  apply in_map_iff in Hx as (b & <- & _). lia.
Qed.

Lemma lengths_of_le_sum {A : Type} (bufs : list (list A)) (r : nat) (b : list A) :
  bufs !! r = Some b -> Z.of_nat (length b) <= Z.of_nat (length (concat bufs)).
Proof.
  intros Hb. rewrite <- (take_drop_middle _ _ _ Hb), concat_app, length_app.
  simpl. rewrite length_app. lia.
Qed.

(** X21. The lengths and displacements that a rank computes for the two
    gatherings are the lengths of the buffers of the ranks and the sums of
    the lengths of the lower ranks, and the buffers allocated have the
    total length: the gathered label buffer and the gathered codes are the
    buffers of the ranks one after the other, in rank order, without a gap
    and without an overlap, as long as the total lengths fit an [int]. *)
Theorem gathered_buffers_concatenate (locals : list VarSet.t) :
  Z.of_nat (length (all_labels_buffer locals)) <= CInt.int_max ->
  Z.of_nat (length (all_codes locals)) <= CInt.int_max ->
  gathered_labels locals = all_labels_buffer locals
  /\ gathered_codes locals = all_codes locals
  /\ gather_layout (length locals) (buffer_lengths locals)
     = {| label_lengths := lengths_of (map label_buffer locals);
          label_offsets := offsets_of (lengths_of (map label_buffer locals));
          code_lengths := lengths_of (map code_buffer locals);
          code_offsets := offsets_of (lengths_of (map code_buffer locals));
          label_offset := Z.of_nat (length (all_labels_buffer locals));
          code_offset := Z.of_nat (length (all_codes locals)) |}.
Proof.
  intros Hl Hc. unfold all_labels_buffer, all_codes in *.
  set (lbufs := map label_buffer locals) in *.
  set (cbufs := map code_buffer locals) in *.
  assert (gather_layout (length locals) (buffer_lengths locals)
          = {| label_lengths := lengths_of lbufs;
               label_offsets := offsets_of (lengths_of lbufs);
               code_lengths := lengths_of cbufs;
               code_offsets := offsets_of (lengths_of cbufs);
               label_offset := sum_counts (lengths_of lbufs);
               code_offset := sum_counts (lengths_of cbufs) |}) as Hlay.
  { replace (length locals) with (length (lengths_of lbufs))
      by (unfold lengths_of, lbufs; now rewrite !length_map).
    apply gather_layout_spec.
    - unfold lengths_of, lbufs, cbufs. now rewrite !length_map.
    - intros r x Hx. unfold lengths_of, lbufs in Hx.
      rewrite !list_lookup_fmap in Hx.
      destruct (locals !! r) as [s|] eqn:Hs; [|discriminate].
      injection Hx as <-.
      rewrite (proj1 (buffer_lengths_lookup locals r s Hs)).
      apply wrap_int_small. split; [lia|].
      assert (lbufs !! r = Some (label_buffer s)) as Hb
        by (unfold lbufs; now rewrite list_lookup_fmap, Hs).
      pose proof (lengths_of_le_sum lbufs r _ Hb). lia.
    - intros r x Hx. unfold lengths_of, cbufs in Hx.
      rewrite !list_lookup_fmap in Hx.
      destruct (locals !! r) as [s|] eqn:Hs; [|discriminate].
      injection Hx as <-.
      rewrite (proj2 (buffer_lengths_lookup locals r s Hs)).
      apply wrap_int_small. split; [lia|].
      assert (cbufs !! r = Some (code_buffer s)) as Hb
        by (unfold cbufs; now rewrite list_lookup_fmap, Hs).
      pose proof (lengths_of_le_sum cbufs r _ Hb). lia.
    - apply lengths_of_nonneg.
    - apply lengths_of_nonneg.
    - now rewrite sum_counts_lengths_of.
    - now rewrite sum_counts_lengths_of. }
  split; [|split].
  - unfold gathered_labels. cbv zeta. rewrite Hlay.
    cbn [label_lengths label_offsets label_offset]. apply Allgatherv_concat.
  - unfold gathered_codes. cbv zeta. rewrite Hlay.
    cbn [code_lengths code_offsets code_offset]. apply Allgatherv_concat.
  - rewrite Hlay. now rewrite !sum_counts_lengths_of.
Qed.

Lemma gathered_buffers_concatenate_witness :
  gathered_labels [[mkVarInfo "a" 2 true false]; [mkVarInfo "d" 1 false false]]
  = all_labels_buffer
      [[mkVarInfo "a" 2 true false]; [mkVarInfo "d" 1 false false]].
Proof.
  apply gathered_buffers_concatenate; vm_compute; discriminate.
Defined.
(** ** The VTK writer: the array is large enough *)

(** X22. For a block with at least one cell along every direction and a
    number of ghost cells that is not negative, the array [data] of
    [3 * ndata + 1] values is large enough for every store of the writer:
    the coordinate loops store at the offsets 0 to the number of cells of
    their direction, which is below the number of coordinates when there
    is more than one cell; the byte swaps touch as many values as are
    written; and the row loop, which stores the cell of offset [m] at
    [2 * m], stays below the size. A direction with one cell is not
    widened by the ghost cells and has one coordinate. *)
Theorem vtk_array_large_enough (include_ghost_zones : bool) (NGHOST : Z)
  (pmb_is pmb_ie pmb_js pmb_je pmb_ks pmb_ke : Z) :
  0 <= NGHOST -> pmb_is <= pmb_ie -> pmb_js <= pmb_je -> pmb_ks <= pmb_ke ->
  let sz := vtk_sizes include_ghost_zones NGHOST pmb_is pmb_ie pmb_js pmb_je
              pmb_ks pmb_ke in
  (1 <= ncells1 sz /\ 1 <= ncells2 sz /\ 1 <= ncells3 sz)
  /\ (ncoord1 sz <= ndata sz /\ ncoord2 sz <= ndata sz /\ ncoord3 sz <= ndata sz)
  /\ (forall i, vtk_is sz <= i <= vtk_ie sz + 1 -> 1 < ncells1 sz ->
        0 <= i - vtk_is sz < ncoord1 sz)
  /\ (forall j, vtk_js sz <= j <= vtk_je sz + 1 -> 1 < ncells2 sz ->
        0 <= j - vtk_js sz < ncoord2 sz)
  /\ (forall k, vtk_ks sz <= k <= vtk_ke sz + 1 -> 1 < ncells3 sz ->
        0 <= k - vtk_ks sz < ncoord3 sz)
  /\ (forall i, vtk_is sz <= i <= vtk_ie sz ->
        0 <= (i - vtk_is sz) + (i - vtk_is sz) < vtk_data_size sz)
  /\ ncells1 sz <= vtk_data_size sz
  /\ (pmb_js = pmb_je -> ncells2 sz = 1 /\ ncoord2 sz = 1)
  /\ (pmb_ks = pmb_ke -> ncells3 sz = 1 /\ ncoord3 sz = 1).
Proof.
  intros Hg Hi Hj Hk sz. subst sz.
  unfold vtk_sizes, vtk_data_size, ncoord_of.
  destruct include_ghost_zones; cbn [negb];
    destruct (Z.eqb_spec pmb_js pmb_je), (Z.eqb_spec pmb_ks pmb_ke);
    cbn [negb vtk_is vtk_ie vtk_js vtk_je vtk_ks vtk_ke ncells1 ncells2 ncells3
         ncoord1 ncoord2 ncoord3 ndata];
    repeat match goal with
           | |- context [?a >? 1] => destruct (Z.gtb_spec a 1)
           end;
    repeat split; intros; lia.
Qed.

Lemma vtk_array_large_enough_witness :
  ncells1 (vtk_sizes true 2 2 9 2 2 2 2) <= vtk_data_size (vtk_sizes true 2 2 9 2 2 2 2).
Proof.
  refine (proj1 (proj2 (proj2 (proj2 (proj2 (proj2 (proj2
            (vtk_array_large_enough true 2 2 9 2 2 2 2 _ _ _ _)))))))); lia.
Defined.

(** ** The order of the descriptors *)

(** X23. [operator<] on descriptors is the order of their labels, a strict
    weak order: no descriptor is below itself, of two descriptors at most
    one is below the other, the order is transitive, and two descriptors
    are equivalent, neither below the other, exactly when they have the
    same label and the same length. The comparison fails, in both
    directions, exactly when the labels are equal and the lengths differ,
    and the flags play no part in it. *)
Theorem VarInfo_lt_strict_weak_order :
  (forall a, VarInfo_lt a a = Ok false)
  /\ (forall a b, VarInfo_lt a b = Ok true -> VarInfo_lt b a = Ok false)
  /\ (forall a b c, VarInfo_lt a b = Ok true -> VarInfo_lt b c = Ok true ->
        VarInfo_lt a c = Ok true)
  /\ (forall a b, VarInfo_lt a b = Ok false /\ VarInfo_lt b a = Ok false
                  <-> label a = label b /\ vlen a = vlen b)
  /\ (forall a b, VarInfo_lt a b = Fatal (MultipleLengths (label a))
                  <-> label a = label b /\ vlen a <> vlen b)
  /\ (forall a b, succeeds (VarInfo_lt a b) <-> succeeds (VarInfo_lt b a))
  /\ (forall a b a' b',
        label a' = label a -> vlen a' = vlen a ->
        label b' = label b -> vlen b' = vlen b ->
        VarInfo_lt a' b' = VarInfo_lt a b).
Proof.
  assert (forall a b, VarInfo_lt a b = Ok true <-> lbl_lt (label a) (label b))
    as Hlt.
  { intros a b. unfold VarInfo_lt.
    destruct (String.eqb_spec (label a) (label b)) as [E|N]; simpl.
    - destruct (Z.eqb_spec (vlen a) (vlen b)); simpl.
      + rewrite E, ltb_irrefl. split; [discriminate|].
        intros H. destruct (lbl_lt_irrefl _ H).
      + split; [discriminate|]. rewrite E. intros H.
        destruct (lbl_lt_irrefl _ H).
    - unfold lbl_lt. split; [intros H; now injection H | intros ->; reflexivity]. }
  assert (forall a b, VarInfo_lt a b = Fatal (MultipleLengths (label a))
                      <-> label a = label b /\ vlen a <> vlen b) as Hfatal.
  { intros a b. unfold VarInfo_lt.
    destruct (String.eqb_spec (label a) (label b)) as [E|N]; simpl.
    - destruct (Z.eqb_spec (vlen a) (vlen b)); simpl.
      + split; [discriminate | tauto].
      + tauto.
    - split; [discriminate | tauto]. }
  assert (forall a b, VarInfo_lt a b = Ok false
                      <-> (label a = label b -> vlen a = vlen b)
                          /\ ~ lbl_lt (label a) (label b)) as Hge.
  { intros a b. unfold VarInfo_lt.
    destruct (String.eqb_spec (label a) (label b)) as [E|N]; simpl.
    - destruct (Z.eqb_spec (vlen a) (vlen b)); simpl.
      + rewrite E, ltb_irrefl. split; [|reflexivity].
        intros _. split; [auto | apply lbl_lt_irrefl].
      + split; [discriminate|]. intros [H _]. tauto.
    - unfold lbl_lt. destruct (label a <? label b)%string.
      + split; [discriminate|]. intros [_ H]. tauto.
      + split; [|reflexivity]. intros _. split; [tauto | discriminate]. }
  split; [|split; [|split; [|split; [|split; [|split]]]]].
  - intros a. apply Hge. split; [auto | apply lbl_lt_irrefl].
  - intros a b H. apply Hlt in H. apply Hge. split.
    + intros E. symmetry in E. destruct (lbl_lt_neq _ _ H E).
    + now apply lbl_lt_asym.
  - intros a b c H1 H2. apply Hlt in H1, H2. apply Hlt.
    now apply lbl_lt_trans with (label b).
  - intros a b. rewrite !Hge. split.
    + intros [[Hv Hab] [_ Hba]].
      assert (label a = label b) as E.
      { apply lbl_total.
        - destruct (label a <? label b)%string eqn:E1; [|reflexivity].
          destruct (Hab E1).
        - destruct (label b <? label a)%string eqn:E2; [|reflexivity].
          destruct (Hba E2). }
      auto.
    + intros [El Ev]. rewrite El. repeat split; auto using lbl_lt_irrefl.
  - exact Hfatal.
  - assert (forall a b, succeeds (VarInfo_lt a b)
                        <-> (label a = label b -> vlen a = vlen b)) as Hs.
    { intros a b. unfold VarInfo_lt.
      destruct (String.eqb_spec (label a) (label b)) as [E|N]; simpl.
      - destruct (Z.eqb_spec (vlen a) (vlen b)); simpl; tauto.
      - tauto. }
    intros a b. rewrite !Hs. split; intros H E; symmetry; apply H; now symmetry.
  - intros a b a' b' El Ev El' Ev'. unfold VarInfo_lt.
    now rewrite El, Ev, El', Ev'.
Qed.

Lemma VarInfo_lt_strict_weak_order_witness :
  VarInfo_lt (mkVarInfo "b" 2 false true) (mkVarInfo "a" 1 true false) = Ok false.
Proof.
  apply (proj1 (proj2 VarInfo_lt_strict_weak_order)). reflexivity.
Defined.
